(** * MetGet server: triangulation weights, source-grid geometry, spatial index

    A shallow embedding of the numerical core of the repository:

    - [FastTri]: [InterpolationWeight.h], [FaceInfo2.h] and
      [Triangulation.cpp] (constrained Delaunay triangulation wrapper and
      barycentric interpolation weights);
    - [MetBuild]: [Grib.cpp] (message selection, longitude normalisation,
      corner detection, value cache, two-dimensional views),
      [KdtreePrivate.cpp] (spatial index construction and queries),
      [WindData.cpp] (wind and pressure fields) and [Meteorology.h] (the
      variables of a data type).

    The C++ code computes on [double].  Every function below is written once,
    over a scalar interface [Scalar], and read at two instances: IEEE binary64
    ([float], what the program runs) and exact rationals ([Q], what the
    formulas mean without rounding).  CGAL and nanoflann are third-party
    libraries; what the code needs from them is an interface ([CGAL],
    [Nanoflann], [Nanoflann_search]) whose operations are left to the
    instance; a GRIB file is the list of its messages as ecCodes decodes
    them. *)

From Stdlib Require Import Ascii String.
From Stdlib Require Import ZArith QArith Qround List Bool Lia Lqa.
From Stdlib Require Import Floats Permutation.
Import ListNotations.
Close Scope Q_scope.
Set Warnings "-inexact-float".

Set Implicit Arguments.

(** ** Scalars: the operations the sources use on [double] *)

Class Scalar (T : Type) := {
  of_Z : Z -> T;                 (* integral literals: 0.0, 1.0, 180.0, 360.0 *)
  add : T -> T -> T;
  sub : T -> T -> T;
  mul : T -> T -> T;
  div : T -> T -> T;
  ltb : T -> T -> bool;          (* operator< *)
  eqb : T -> T -> bool;          (* operator== *)
  fmod : T -> T -> T;            (* std::fmod *)
  quiet_NaN : T                  (* std::numeric_limits<T>::quiet_NaN() *)
}.

Declare Scope scalar_scope.
Delimit Scope scalar_scope with S.
Infix "+" := add : scalar_scope.
Infix "-" := sub : scalar_scope.
Infix "*" := mul : scalar_scope.
Infix "/" := div : scalar_scope.
Infix "<?" := ltb : scalar_scope.
Infix "=?" := eqb : scalar_scope.

(** *** IEEE binary64 *)

Module Double.

Definition of_Z (z : Z) : float :=
  match z with
  | Z0 => PrimFloat.zero
  | Zpos _ => PrimFloat.of_uint63 (Uint63.of_Z z)
  | Zneg p => PrimFloat.opp (PrimFloat.of_uint63 (Uint63.of_Z (Zpos p)))
  end.

(** [std::fmod] of the C library: the result is [x - n*y] for the integer
    [n] obtained by truncating [x/y]; it is exact and carries the sign of
    [x].  Computed on the integer mantissas at the smaller exponent. *)
Definition fmod (x y : float) : float :=
  match Prim2SF x, Prim2SF y with
  | S754_nan, _ | _, S754_nan => PrimFloat.nan
  | S754_infinity _, _ => PrimFloat.nan
  | _, S754_zero _ => PrimFloat.nan
  | S754_zero _, _ => x
  | S754_finite _ _ _, S754_infinity _ => x
  | S754_finite sx mx ex, S754_finite _ my ey =>
      let e := Z.min ex ey in
      let X := (Zpos mx * 2 ^ (ex - e))%Z in
      let Y := (Zpos my * 2 ^ (ey - e))%Z in
      let r := Z.rem X Y in
      if (r =? 0)%Z then (if sx then PrimFloat.neg_zero else PrimFloat.zero)
      else SF2Prim (binary_normalize prec emax (if sx then Z.opp r else r) e sx)
  end.

Definition fabs (x : float) : float := PrimFloat.abs x.

End Double.

#[export] Instance Scalar_double : Scalar float := {|
  of_Z := Double.of_Z;
  add := PrimFloat.add;
  sub := PrimFloat.sub;
  mul := PrimFloat.mul;
  div := PrimFloat.div;
  ltb := PrimFloat.ltb;
  eqb := PrimFloat.eqb;
  fmod := Double.fmod;
  quiet_NaN := PrimFloat.nan
|}.

(** *** Exact rationals *)

Module Exact.

(** Truncation towards zero. *)
Definition trunc (q : Q) : Z := Z.quot (Qnum q) (Zpos (Qden q)).

Definition fmod (x y : Q) : Q := (x - y * inject_Z (trunc (x / y)))%Q.

Definition ltb (x y : Q) : bool := negb (Qle_bool y x).

End Exact.

(** A type without NaN: [numeric_limits<T>::quiet_NaN()] is [T()]. *)
#[export] Instance Scalar_Q : Scalar Q := {|
  of_Z := inject_Z;
  add := Qplus;
  sub := Qminus;
  mul := Qmult;
  div := Qdiv;
  ltb := Exact.ltb;
  eqb := Qeq_bool;
  fmod := Exact.fmod;
  quiet_NaN := 0%Q
|}.

(** ** Common C++ vocabulary *)

(** [unsigned]: 32 bits. *)
Definition unsigned := Z.
Definition UINT_WIDTH : Z := 32.
Definition static_cast_unsigned (n : nat) : unsigned :=
  (Z.of_nat n mod 2 ^ UINT_WIDTH)%Z.

(** [std::views::iota(lo, hi)]. *)
Definition iota (lo hi : Z) : list Z :=
  map (fun k => (lo + Z.of_nat k)%Z) (seq 0 (Z.to_nat (hi - lo))).

(** [v[i]]: reading or writing outside the vector is undefined behaviour,
    rendered as [None]. *)
Definition vec_at {A} (v : list A) (i : Z) : option A :=
  if (i <? 0)%Z then None else nth_error v (Z.to_nat i).

Fixpoint list_set {A} (v : list A) (n : nat) (a : A) : option (list A) :=
  match v, n with
  | [], _ => None
  | _ :: v', O => Some (a :: v')
  | b :: v', S n' => option_map (cons b) (list_set v' n' a)
  end.

Definition vec_set {A} (v : list A) (i : Z) (a : A) : option (list A) :=
  if (i <? 0)%Z then None else list_set v (Z.to_nat i) a.

Definition obind {A B} (o : option A) (f : A -> option B) : option B :=
  match o with Some a => f a | None => None end.

Notation "x <- o ;; k" := (obind o (fun x => k))
  (at level 61, o at next level, right associativity).

(** [std::array<A, 3>]. *)
Definition array3 (A : Type) : Type := (A * A * A)%type.
Definition at3 {A} (a : array3 A) (i : nat) : A :=
  match a, i with
  | (a0, _, _), 0%nat => a0
  | (_, a1, _), 1%nat => a1
  | (_, _, a2), _ => a2
  end.

Inductive exception : Type :=
| invalid_argument (what : string).

Inductive result (A : Type) : Type :=
| Ok (a : A)
| Throw (e : exception).
Arguments Ok {A} a.
Arguments Throw {A} e.

Definition throws {A} (r : result A) : bool :=
  match r with Ok _ => false | Throw _ => true end.

Module FastTri.

(** *** InterpolationWeight.h *)
Section InterpolationWeight.
Context {T : Type} {scalar : Scalar T}.
Local Open Scope scalar_scope.

Record InterpolationWeight : Type := {
  vertices : array3 unsigned;
  weights : array3 T;
  valid : bool
}.

(** Default constructor: an invalid weight. *)
Definition InterpolationWeight_default : InterpolationWeight :=
  {| vertices := (0, 0, 0)%Z;
     weights := (of_Z 0, of_Z 0, of_Z 0);
     valid := false |}.

(** Two-argument constructor: a valid weight. *)
Definition InterpolationWeight_make
    (vertices_ : array3 unsigned) (weights_ : array3 T) : InterpolationWeight :=
  {| vertices := vertices_; weights := weights_; valid := true |}.

(** The lambda of [interpolate]. *)
Definition interpolate_one (values : list T) (this_weight : InterpolationWeight)
  : option T :=
  if negb (valid this_weight) then Some quiet_NaN
  else
    x0 <- vec_at values (at3 (vertices this_weight) 0) ;;
    x1 <- vec_at values (at3 (vertices this_weight) 1) ;;
    x2 <- vec_at values (at3 (vertices this_weight) 2) ;;
    Some ((at3 (weights this_weight) 0 * x0)
          + (at3 (weights this_weight) 1 * x1)
          + (at3 (weights this_weight) 2 * x2)).

Fixpoint interpolate (weights_ : list InterpolationWeight) (values : list T)
  : option (list T) :=
  match weights_ with
  | [] => Some []
  | this_weight :: rest =>
      r <- interpolate_one values this_weight ;;
      rs <- interpolate rest values ;;
      Some (r :: rs)
  end.

End InterpolationWeight.
Arguments InterpolationWeight T : clear implicits.

(** *** FaceInfo2.h *)
Record FaceInfo2 : Type := { m_in_domain : bool }.

Definition FaceInfo2_default : FaceInfo2 := {| m_in_domain := false |}.
Definition is_in_domain (f : FaceInfo2) : bool := m_in_domain f.
Definition set_in_domain (_ : FaceInfo2) (in_domain : bool) : FaceInfo2 :=
  {| m_in_domain := in_domain |}.

(** *** CGAL, as [Triangulation.h] instantiates it

    [t_CDT] is CGAL's constrained Delaunay triangulation over vertices that
    carry an [unsigned] and faces that carry a [FaceInfo2].  A handle is
    rendered by the value it designates. *)
Section CGAL.
Context {T : Type} {scalar : Scalar T}.
Local Open Scope scalar_scope.

Record t_Point : Type := { x : T; y : T }.

Definition point_eqb (p q : t_Point) : bool :=
  (x p =? x q) && (y p =? y q).

Record t_Vertex : Type := { point : t_Point; info : unsigned }.

Record t_Face : Type := { face_vertices : array3 t_Vertex; finfo : FaceInfo2 }.

(** [face_handle->vertex(i)]. *)
Definition vertex (f : t_Face) (i : nat) : t_Vertex := at3 (face_vertices f) i.

Definition t_Polygon : Type := list t_Point.

Inductive Locate_type : Type :=
| VERTEX | EDGE | FACE | OUTSIDE_CONVEX_HULL | OUTSIDE_AFFINE_HULL.

Record t_CDT : Type := {
  finite_vertices : list t_Vertex;
  finite_faces : list t_Face
}.

Definition t_CDT_empty : t_CDT := {| finite_vertices := []; finite_faces := [] |}.

(** The library operations whose results the repository does not
    determine.  [spatial_sort] is the order in which a range insertion
    visits its input; [triangulate] gives the finite faces over a vertex
    set; [in_domain_map] is the property map that
    [CGAL::mark_domain_in_triangulation] fills, keyed by the position of
    the face among the finite faces; [locate] is point location, started
    from an optional face. *)
Class CGAL : Type := {
  spatial_sort : list t_Point -> list nat;
  spatial_sort_perm :
    forall pts, Permutation (spatial_sort pts) (seq 0 (length pts));
  triangulate : list t_Vertex -> list (array3 t_Vertex);
  insert_constraint : t_CDT -> t_Polygon -> t_CDT;
  in_domain_map : t_CDT -> nat -> option bool;
  locate : t_CDT -> t_Point -> option t_Face -> Locate_type * t_Face
}.

Context {cgal : CGAL}.

(** [insert(p)] followed by [v->info() = i]: a point already present
    yields its vertex, any other point a new vertex. *)
Fixpoint insert_point (vs : list t_Vertex) (p : t_Point) (i : unsigned)
  : list t_Vertex :=
  match vs with
  | [] => [{| point := p; info := i |}]
  | v :: vs' =>
      if point_eqb (point v) p then {| point := point v; info := i |} :: vs'
      else v :: insert_point vs' p i
  end.

Definition new_face (tr : array3 t_Vertex) : t_Face :=
  {| face_vertices := tr; finfo := FaceInfo2_default |}.

(** [t_CDT::insert(first, last)] on (point, info) pairs, after CGAL's
    documentation: the pairs are visited in spatial-sort order and each
    visited pair stores its info in the vertex at its point. *)
Definition insert_range (t : t_CDT) (pts_vec : list (t_Point * unsigned)) : t_CDT :=
  let vs :=
    fold_left
      (fun vs k =>
         match nth_error pts_vec k with
         | Some (p, i) => insert_point vs p i
         | None => vs
         end)
      (spatial_sort (map fst pts_vec)) (finite_vertices t) in
  {| finite_vertices := vs; finite_faces := map new_face (triangulate vs) |}.

(** *** Triangulation.cpp *)

Definition mark_domain_status (triangulation : t_CDT) : t_CDT :=
  let in_domain := in_domain_map triangulation in
  {| finite_vertices := finite_vertices triangulation;
     finite_faces :=
       map (fun '(k, fit) =>
              {| face_vertices := face_vertices fit;
                 finfo := set_in_domain (finfo fit)
                            (match in_domain k with
                             | Some second => second
                             | None => false
                             end) |})
           (combine (seq 0 (length (finite_faces triangulation)))
                    (finite_faces triangulation)) |}.

(** A value-initialised point: what a slot of [get_vertices]' vector holds
    before it is written, and the filler of total list reads. *)
Definition origin : t_Point := {| x := of_Z 0; y := of_Z 0 |}.

Definition add_mesh_points (triangulation : t_CDT) (points : list t_Point) : t_CDT :=
  let pts_vec :=
    map (fun pt_idx => (nth (Z.to_nat pt_idx) points origin, pt_idx))
        (iota 0 (static_cast_unsigned (length points))) in
  insert_range triangulation pts_vec.

Definition construct_points (points_x points_y : list T) : result (list t_Point) :=
  if negb (length points_x =? length points_y)%nat then
    Throw (invalid_argument "The number of x and y coordinates must be the same.")
  else
    Ok (map (fun pt_idx =>
               {| x := nth (Z.to_nat pt_idx) points_x (of_Z 0);
                  y := nth (Z.to_nat pt_idx) points_y (of_Z 0) |})
            (iota 0 (static_cast_unsigned (length points_x)))).

Definition construct_triangulation (xs ys : list T) : result t_CDT :=
  if (length xs <? 3)%nat then
    Throw (invalid_argument "At least 3 points are required for triangulation.")
  else
    match construct_points xs ys with
    | Throw e => Throw e
    | Ok pts => Ok (add_mesh_points t_CDT_empty pts)
    end.

Record Triangulation : Type := { m_triangulation : t_CDT }.

(** The constructor. *)
Definition Triangulation_new (points_x points_y : list T) : result Triangulation :=
  match construct_triangulation points_x points_y with
  | Throw e => Throw e
  | Ok t => Ok {| m_triangulation := t |}
  end.

(** [apply_constraint_polygon(const t_Polygon &)]. *)
Definition apply_constraint_polygon (this : Triangulation) (poly : t_Polygon)
  : result Triangulation :=
  if (length poly <? 3)%nat then
    Throw (invalid_argument "At least 3 points are required for a constraint polygon.")
  else
    Ok {| m_triangulation :=
            mark_domain_status (insert_constraint (m_triangulation this) poly) |}.

(** [apply_constraint_polygon(const std::vector<t_Point> &)]. *)
Definition apply_constraint_polygon_points (this : Triangulation)
    (region : list t_Point) : result Triangulation :=
  let polygon : t_Polygon := region in
  apply_constraint_polygon this polygon.

(** [apply_constraint_polygon(region_x, region_y)]. *)
Definition apply_constraint_polygon_xy (this : Triangulation)
    (region_x region_y : list T) : result Triangulation :=
  if negb (length region_x =? length region_y)%nat then
    Throw (invalid_argument "The number of x and y coordinates must be the same.")
  else
    let region :=
      map (fun pt_idx =>
             {| x := nth (Z.to_nat pt_idx) region_x (of_Z 0);
                y := nth (Z.to_nat pt_idx) region_y (of_Z 0) |})
          (iota 0 (static_cast_unsigned (length region_x))) in
    apply_constraint_polygon_points this region.

Record t_LookupHint : Type := { face : option t_Face; has_hint : bool }.

Definition t_LookupHint_default : t_LookupHint :=
  {| face := None; has_hint := false |}.

Definition is_hit (locate_type : Locate_type) : bool :=
  match locate_type with
  | FACE | EDGE | VERTEX => true
  | _ => false
  end.

(** [get_interpolation_weight(point, hint)]: the weight and the hint as
    the call leaves it. *)
Definition get_interpolation_weight_hint (this : Triangulation)
    (point_ : t_Point) (hint : t_LookupHint)
  : InterpolationWeight T * t_LookupHint :=
  let '(locate_type, face_handle) :=
    if has_hint hint
    then locate (m_triangulation this) point_ (face hint)
    else locate (m_triangulation this) point_ None in
  if is_hit locate_type then
    let hint' := {| face := Some face_handle; has_hint := true |} in
    let vertices_ := (info (vertex face_handle 0),
                      info (vertex face_handle 1),
                      info (vertex face_handle 2)) in
    let px0 := x (point (vertex face_handle 0)) in
    let py0 := y (point (vertex face_handle 0)) in
    let px1 := x (point (vertex face_handle 1)) in
    let py1 := y (point (vertex face_handle 1)) in
    let px2 := x (point (vertex face_handle 2)) in
    let py2 := y (point (vertex face_handle 2)) in
    let v0x := px2 - px0 in
    let v0y := py2 - py0 in
    let v1x := px1 - px0 in
    let v1y := py1 - py0 in
    let v2x := x point_ - px0 in
    let v2y := y point_ - py0 in
    let dot00 := (v0x * v0x) + (v0y * v0y) in
    let dot01 := (v0x * v1x) + (v0y * v1y) in
    let dot02 := (v0x * v2x) + (v0y * v2y) in
    let dot11 := (v1x * v1x) + (v1y * v1y) in
    let dot12 := (v1x * v2x) + (v1y * v2y) in
    let inv_denom := of_Z 1 / (dot00 * dot11 - dot01 * dot01) in
    let bary_u := (dot11 * dot02 - dot01 * dot12) * inv_denom in
    let bary_v := (dot00 * dot12 - dot01 * dot02) * inv_denom in
    let bary_w := of_Z 1 - bary_u - bary_v in
    (InterpolationWeight_make vertices_ (bary_w, bary_v, bary_u), hint')
  else (InterpolationWeight_default, hint).

(** [get_interpolation_weight(point)]. *)
Definition get_interpolation_weight (this : Triangulation) (point_ : t_Point)
  : InterpolationWeight T :=
  let hint := t_LookupHint_default in
  fst (get_interpolation_weight_hint this point_ hint).

(** [get_interpolation_weight(pt_x, pt_y)]. *)
Definition get_interpolation_weight_xy (this : Triangulation) (pt_x pt_y : T)
  : InterpolationWeight T :=
  get_interpolation_weight this {| x := pt_x; y := pt_y |}.

Fixpoint get_interpolation_weights_from (this : Triangulation)
    (points : list t_Point) (hint : t_LookupHint)
  : list (InterpolationWeight T) :=
  match points with
  | [] => []
  | this_pt :: rest =>
      let '(w, hint') := get_interpolation_weight_hint this this_pt hint in
      w :: get_interpolation_weights_from this rest hint'
  end.

(** [get_interpolation_weights(points)]: one hint threaded through the
    whole batch. *)
Definition get_interpolation_weights (this : Triangulation) (points : list t_Point)
  : list (InterpolationWeight T) :=
  get_interpolation_weights_from this points t_LookupHint_default.

Definition get_interpolation_weights_xy (this : Triangulation)
    (points_x points_y : list T) : result (list (InterpolationWeight T)) :=
  if negb (length points_x =? length points_y)%nat then
    Throw (invalid_argument "The number of x and y coordinates must be the same.")
  else
    Ok (get_interpolation_weights_from this
          (map (fun pt_idx =>
                  {| x := nth (Z.to_nat pt_idx) points_x (of_Z 0);
                     y := nth (Z.to_nat pt_idx) points_y (of_Z 0) |})
               (iota 0 (static_cast_unsigned (length points_x))))
          t_LookupHint_default).

Definition t_Triangle : Type := array3 unsigned.

Definition get_triangles (this : Triangulation) : list t_Triangle :=
  flat_map
    (fun fit =>
       if is_in_domain (finfo fit)
       then [(info (vertex fit 0), info (vertex fit 1), info (vertex fit 2))]
       else [])
    (finite_faces (m_triangulation this)).

(** [get_vertices]: [None] when a write [vertices[vit->info()]] falls
    outside the vector. *)
Definition get_vertices (this : Triangulation) : option (list t_Point) :=
  let num_vertices := length (finite_vertices (m_triangulation this)) in
  let vertices_ := repeat origin num_vertices in
  fold_left
    (fun acc vit =>
       vs <- acc ;;
       vec_set vs (info vit) {| x := x (point vit); y := y (point vit) |})
    (finite_vertices (m_triangulation this)) (Some vertices_).

End CGAL.
Arguments t_Point T : clear implicits.
Arguments t_Vertex T : clear implicits.
Arguments t_Face T : clear implicits.
Arguments t_CDT T : clear implicits.
Arguments t_Polygon T : clear implicits.
Arguments Triangulation T : clear implicits.
Arguments t_LookupHint T : clear implicits.
Arguments CGAL T : clear implicits.

End FastTri.

Module MetBuild.

Section Grib.
Context {T : Type} {scalar : Scalar T}.
Local Open Scope scalar_scope.

Record Point : Type := { px : T; py : T }.

(** What the decoder hands over for one message: the keys [Ni], [Nj],
    the size of [values], and the coordinate arrays. *)
Record codes_handle : Type := {
  h_Ni : Z;
  h_Nj : Z;
  h_size : nat;
  h_latitudes : list T;
  h_longitudes : list T
}.

Record Grib : Type := {
  m_ni : Z;
  m_nj : Z;
  m_size : nat;
  m_convention : Z;
  m_latitude : list T;
  m_longitude : list T;
  m_corners : list Point
}.

(** The member initialisers of the constructor. *)
Definition Grib_members : Grib :=
  {| m_ni := 0; m_nj := 0; m_size := 0; m_convention := 0;
     m_latitude := []; m_longitude := []; m_corners := [] |}.

(** [v.resize(n)] on a vector of doubles. *)
Definition resize (v : list T) (n : nat) : list T :=
  firstn n v ++ repeat (of_Z 0) (n - length v).

(** [codes_get_double_array(handle, key, v.data(), &s)] into a vector
    already resized to [s]. *)
Definition codes_get_double_array (decoded : list T) (v : list T) : list T :=
  firstn (length v) decoded ++ skipn (length decoded) v.

(** The body of the loop over [m_longitude]. *)
Definition wrap_longitude (v : T) : T :=
  fmod (v + of_Z 180) (of_Z 360) - of_Z 180.

Definition readCoordinates (this : Grib) (handle : codes_handle) : Grib :=
  let this1 :=
    match m_latitude this with
    | [] =>
        {| m_ni := m_ni this; m_nj := m_nj this; m_size := m_size this;
           m_convention := m_convention this;
           m_latitude :=
             codes_get_double_array (h_latitudes handle)
               (resize (m_latitude this) (m_size this));
           m_longitude := m_longitude this;
           m_corners := m_corners this |}
    | _ :: _ => this
    end in
  match m_longitude this1 with
  | [] =>
      let lon :=
        codes_get_double_array (h_longitudes handle)
          (resize (m_longitude this1) (m_size this1)) in
      {| m_ni := m_ni this1; m_nj := m_nj this1; m_size := m_size this1;
         m_convention := m_convention this1;
         m_latitude := m_latitude this1;
         m_longitude :=
           if (m_convention this1 =? 0)%Z then map wrap_longitude lon else lon;
         m_corners := m_corners this1 |}
  | _ :: _ => this1
  end.

(** [std::min_element] / [std::max_element] over a range, as the offset
    of the selected iterator from [first]; on an empty range that is
    [last] itself, offset 0. *)
Fixpoint min_element_loop (smallest : nat * T) (pos : nat) (l : list T) : nat :=
  match l with
  | [] => fst smallest
  | a :: l' =>
      min_element_loop (if a <? snd smallest then (pos, a) else smallest) (S pos) l'
  end.

Definition min_element (range : list T) : nat :=
  match range with
  | [] => 0
  | a :: l => min_element_loop (0%nat, a) 1 l
  end.

Fixpoint max_element_loop (largest : nat * T) (pos : nat) (l : list T) : nat :=
  match l with
  | [] => fst largest
  | a :: l' =>
      max_element_loop (if snd largest <? a then (pos, a) else largest) (S pos) l'
  end.

Definition max_element (range : list T) : nat :=
  match range with
  | [] => 0
  | a :: l => max_element_loop (0%nat, a) 1 l
  end.

(** The iterator range [[v.begin() + first, v.begin() + last)]; [None]
    when it is not a range of [v]. *)
Definition range (v : list T) (first last : Z) : option (list T) :=
  if ((0 <=? first) && (first <=? last) && (last <=? Z.of_nat (length v)))%Z
  then Some (firstn (Z.to_nat (last - first)) (skipn (Z.to_nat first) v))
  else None.

(** [*(std::min_element(v.begin() + first, v.begin() + last))]. *)
Definition deref_min (v : list T) (first last : Z) : option T :=
  r <- range v first last ;;
  nth_error v (Z.to_nat first + min_element r).

Definition deref_max (v : list T) (first last : Z) : option T :=
  r <- range v first last ;;
  nth_error v (Z.to_nat first + max_element r).

(** [findCorners]: the corner list, [None] on an out-of-range access. *)
Definition findCorners (this : Grib) : option (list Point) :=
  let lon := m_longitude this in
  let lat := m_latitude this in
  let lon_end := Z.of_nat (length lon) in
  let lat_end := Z.of_nat (length lat) in
  xtl <- deref_min lon 0 (0 + m_ni this - 1) ;;
  xtr <- deref_max lon 0 (0 + m_ni this - 1) ;;
  xll <- deref_min lon (lon_end - m_ni this) lon_end ;;
  xlr <- deref_max lon (lon_end - m_ni this) lon_end ;;
  ytl <- deref_min lat 0 (0 + m_ni this - 1) ;;
  ytr <- deref_max lat 0 (0 + m_ni this - 1) ;;
  yll <- deref_min lat (lat_end - m_ni this) lat_end ;;
  ylr <- deref_max lat (lat_end - m_ni this) lat_end ;;
  Some [ {| px := xll; py := yll |}; {| px := xlr; py := ylr |};
         {| px := xtr; py := ytr |}; {| px := xtl; py := ytl |} ].

(** [initialize], for the message [handle] that [make_handle] selects:
    dimensions, coordinates, corners.  (The k-d tree member is built from
    the two coordinate arrays and is not part of this record.) *)
Definition initialize (this : Grib) (handle : codes_handle) : option Grib :=
  let this1 :=
    {| m_ni := h_Ni handle; m_nj := h_Nj handle; m_size := h_size handle;
       m_convention := m_convention this;
       m_latitude := m_latitude this; m_longitude := m_longitude this;
       m_corners := m_corners this |} in
  let this2 := readCoordinates this1 handle in
  corners <- findCorners this2 ;;
  Some {| m_ni := m_ni this2; m_nj := m_nj this2; m_size := m_size this2;
          m_convention := m_convention this2;
          m_latitude := m_latitude this2; m_longitude := m_longitude this2;
          m_corners := corners |}.

(** The constructor. *)
Definition Grib_new (handle : codes_handle) : option Grib :=
  initialize Grib_members handle.

(** *** Two-dimensional views *)

(** A [long] argument passed for a [size_t] parameter. *)
Definition size_t_of_long (n : Z) : nat := Z.to_nat (n mod 2 ^ 64).

(** [arr2d[r][c] = a]. *)
Definition set2d (arr2d : list (list T)) (r c : nat) (a : T)
  : option (list (list T)) :=
  row <- nth_error arr2d r ;;
  row' <- list_set row c a ;;
  list_set arr2d r row'.

(** [mapTo2d]: [ni] rows of [nj] zeros, then [arr2d[i / nj][i % nj] = v[i]]
    for every [i]; [None] on a division by zero or a write outside
    [arr2d]. *)
Definition mapTo2d (v : list T) (ni nj : nat) : option (list (list T)) :=
  let arr2d := repeat (repeat (of_Z 0) nj) ni in
  fold_left
    (fun acc i =>
       arr2d <- acc ;;
       if (nj =? 0)%nat then None
       else
         a <- nth_error v i ;;
         set2d arr2d (i / nj) (i mod nj) a)
    (seq 0 (length v)) (Some arr2d).

Definition longitude2d (this : Grib) : option (list (list T)) :=
  mapTo2d (m_longitude this) (size_t_of_long (m_ni this)) (size_t_of_long (m_nj this)).

Definition latitude2d (this : Grib) : option (list (list T)) :=
  mapTo2d (m_latitude this) (size_t_of_long (m_ni this)) (size_t_of_long (m_nj this)).

(** [indexToPair]: the pair [(i, j)]; [None] on a division by zero. *)
Definition indexToPair (this : Grib) (index : nat) : option (nat * nat) :=
  let nj := size_t_of_long (m_nj this) in
  if (nj =? 0)%nat then None
  else
    let j := (index mod nj)%nat in
    let i := (index / nj)%nat in
    Some (i, j).

(** *** Messages of a file *)

(** [isalpha], [isdigit], [isalnum] of the C locale. *)
Definition isalpha (c : ascii) : bool :=
  let n := nat_of_ascii c in
  ((65 <=? n) && (n <=? 90) || (97 <=? n) && (n <=? 122))%nat.

Definition isdigit (c : ascii) : bool :=
  let n := nat_of_ascii c in ((48 <=? n) && (n <=? 57))%nat.

Definition isalnum (c : ascii) : bool := isalpha c || isdigit c.

Definition isnotalpha (c : ascii) : bool := negb (isalpha c) && negb (isalnum c).

(** [boost::trim_left_if], [boost::trim_right_if], [boost::trim_if]. *)
Fixpoint trim_left_if (IsSpace : ascii -> bool) (Input : list ascii) : list ascii :=
  match Input with
  | [] => []
  | c :: rest => if IsSpace c then trim_left_if IsSpace rest else Input
  end.

Definition trim_right_if (IsSpace : ascii -> bool) (Input : list ascii) : list ascii :=
  rev (trim_left_if IsSpace (rev Input)).

Definition trim_if (IsSpace : ascii -> bool) (Input : string) : string :=
  string_of_list_ascii
    (trim_left_if IsSpace (trim_right_if IsSpace (list_ascii_of_string Input))).

(** One message of a file, as the decoder presents it: the buffer that
    [codes_get_string] fills for [shortName], the array behind [values],
    and the keys that [initialize] reads. *)
Record grib_message : Type := {
  msg_shortName : string;
  msg_values : list T;
  msg_handle : codes_handle
}.

(** A call that returns, throws, or ends the process: [CODES_CHECK] on
    an error code prints the error and exits. *)
Inductive raised (A : Type) : Type :=
| Returns (a : A)
| Raises (what : string)
| Exits.
Arguments Returns {A} a.
Arguments Raises {A} what.
Arguments Exits {A}.

(** [make_handle], on the messages of the file in their order. *)
Fixpoint make_handle (file : list grib_message) (name : string)
  : raised grib_message :=
  match file with
  | [] => Raises "Could not generate the eccodes handle"
  | h :: rest =>
      let pname := trim_if isnotalpha (msg_shortName h) in
      if String.eqb pname name then Returns h else make_handle rest name
  end.

(** The constructor from a file: [initialize] on the message named
    [prmsl]. *)
Definition Grib_open (file : list grib_message) : raised (option Grib) :=
  match make_handle file "prmsl" with
  | Raises what => Raises what
  | Exits => Exits
  | Returns handle => Returns (initialize Grib_members (msg_handle handle))
  end.

(** *** The cache of value arrays *)

(** [std::map<std::string, size_t>]: [find] and [operator[]] followed by
    an assignment. *)
Definition t_map : Type := list (string * nat).

Fixpoint map_find (m : t_map) (name : string) : option nat :=
  match m with
  | [] => None
  | (k, second) :: m' => if String.eqb k name then Some second else map_find m' name
  end.

Fixpoint map_assign (m : t_map) (name : string) (second : nat) : t_map :=
  match m with
  | [] => [(name, second)]
  | (k, old) :: m' =>
      if String.eqb k name then (k, second) :: m'
      else (k, old) :: map_assign m' name second
  end.

(** A [Grib] with the members that [getGribArray1d] touches. *)
Record Grib_values : Type := {
  grib : Grib;
  m_preread_values : list (list T);
  m_preread_value_map : t_map
}.

(** [getGribArray1d]: the returned vector ([None] when the cached index
    is outside [m_preread_values]) and the object after the call.  The
    decoder is handed a buffer of [s = m_size] doubles; for a message with
    more values it reports that the array is too small, and [CODES_CHECK]
    ends the process. *)
Definition getGribArray1d (this : Grib_values) (file : list grib_message)
    (name : string) : raised (option (list T) * Grib_values) :=
  match map_find (m_preread_value_map this) name with
  | None =>
      let arr1d := repeat (of_Z 0) (m_size (grib this)) in
      let s := m_size (grib this) in
      match make_handle file name with
      | Raises what => Raises what
      | Exits => Exits
      | Returns handle =>
          if (s <? length (msg_values handle))%nat then Exits
          else
            let arr1d := codes_get_double_array (msg_values handle) arr1d in
            let values := m_preread_values this ++ [arr1d] in
            Returns
              (Some (last values arr1d),
               {| grib := grib this;
                  m_preread_values := values;
                  m_preread_value_map :=
                    map_assign (m_preread_value_map this) name (length values - 1) |})
      end
  | Some second => Returns (nth_error (m_preread_values this) second, this)
  end.

(** [getGribArray2d]. *)
Definition getGribArray2d (this : Grib_values) (file : list grib_message)
    (name : string) : raised (option (list (list T)) * Grib_values) :=
  match getGribArray1d this file name with
  | Raises what => Raises what
  | Exits => Exits
  | Returns (v, this') =>
      Returns (v <- v ;;
               mapTo2d v (size_t_of_long (m_ni (grib this')))
                         (size_t_of_long (m_nj (grib this'))),
               this')
  end.

End Grib.
Arguments Point T : clear implicits.
Arguments Grib T : clear implicits.
Arguments codes_handle T : clear implicits.
Arguments grib_message T : clear implicits.
Arguments Grib_values T : clear implicits.
Arguments Returns {A} a.
Arguments Raises {A} what.
Arguments Exits {A}.

(** *** Kdtree.h *)
Inductive _errors : Type := NoError | SizeMismatch.

(** The integral value of an enumerator. *)
Definition _errors_value (e : _errors) : Z :=
  match e with NoError => 0 | SizeMismatch => 1 end.

Section Kdtree.
Context {T : Type} {scalar : Scalar T}.

(** [PointCloud<double>::Point]. *)
Record CloudPoint : Type := { cx : T; cy : T }.

(** nanoflann: the index that [buildIndex] computes from the dimension,
    the data set and the leaf capacity. *)
Class Nanoflann : Type := {
  kd_index : Type;
  buildIndex : nat -> list CloudPoint -> nat -> kd_index
}.

Context {nanoflann : Nanoflann}.

(** [kd_tree_t]: the adaptor with its parameters and, once built, its
    index. *)
Record kd_tree_t : Type := {
  kd_dim : nat;
  kd_dataset : list CloudPoint;
  kd_leaf_max_size : nat;
  kd_root : option kd_index
}.

(** The members that [build] touches ([m_params], the constant search
    parameters, plays no part in it). *)
Record KdtreePrivate : Type := {
  m_initialized : bool;
  m_cloud : list CloudPoint;
  m_tree : option kd_tree_t
}.

Definition initialized (this : KdtreePrivate) : bool := m_initialized this.
Definition size (this : KdtreePrivate) : nat := length (m_cloud this).

Definition cloud_resize (pts : list CloudPoint) (n : nat) : list CloudPoint :=
  firstn n pts ++ repeat {| cx := of_Z 0; cy := of_Z 0 |} (n - length pts).

(** [pts[i] = f(pts[i])] for [i] inside the vector. *)
Fixpoint modify (pts : list CloudPoint) (i : nat) (f : CloudPoint -> CloudPoint)
  : list CloudPoint :=
  match pts, i with
  | [], _ => []
  | p :: pts', O => f p :: pts'
  | p :: pts', S i' => p :: modify pts' i' f
  end.

(** [build]: the returned code and the object after the call. *)
Definition build (this : KdtreePrivate) (xs ys : list T) : Z * KdtreePrivate :=
  if negb (length xs =? length ys)%nat then (1%Z, this)
  else
    let pts0 := cloud_resize (m_cloud this) (length xs) in
    let pts :=
      fold_left
        (fun pts i =>
           let pts1 := modify pts i (fun p => {| cx := nth i xs (of_Z 0); cy := cy p |}) in
           modify pts1 i (fun p => {| cx := cx p; cy := nth i ys (of_Z 0) |}))
        (seq 0 (length xs)) pts0 in
    let tree :=
      {| kd_dim := 2; kd_dataset := pts; kd_leaf_max_size := 10; kd_root := None |} in
    let tree :=
      {| kd_dim := kd_dim tree; kd_dataset := kd_dataset tree;
         kd_leaf_max_size := kd_leaf_max_size tree;
         kd_root := Some (buildIndex (kd_dim tree) (kd_dataset tree)
                            (kd_leaf_max_size tree)) |} in
    (0%Z, {| m_initialized := true; m_cloud := pts; m_tree := Some tree |}).

(** [KdtreePrivate()]. *)
Definition KdtreePrivate_default : KdtreePrivate :=
  {| m_initialized := false; m_cloud := []; m_tree := None |}.

(** [KdtreePrivate(x, y)]: the result of [build] is dropped. *)
Definition KdtreePrivate_new (xs ys : list T) : KdtreePrivate :=
  snd (build {| m_initialized := false; m_cloud := []; m_tree := None |} xs ys).

End Kdtree.
Arguments CloudPoint T : clear implicits.
Arguments Nanoflann T : clear implicits.

(** *** The queries of KdtreePrivate.cpp *)
Section Kdtree_queries.
Context {T : Type} {scalar : Scalar T} {nanoflann : Nanoflann T}.

(** [std::sqrt]. *)
Class Cmath : Type := { sqrt : T -> T }.

(** nanoflann's [findNeighbors] with a [KNNResultSet] initialised on two
    arrays of the capacity: what the index array and the distance array
    hold afterwards, and the number of neighbours stored. *)
Class Nanoflann_search : Type := {
  findNeighbors :
    kd_index -> T -> T -> list nat -> list T -> list nat * list T * nat;
  findNeighbors_length :
    forall root qx qy index dist,
      length (fst (fst (findNeighbors root qx qy index dist))) = length index /\
      length (snd (fst (findNeighbors root qx qy index dist))) = length dist
}.

Context {cmath : Cmath} {search : Nanoflann_search}.

(** [m_tree->findNeighbors(...)]: [None] for a null [m_tree] or an index
    that was never built. *)
Definition tree_findNeighbors (this : KdtreePrivate) (qx qy : T)
    (index : list nat) (dist : list T) : option (list nat * list T * nat) :=
  tree <- m_tree this ;;
  root <- kd_root tree ;;
  Some (findNeighbors root qx qy index dist).

(** [findNearest]: [index] and [out_dist_sqr] are declared without a
    value; they are rendered by 0, which is read only after the search has
    stored a neighbour, and the result is [None] when it stores none. *)
Definition findNearest (this : KdtreePrivate) (qx qy : T) : option nat :=
  r <- tree_findNeighbors this qx qy [0%nat] [of_Z 0] ;;
  let '(index, _, count) := r in
  if (count =? 0)%nat then None else nth_error index 0.

(** [findXNearest]. *)
Definition findXNearest (this : KdtreePrivate) (qx qy : T) (n : nat)
  : option (list (nat * T)) :=
  let n := Nat.min (size this) n in
  let index := repeat 0%nat n in
  let out_dist_sqr := repeat (of_Z 0) n in
  r <- tree_findNeighbors this qx qy index out_dist_sqr ;;
  let '(index, out_dist_sqr, _) := r in
  Some (map (fun i => (nth i index 0%nat, sqrt (nth i out_dist_sqr (of_Z 0))))
            (seq 0 n)).

End Kdtree_queries.
Arguments Cmath T : clear implicits.
Arguments Nanoflann_search T {nanoflann}.

(** *** WindData.cpp *)
Module WindData.
Section WindData.
Context {T : Type} {scalar : Scalar T}.

(** [WindData::background_pressure()], declared in the header. *)
Variable background_pressure : T.

Record WindData : Type := {
  m_ni : nat;
  m_nj : nat;
  m_u : list (list T);
  m_v : list (list T);
  m_p : list (list T)
}.

(** The constructor. *)
Definition WindData_new (ni nj : nat) : WindData :=
  {| m_ni := ni; m_nj := nj;
     m_u := repeat (repeat (of_Z 0) ni) nj;
     m_v := repeat (repeat (of_Z 0) ni) nj;
     m_p := repeat (repeat background_pressure ni) nj |}.

Definition u (this : WindData) : list (list T) := m_u this.
Definition v (this : WindData) : list (list T) := m_v this.
Definition p (this : WindData) : list (list T) := m_p this.

(** The setters: [None] when an assertion fails (or, were the assertions
    compiled out, when the write falls outside the matrix). *)
Definition setU (this : WindData) (i j : nat) (value : T) : option WindData :=
  if negb (i <? m_ni this)%nat then None
  else if negb (j <? m_nj this)%nat then None
  else
    m <- set2d (m_u this) j i value ;;
    Some {| m_ni := m_ni this; m_nj := m_nj this;
            m_u := m; m_v := m_v this; m_p := m_p this |}.

Definition setV (this : WindData) (i j : nat) (value : T) : option WindData :=
  if negb (i <? m_ni this)%nat then None
  else if negb (j <? m_nj this)%nat then None
  else
    m <- set2d (m_v this) j i value ;;
    Some {| m_ni := m_ni this; m_nj := m_nj this;
            m_u := m_u this; m_v := m; m_p := m_p this |}.

Definition setP (this : WindData) (i j : nat) (value : T) : option WindData :=
  if negb (i <? m_ni this)%nat then None
  else if negb (j <? m_nj this)%nat then None
  else
    m <- set2d (m_p this) j i value ;;
    Some {| m_ni := m_ni this; m_nj := m_nj this;
            m_u := m_u this; m_v := m_v this; m_p := m |}.

End WindData.
Arguments WindData T : clear implicits.
End WindData.

(** *** Meteorology.h *)
Module GriddedDataTypes.

(** The enumerators that [Meteorology.h] names; [TYPE_other] stands for
    any further value of the enumeration. *)
Inductive TYPE : Type :=
| WIND_PRESSURE | RAINFALL | HUMIDITY | TEMPERATURE | ICE
| TYPE_other (value : Z).

Inductive VARIABLES : Type :=
| VAR_PRESSURE | VAR_U10 | VAR_V10 | VAR_RAINFALL | VAR_HUMIDITY
| VAR_TEMPERATURE | VAR_ICE.

End GriddedDataTypes.

Module Meteorology.
Import GriddedDataTypes.

Definition typeLengthMap (type : TYPE) : unsigned :=
  match type with
  | RAINFALL | TEMPERATURE | HUMIDITY | ICE => 1%Z
  | WIND_PRESSURE => 3%Z
  | _ => 1%Z
  end.

Definition generate_variable_list (type : TYPE) : list VARIABLES :=
  match type with
  | WIND_PRESSURE => [VAR_PRESSURE; VAR_U10; VAR_V10]
  | RAINFALL => [VAR_RAINFALL]
  | HUMIDITY => [VAR_HUMIDITY]
  | TEMPERATURE => [VAR_TEMPERATURE]
  | ICE => [VAR_ICE]
  | _ => [VAR_PRESSURE]
  end.

End Meteorology.

End MetBuild.

(** ** Small instances of the library interfaces, to run the definitions *)
Module Instances.
Import FastTri.

Section Fan.
Context {T : Type} {scalar : Scalar T}.

(** The faces [(v0, v_i, v_i+1)] around the first vertex. *)
Fixpoint fan (v0 : t_Vertex T) (vs : list (t_Vertex T)) : list (array3 (t_Vertex T)) :=
  match vs with
  | v1 :: ((v2 :: _) as vs') => (v0, v1, v2) :: fan v0 vs'
  | _ => []
  end.

Definition fan_triangulate (vs : list (t_Vertex T)) : list (array3 (t_Vertex T)) :=
  match vs with
  | [] => []
  | v0 :: vs' => fan v0 vs'
  end.

Definition null_vertex : t_Vertex T := {| point := origin; info := 0%Z |}.
Definition null_face : t_Face T :=
  {| face_vertices := (null_vertex, null_vertex, null_vertex);
     finfo := FaceInfo2_default |}.

(** Point location that reports the first finite face, as a hit of kind
    [lt]; a miss when there is no finite face. *)
Definition first_face (lt : Locate_type) (t : t_CDT T) (_ : t_Point T)
    (_ : option (t_Face T)) : Locate_type * t_Face T :=
  match finite_faces t with
  | f :: _ => (lt, f)
  | [] => (OUTSIDE_AFFINE_HULL, null_face)
  end.

(** Input order, fan faces, every face in the domain. *)
Definition input_order (lt : Locate_type) : CGAL T :=
  {| spatial_sort := fun pts => seq 0 (length pts);
     spatial_sort_perm := fun pts => Permutation_refl _;
     triangulate := fan_triangulate;
     insert_constraint := fun t _ => t;
     in_domain_map := fun _ _ => Some true;
     locate := first_face lt |}.

(** As [input_order], the input visited last to first. *)
Definition reverse_order (lt : Locate_type) : CGAL T :=
  {| spatial_sort := fun pts => rev (seq 0 (length pts));
     spatial_sort_perm := fun pts => Permutation_sym (Permutation_rev _);
     triangulate := fan_triangulate;
     insert_constraint := fun t _ => t;
     in_domain_map := fun _ _ => Some true;
     locate := first_face lt |}.

(** Point location with a fixed answer. *)
Definition located (answer : Locate_type * t_Face T) : CGAL T :=
  {| spatial_sort := fun pts => seq 0 (length pts);
     spatial_sort_perm := fun pts => Permutation_refl _;
     triangulate := fan_triangulate;
     insert_constraint := fun t _ => t;
     in_domain_map := fun _ _ => None;
     locate := fun _ _ _ => answer |}.

End Fan.

#[export] Instance trivial_index {T} {scalar : Scalar T} : MetBuild.Nanoflann T :=
  {| MetBuild.kd_index := list (MetBuild.CloudPoint T);
     MetBuild.buildIndex := fun _ pts _ => pts |}.

Section Constraint_points.
Context {T : Type} {scalar : Scalar T}.




End Constraint_points.

Section Walk.
Context {T : Type} {scalar : Scalar T}.
Local Open Scope scalar_scope.

(** Twice the signed area of the triangle [a b c]. *)
Definition orientation (a b c : t_Point T) : T :=
  ((x b - x a) * (y c - y a)) - ((x c - x a) * (y b - y a)).

(** [p] lies in the closed face [f]: on one side of, or on, its three
    edges. *)
Definition in_face (f : t_Face T) (p : t_Point T) : bool :=
  let o0 := orientation (point (vertex f 0)) (point (vertex f 1)) p in
  let o1 := orientation (point (vertex f 1)) (point (vertex f 2)) p in
  let o2 := orientation (point (vertex f 2)) (point (vertex f 0)) p in
  (negb (o0 <? of_Z 0) && negb (o1 <? of_Z 0) && negb (o2 <? of_Z 0))
  || (negb (of_Z 0 <? o0) && negb (of_Z 0 <? o1) && negb (of_Z 0 <? o2)).

(** Two handles of the face with the same three vertex indices. *)
Definition same_face (f g : t_Face T) : bool :=
  (info (vertex f 0) =? info (vertex g 0))%Z
  && (info (vertex f 1) =? info (vertex g 1))%Z
  && (info (vertex f 2) =? info (vertex g 2))%Z.

(** Point location that depends on where it starts: the start face is
    tried first, then the finite faces in their order; the first face that
    contains the point is the answer.  A miss answers with the start
    face. *)
Definition walk_locate (t : t_CDT T) (p : t_Point T) (start : option (t_Face T))
  : Locate_type * t_Face T :=
  let first :=
    match start with
    | Some f => filter (same_face f) (finite_faces t)
    | None => []
    end in
  match find (fun g => in_face g p) (first ++ finite_faces t) with
  | Some g => (FACE, g)
  | None => (OUTSIDE_CONVEX_HULL,
             match start with Some f => f | None => null_face end)
  end.

(** As [input_order], with [walk_locate]. *)
Definition walk : CGAL T :=
  {| spatial_sort := fun pts => seq 0 (length pts);
     spatial_sort_perm := fun pts => Permutation_refl _;
     triangulate := fan_triangulate;
     insert_constraint := fun t _ => t;
     in_domain_map := fun _ _ => Some true;
     locate := walk_locate |}.

End Walk.

(** [std::sqrt] on doubles. *)
#[export] Instance Cmath_double : MetBuild.Cmath float :=
  {| MetBuild.sqrt := PrimFloat.sqrt |}.

Section Brute_force.
Context {T : Type} {scalar : Scalar T}.
Local Open Scope scalar_scope.

Definition dist_sqr (qx qy : T) (p : MetBuild.CloudPoint T) : T :=
  ((MetBuild.cx p - qx) * (MetBuild.cx p - qx))
  + ((MetBuild.cy p - qy) * (MetBuild.cy p - qy)).

Fixpoint insert_by_dist (e : nat * T) (l : list (nat * T)) : list (nat * T) :=
  match l with
  | [] => [e]
  | e' :: l' => if snd e' <? snd e then e' :: insert_by_dist e l' else e :: l
  end.

(** Every point with its squared distance to the query, nearest first. *)
Definition nearest_first (qx qy : T) (pts : list (MetBuild.CloudPoint T))
  : list (nat * T) :=
  fold_right insert_by_dist []
    (combine (seq 0 (length pts)) (map (dist_sqr qx qy) pts)).

End Brute_force.

(** The arrays of a result set after an exhaustive search: the neighbours
    found overwrite a prefix. *)
Definition exhaustive_findNeighbors {T} {scalar : Scalar T}
    (pts : list (MetBuild.CloudPoint T)) (qx qy : T)
    (index : list nat) (dist : list T) : list nat * list T * nat :=
  let found := firstn (Nat.min (length index) (length dist)) (nearest_first qx qy pts) in
  (map fst found ++ skipn (length found) index,
   map snd found ++ skipn (length found) dist,
   length found).

Definition exhaustive_findNeighbors_length {T} {scalar : Scalar T}
    (pts : list (MetBuild.CloudPoint T)) (qx qy : T)
    (index : list nat) (dist : list T) :
  length (fst (fst (exhaustive_findNeighbors pts qx qy index dist))) = length index /\
  length (snd (fst (exhaustive_findNeighbors pts qx qy index dist))) = length dist.
Proof.
  unfold exhaustive_findNeighbors. cbn [fst snd].
  rewrite !length_app, !length_map, !length_skipn, !length_firstn. lia.
Qed.

(** Exhaustive search over the points of [trivial_index]. *)
#[export] Instance exhaustive_search {T} {scalar : Scalar T}
  : MetBuild.Nanoflann_search T (nanoflann := trivial_index) :=
  {| MetBuild.findNeighbors := exhaustive_findNeighbors;
     MetBuild.findNeighbors_length := exhaustive_findNeighbors_length |}.

End Instances.

(** ** The barycentric formula, as the specification words it

    For a hit face with vertices [V0], [V1], [V2] and a query point [p]:
    [a = V2 - V0], [b = V1 - V0], [c = p - V0]; the five dot products; the
    inverse of the Gram determinant; [u], [v], [w]; and the returned weight
    triple [(w, v, u)]. *)
Module Spec.
Import FastTri.

Section Barycentric.
Context {T : Type} {scalar : Scalar T}.
Local Open Scope scalar_scope.

Definition vec : Type := (T * T)%type.
Definition vsub (p q : t_Point T) : vec := (x p - x q, y p - y q).
Definition dot (a b : vec) : T := (fst a * fst b) + (snd a * snd b).

Definition barycentric (V0 V1 V2 p : t_Point T) : array3 T :=
  let a := vsub V2 V0 in
  let b := vsub V1 V0 in
  let c := vsub p V0 in
  let d00 := dot a a in
  let d01 := dot a b in
  let d02 := dot a c in
  let d11 := dot b b in
  let d12 := dot b c in
  let inv := of_Z 1 / (d00 * d11 - d01 * d01) in
  let u := (d11 * d02 - d01 * d12) * inv in
  let v := (d00 * d12 - d01 * d02) * inv in
  let w := of_Z 1 - u - v in
  (w, v, u).

(** An affine function of the plane. *)
Definition affine (a b c : T) (p : t_Point T) : T := a * x p + b * y p + c.

End Barycentric.
End Spec.

(** ** Vocabulary of the statements *)

Import FastTri.

Section Vocabulary.
Context {T : Type} {scalar : Scalar T} {cgal : CGAL T}.

(** The face that a call with this hint asks [locate] for. *)
Definition located_by (this : Triangulation T) (p : t_Point T) (hint : t_LookupHint T)
  : Locate_type * t_Face T :=
  locate (m_triangulation this) p (if has_hint hint then face hint else None).

Definition triple_of (f : t_Face T) : t_Triangle :=
  (info (vertex f 0), info (vertex f 1), info (vertex f 2)).

(** The faces that the property map marks [true], by position. *)
Definition marked_faces (c : t_CDT T) : list (t_Face T) :=
  map snd
    (filter (fun kf => match in_domain_map c (fst kf) with
                       | Some true => true
                       | _ => false
                       end)
            (combine (seq 0 (length (finite_faces c))) (finite_faces c))).

(** The points that [construct_points] builds from equally long vectors. *)
Definition input_points (xs ys : list T) : list (t_Point T) :=
  map (fun xy => {| x := fst xy; y := snd xy |}) (combine xs ys).


(** Some point occurs at two places of the input (and compares equal to
    itself: its coordinates are not NaN). *)
Definition has_duplicate (pts : list (t_Point T)) : Prop :=
  exists i j p,
    i <> j /\ nth_error pts i = Some p /\ nth_error pts j = Some p /\
    point_eqb p p = true.

(** The write [vertices[info]] of [get_vertices] is inside a vector of
    [n] elements. *)
Definition in_bounds (n : nat) (v : t_Vertex T) : Prop :=
  (0 <= info v < Z.of_nat n)%Z.


(** The vertices after the range insertion, as a function of the visiting
    order. *)
Definition inserted (pts : list (t_Point T)) (order : list nat) (vs : list (t_Vertex T))
  : list (t_Vertex T) :=
  fold_left (fun vs k => insert_point vs (nth k pts origin) (Z.of_nat k)) order vs.

(** The loop of [get_vertices] over a vertex list, from a vector [acc]. *)
Definition write_all (vsx : list (t_Vertex T)) (acc : option (list (t_Point T)))
  : option (list (t_Point T)) :=
  fold_left
    (fun acc vit =>
       vs <- acc ;;
       vec_set vs (info vit) {| x := x (point vit); y := y (point vit) |})
    vsx acc.

(** Some vertex sits at a point that compares equal to [p]. *)
Definition present (vs : list (t_Vertex T)) (p : t_Point T) : Prop :=
  exists v, In v vs /\ point_eqb (point v) p = true.

End Vocabulary.

Section Vocabulary_kdtree.
Import MetBuild.
Context {T : Type} {scalar : Scalar T}.

(** The packed copy: point [i] is [(x[i], y[i])]. *)
Definition packed (xs ys : list T) : list (CloudPoint T) :=
  map (fun xy => {| cx := fst xy; cy := snd xy |}) (combine xs ys).

End Vocabulary_kdtree.

Section Vocabulary_grib.
Import MetBuild.
Context {T : Type} {scalar : Scalar T}.
Local Open Scope scalar_scope.

(** The first [Ni] and the last [Ni] elements of a coordinate array. *)
Definition first_row (this : Grib T) (v : list T) : list T :=
  firstn (Z.to_nat (m_ni this)) v.

Definition last_row (this : Grib T) (v : list T) : list T :=
  skipn (length v - Z.to_nat (m_ni this)) v.

(** [m] is an element of [l] that no element of [l] is below (above). *)
Definition is_minimum (m : T) (l : list T) : Prop :=
  In m l /\ forall a, In a l -> (a <? m) = false.

Definition is_maximum (m : T) (l : list T) : Prop :=
  In m l /\ forall a, In a l -> (m <? a) = false.

(** The value [std::min_element] ([std::max_element]) selects in a
    non-empty list. *)
Definition minimum (l : list T) : option T := nth_error l (min_element l).
Definition maximum (l : list T) : option T := nth_error l (max_element l).

(** The corners as the specification words them: minima and maxima of the
    first [Ni] and of the last [Ni] longitudes and latitudes. *)
Definition spec_corners (this : Grib T) : option (list (Point T)) :=
  let lon := m_longitude this in
  let lat := m_latitude this in
  xtl <- minimum (first_row this lon) ;;
  xtr <- maximum (first_row this lon) ;;
  xll <- minimum (last_row this lon) ;;
  xlr <- maximum (last_row this lon) ;;
  ytl <- minimum (first_row this lat) ;;
  ytr <- maximum (first_row this lat) ;;
  yll <- minimum (last_row this lat) ;;
  ylr <- maximum (last_row this lat) ;;
  Some [ {| px := xll; py := yll |}; {| px := xlr; py := ylr |};
         {| px := xtr; py := ytr |}; {| px := xtl; py := ytl |} ].

(** Twice the signed area of a closed polygon (shoelace formula); it is
    positive for a counter-clockwise polygon. *)
Fixpoint shoelace (first : Point T) (ps : list (Point T)) : T :=
  match ps with
  | [] => of_Z 0
  | p :: ps' =>
      let q := match ps' with [] => first | q :: _ => q end in
      (px p * py q - px q * py p) + shoelace first ps'
  end.

Definition signed_area2 (ps : list (Point T)) : T :=
  match ps with
  | [] => of_Z 0
  | p :: _ => shoelace p ps
  end.

Definition counter_clockwise (ps : list (Point T)) : bool :=
  of_Z 0 <? signed_area2 ps.

End Vocabulary_grib.

Section Vocabulary_exact.
Local Open Scope Q_scope.

(** Twice the signed area of the triangle [V0 V1 V2]. *)
Definition cross (V0 V1 V2 : t_Point Q) : Q :=
  (x V1 - x V0) * (y V2 - y V0) - (x V2 - x V0) * (y V1 - y V0).

End Vocabulary_exact.

Definition weights_sum_within (tol : float) (w : InterpolationWeight float) : bool :=
  (Double.fabs (at3 (weights w) 0 + at3 (weights w) 1 + at3 (weights w) 2 - 1) <? tol)%float.

Definition within (tol r expected : float) : bool :=
  (Double.fabs (r - expected) <? tol)%float.

(** Twice the signed area, in binary64. *)
Definition orient2d (V0 V1 V2 : t_Point float) : float :=
  ((x V1 - x V0) * (y V2 - y V0) - (x V2 - x V0) * (y V1 - y V0))%float.

Definition face_of (V0 V1 V2 : t_Point float) : t_Face float :=
  {| face_vertices := ({| point := V0; info := 0%Z |},
                       {| point := V1; info := 1%Z |},
                       {| point := V2; info := 2%Z |});
     finfo := FaceInfo2_default |}.

(** The weight for [p] when [locate] answers FACE in the face [V0 V1 V2]. *)
Definition weight_in_face (V0 V1 V2 p : t_Point float) : InterpolationWeight float :=
  get_interpolation_weight (cgal := Instances.located (FACE, face_of V0 V1 V2))
    {| m_triangulation := t_CDT_empty |} p.

(** ** Sample inputs *)

Section Samples.
Import MetBuild.

(** The triangle (0,0), (1,0), (0,1), in binary64 and over the rationals. *)
Definition unit_face : t_Face float :=
  {| face_vertices :=
       ({| point := {| x := 0; y := 0 |}; info := 0%Z |},
        {| point := {| x := 1; y := 0 |}; info := 1%Z |},
        {| point := {| x := 0; y := 1 |}; info := 2%Z |})%float;
     finfo := FaceInfo2_default |}.

Definition unit_triangulation : Triangulation float :=
  {| m_triangulation :=
       {| finite_vertices := [vertex unit_face 0; vertex unit_face 1; vertex unit_face 2];
          finite_faces := [unit_face] |} |}.

Definition unit_face_Q : t_Face Q :=
  {| face_vertices :=
       ({| point := {| x := 0; y := 0 |}; info := 0%Z |},
        {| point := {| x := 1; y := 0 |}; info := 1%Z |},
        {| point := {| x := 0; y := 1 |}; info := 2%Z |})%Q;
     finfo := FaceInfo2_default |}.

Definition unit_triangulation_Q : Triangulation Q :=
  {| m_triangulation :=
       {| finite_vertices :=
            [vertex unit_face_Q 0; vertex unit_face_Q 1; vertex unit_face_Q 2];
          finite_faces := [unit_face_Q] |} |}.

Local Open Scope float_scope.

(** A regular 3 x 2 grid whose first row is the southern one. *)
Definition south_first : codes_handle float :=
  {| h_Ni := 3; h_Nj := 2; h_size := 6;
     h_latitudes := [0; 0; 0; 1; 1; 1];
     h_longitudes := [0; 1; 2; 0; 1; 2] |}.

(** The same grid with the northern row first. *)
Definition north_first : codes_handle float :=
  {| h_Ni := 3; h_Nj := 2; h_size := 6;
     h_latitudes := [1; 1; 1; 0; 0; 0];
     h_longitudes := [0; 1; 2; 0; 1; 2] |}.

End Samples.

(** ** Vocabulary of the further statements *)

(** Cell [(r, c)] of a matrix. *)
Definition cell {A} (m : list (list A)) (r c : nat) : option A :=
  row <- nth_error m r ;; nth_error row c.

(** A matrix of [rows] rows of [cols] elements each. *)
Definition has_shape {A} (m : list (list A)) (rows cols : nat) : Prop :=
  length m = rows /\ Forall (fun row => length row = cols) m.

Section Vocabulary_messages.
Import MetBuild.
Context {T : Type} {scalar : Scalar T}.

(** The short name of a message as [make_handle] compares it. *)
Definition trimmed_name (h : grib_message T) : string :=
  trim_if isnotalpha (msg_shortName h).

(** A string that is empty, or begins and ends with a letter or a digit. *)
Definition alnum_ends (s : list ascii) : Prop :=
  match s with
  | [] => True
  | c :: _ => isalnum c = true /\ isalnum (last s c) = true
  end.

(** Characters that [isnotalpha] trims. *)
Definition padding (s : list ascii) : Prop :=
  Forall (fun c => isalnum c = false) s.

(** Every index of the map designates a stored array. *)
Definition cache_ok (this : Grib_values T) : Prop :=
  forall name second,
    map_find (m_preread_value_map this) name = Some second ->
    second < length (m_preread_values this).

(** The array [arr] is stored under [name]. *)
Definition cached (this : Grib_values T) (name : string) (arr : list T) : Prop :=
  exists second,
    map_find (m_preread_value_map this) name = Some second /\
    nth_error (m_preread_values this) second = Some arr.

End Vocabulary_messages.

Section Vocabulary_wind.
Import MetBuild.WindData.
Context {T : Type} {scalar : Scalar T}.

(** The three matrices have [m_nj] rows of [m_ni] elements. *)
Definition well_formed (this : WindData T) : Prop :=
  has_shape (m_u this) (m_nj this) (m_ni this) /\
  has_shape (m_v this) (m_nj this) (m_ni this) /\
  has_shape (m_p this) (m_nj this) (m_ni this).

(** What a setter of the matrix [get] does with [(i, j, value)]: it
    fails exactly outside the dimensions, and otherwise changes the one
    cell [get[j][i]]. *)
Definition writes_cell (get : WindData T -> list (list T)) (this : WindData T)
    (i j : nat) (value : T) (r : option (WindData T)) : Prop :=
  match r with
  | Some this' =>
      i < m_ni this /\ j < m_nj this /\
      well_formed this' /\ m_ni this' = m_ni this /\ m_nj this' = m_nj this /\
      cell (get this') j i = Some value /\
      forall i' j', (i', j') <> (i, j) -> cell (get this') j' i' = cell (get this) j' i'
  | None => m_ni this <= i \/ m_nj this <= j
  end.

End Vocabulary_wind.

Section Vocabulary_exact_geometry.
Local Open Scope Q_scope.

(** [p] lies in the closed triangle [V0 V1 V2]: on the side of every edge
    where the opposite vertex lies, or on the edge. *)
Definition inside_or_on (V0 V1 V2 p : t_Point Q) : Prop :=
  0 <= cross p V1 V2 * cross V0 V1 V2 /\
  0 <= cross V0 p V2 * cross V0 V1 V2 /\
  0 <= cross V0 V1 p * cross V0 V1 V2.

(** Two points with equal coordinates. *)
Definition same_point (p q : t_Point Q) : Prop :=
  x p == x q /\ y p == y q.

End Vocabulary_exact_geometry.

(** ** Further sample inputs *)

Section More_samples.
Import MetBuild.
Local Open Scope float_scope.

(** The 3 x 2 grid of [south_first], loaded. *)
Definition south_first_grid : Grib float :=
  {| m_ni := 3; m_nj := 2; m_size := 6; m_convention := 0;
     m_latitude := [0; 0; 0; 1; 1; 1];
     m_longitude := [0; 1; 2; 0; 1; 2];
     m_corners := [] |}.

(** The same grid before its coordinates are read. *)
Definition south_first_unread : Grib float :=
  {| m_ni := 3; m_nj := 2; m_size := 6; m_convention := 0;
     m_latitude := []; m_longitude := []; m_corners := [] |}.

(** The character with code 0, which ends the buffer of a short name. *)
Definition NUL : ascii := ascii_of_nat 0.

(** A file of three messages: pressure, the eastward wind, and a
    precipitation record of seven values. *)
Definition sample_file : list (grib_message float) :=
  [ {| msg_shortName := String "p" (String "r" (String "m" (String "s"
                          (String "l" (String NUL EmptyString)))));
       msg_values := [1010; 1011; 1012; 1013; 1014; 1015];
       msg_handle := south_first |};
    {| msg_shortName := String "1" (String "0" (String "u" (String NUL EmptyString)));
       msg_values := [1; 2; 3; 4; 5; 6];
       msg_handle := south_first |};
    {| msg_shortName := String "t" (String "p" (String NUL EmptyString));
       msg_values := [0; 0; 0; 0; 0; 0; 0];
       msg_handle := south_first |} ].

(** A grid with nothing cached. *)
Definition nothing_cached : Grib_values float :=
  {| grib := south_first_grid; m_preread_values := []; m_preread_value_map := [] |}.

End More_samples.

Section Vocabulary_batch.
Context {T : Type} {scalar : Scalar T} {cgal : CGAL T}.

(** Point location at [q] has one answer: from every start face it hits
    or misses as the search without a start face does, and on a hit it
    reports the same face. *)
Definition start_independent (this : Triangulation T) (q : t_Point T) : Prop :=
  forall start,
    is_hit (fst (locate (m_triangulation this) q start))
    = is_hit (fst (locate (m_triangulation this) q None)) /\
    (is_hit (fst (locate (m_triangulation this) q None)) = true ->
     snd (locate (m_triangulation this) q start)
     = snd (locate (m_triangulation this) q None)).

End Vocabulary_batch.

(** The unit square, split along the diagonal from (0,0) to (1,1). *)
Definition square_lower : t_Face float :=
  {| face_vertices :=
       ({| point := {| x := 0; y := 0 |}; info := 0%Z |},
        {| point := {| x := 1; y := 0 |}; info := 1%Z |},
        {| point := {| x := 1; y := 1 |}; info := 2%Z |})%float;
     finfo := FaceInfo2_default |}.

Definition square_upper : t_Face float :=
  {| face_vertices :=
       ({| point := {| x := 0; y := 0 |}; info := 0%Z |},
        {| point := {| x := 1; y := 1 |}; info := 2%Z |},
        {| point := {| x := 0; y := 1 |}; info := 3%Z |})%float;
     finfo := FaceInfo2_default |}.

Definition unit_square : Triangulation float :=
  {| m_triangulation :=
       {| finite_vertices :=
            [vertex square_lower 0; vertex square_lower 1;
             vertex square_lower 2; vertex square_upper 2];
          finite_faces := [square_lower; square_upper] |} |}.
(** * Properties *)

Section WeightFacts.
Context {T : Type} {scalar : Scalar T} {cgal : CGAL T}.
Local Open Scope scalar_scope.

Lemma get_interpolation_weight_hint_unfold this p hint :
  get_interpolation_weight_hint this p hint =
  let '(locate_type, fh) := located_by this p hint in
  if is_hit locate_type then
    (InterpolationWeight_make
       (info (vertex fh 0), info (vertex fh 1), info (vertex fh 2))
       (Spec.barycentric (point (vertex fh 0)) (point (vertex fh 1))
          (point (vertex fh 2)) p),
     {| face := Some fh; has_hint := true |})
  else (InterpolationWeight_default, hint).
Proof.
  unfold get_interpolation_weight_hint, located_by.
  destruct (has_hint hint);
    match goal with |- context [locate ?t ?q ?h] => destruct (locate t q h) as [lt fh] end;
    destruct (is_hit lt); reflexivity.
Qed.

Lemma is_hit_iff lt : is_hit lt = true <-> lt = FACE \/ lt = EDGE \/ lt = VERTEX.
Proof.
  destruct lt; simpl; split; intros; auto; try discriminate;
    repeat match goal with H : _ \/ _ |- _ => destruct H end; discriminate.
Qed.

Lemma is_miss_iff lt :
  is_hit lt = false <-> lt = OUTSIDE_CONVEX_HULL \/ lt = OUTSIDE_AFFINE_HULL.
Proof.
  destruct lt; simpl; split; intros; auto; try discriminate;
    repeat match goal with H : _ \/ _ |- _ => destruct H end; discriminate.
Qed.

Lemma interpolate_length (ws : list (InterpolationWeight T)) values rs :
  interpolate ws values = Some rs -> length rs = length ws.
Proof.
  revert rs; induction ws as [|w ws IH]; simpl; intros rs E.
  - now inversion E.
  - destruct (interpolate_one values w); simpl in E; [|discriminate].
    destruct (interpolate ws values); simpl in E; [|discriminate].
    inversion E; subst; simpl. now rewrite (IH l).
Qed.

Lemma interpolate_nth (ws : list (InterpolationWeight T)) values rs k w :
  interpolate ws values = Some rs ->
  nth_error ws k = Some w ->
  exists r, nth_error rs k = Some r /\ interpolate_one values w = Some r.
Proof.
  revert rs k; induction ws as [|w0 ws IH]; simpl; intros rs k E Hk.
  - destruct k; discriminate.
  - destruct (interpolate_one values w0) as [r0|] eqn:E0; simpl in E; [|discriminate].
    destruct (interpolate ws values) as [rs'|] eqn:E1; simpl in E; [|discriminate].
    inversion E; subst; clear E.
    destruct k as [|k]; simpl in *.
    + inversion Hk; subst. eauto.
    + eapply IH; eauto.
Qed.

Lemma interpolate_total (ws : list (InterpolationWeight T)) values :
  (forall w, In w ws -> interpolate_one values w <> None) ->
  exists rs, interpolate ws values = Some rs.
Proof.
  induction ws as [|w ws IH]; simpl; intros Hall.
  - eauto.
  - destruct (interpolate_one values w) as [r|] eqn:E.
    + destruct IH as [rs Hrs]; [intros; apply Hall; auto|].
      rewrite Hrs; simpl; eauto.
    + exfalso. apply (Hall w); auto.
Qed.

Lemma interpolate_one_invalid values (w : InterpolationWeight T) :
  valid w = false -> interpolate_one values w = Some quiet_NaN.
Proof. unfold interpolate_one; intros ->; reflexivity. Qed.

Lemma interpolate_one_valid values (w : InterpolationWeight T) r :
  valid w = true ->
  interpolate_one values w = Some r <->
  exists x0 x1 x2,
    vec_at values (at3 (vertices w) 0) = Some x0 /\
    vec_at values (at3 (vertices w) 1) = Some x1 /\
    vec_at values (at3 (vertices w) 2) = Some x2 /\
    r = (at3 (weights w) 0 * x0) + (at3 (weights w) 1 * x1) + (at3 (weights w) 2 * x2).
Proof.
  unfold interpolate_one; intros ->; simpl.
  destruct (vec_at values (at3 (vertices w) 0)) as [x0|]; simpl.
  2:{ split; [discriminate|]. intros (?&?&?&?&_); discriminate. }
  destruct (vec_at values (at3 (vertices w) 1)) as [x1|]; simpl.
  2:{ split; [discriminate|]. intros (?&?&?&?&?&_); discriminate. }
  destruct (vec_at values (at3 (vertices w) 2)) as [x2|]; simpl.
  2:{ split; [discriminate|]. intros (?&?&?&?&?&?&_); discriminate. }
  split.
  - intros E; inversion E; subst. exists x0, x1, x2; auto.
  - intros (y0&y1&y2&E0&E1&E2&->). inversion E0; inversion E1; inversion E2; subst.
    reflexivity.
Qed.

Lemma get_interpolation_weight_hint_hit this p hint lt fh :
  located_by this p hint = (lt, fh) ->
  lt = FACE \/ lt = EDGE \/ lt = VERTEX ->
  get_interpolation_weight_hint this p hint =
    ({| vertices := (info (vertex fh 0), info (vertex fh 1), info (vertex fh 2));
        weights := Spec.barycentric (point (vertex fh 0)) (point (vertex fh 1))
                     (point (vertex fh 2)) p;
        valid := true |},
     {| face := Some fh; has_hint := true |}).
Proof.
  intros Hloc Hhit. rewrite get_interpolation_weight_hint_unfold, Hloc.
  apply is_hit_iff in Hhit. rewrite Hhit. reflexivity.
Qed.

Lemma interpolate_single (w : InterpolationWeight T) values x0 x1 x2 :
  valid w = true ->
  vec_at values (at3 (vertices w) 0) = Some x0 ->
  vec_at values (at3 (vertices w) 1) = Some x1 ->
  vec_at values (at3 (vertices w) 2) = Some x2 ->
  interpolate [w] values =
    Some [(at3 (weights w) 0 * x0) + (at3 (weights w) 1 * x1) + (at3 (weights w) 2 * x2)].
Proof.
  intros Hv E0 E1 E2. simpl. unfold interpolate_one. rewrite Hv, E0, E1, E2. reflexivity.
Qed.

End WeightFacts.

Section Claims_generic.
Context {T : Type} {scalar : Scalar T} {cgal : CGAL T}.
Local Open Scope scalar_scope.

(** C1.  A query point that [locate] reports as FACE, EDGE or VERTEX in a
    face with vertices V0, V1, V2 gets a valid weight whose vertex triple is
    [V0.idx, V1.idx, V2.idx] and whose weight triple is the [(w, v, u)] of
    the specification's dot-product formula; the hint then holds that face;
    and interpolation multiplies the first weight with the value at V0, the
    second with the value at V1, the third with the value at V2. *)
Theorem get_interpolation_weight_hit
    (this : Triangulation T) (p : t_Point T) (hint : t_LookupHint T)
    (lt : Locate_type) (fh : t_Face T) :
  located_by this p hint = (lt, fh) ->
  lt = FACE \/ lt = EDGE \/ lt = VERTEX ->
  let V0 := vertex fh 0 in
  let V1 := vertex fh 1 in
  let V2 := vertex fh 2 in
  let wvu := Spec.barycentric (point V0) (point V1) (point V2) p in
  let weight := fst (get_interpolation_weight_hint this p hint) in
  get_interpolation_weight_hint this p hint =
    ({| vertices := (info V0, info V1, info V2); weights := wvu; valid := true |},
     {| face := Some fh; has_hint := true |}) /\
  forall values x0 x1 x2,
    vec_at values (info V0) = Some x0 ->
    vec_at values (info V1) = Some x1 ->
    vec_at values (info V2) = Some x2 ->
    interpolate [weight] values =
      Some [(at3 wvu 0 * x0) + (at3 wvu 1 * x1) + (at3 wvu 2 * x2)].
Proof.
  intros Hloc Hhit V0 V1 V2 wvu weight.
  pose proof (get_interpolation_weight_hint_hit this p hint Hloc Hhit) as E.
  split; [exact E|].
  intros values x0 x1 x2 E0 E1 E2.
  subst weight. rewrite E. cbn [fst].
  apply interpolate_single; [reflexivity|exact E0|exact E1|exact E2].
Qed.

(** C6.  The constructor throws [std::invalid_argument] exactly when the
    coordinate vectors differ in length or hold fewer than three points;
    [apply_constraint_polygon] throws it exactly when the polygon has fewer
    than three vertices, and its coordinate-vector overload exactly when
    the lengths differ or the polygon built from them (one vertex per index
    below the [unsigned] count) has fewer than three vertices.  Every other
    input yields a triangulation. *)
Theorem invalid_argument_iff :
  (forall points_x points_y : list T,
      (exists what, Triangulation_new points_x points_y = Throw (invalid_argument what))
      <-> (length points_x <> length points_y \/ length points_x < 3)) /\
  (forall points_x points_y : list T,
      (exists t, Triangulation_new points_x points_y = Ok t)
      <-> ~ (length points_x <> length points_y \/ length points_x < 3)) /\
  (forall (this : Triangulation T) (poly : t_Polygon T),
      ((exists what, apply_constraint_polygon this poly = Throw (invalid_argument what))
       <-> length poly < 3) /\
      ((exists t, apply_constraint_polygon this poly = Ok t) <-> ~ length poly < 3)) /\
  (forall (this : Triangulation T) (region_x region_y : list T),
      ((exists what,
           apply_constraint_polygon_xy this region_x region_y
           = Throw (invalid_argument what))
       <-> (length region_x <> length region_y
            \/ (static_cast_unsigned (length region_x) < 3)%Z)) /\
      ((exists t, apply_constraint_polygon_xy this region_x region_y = Ok t)
       <-> ~ (length region_x <> length region_y
              \/ (static_cast_unsigned (length region_x) < 3)%Z))).
Proof.
  assert (Hpoly : forall (this : Triangulation T) (poly : t_Polygon T),
      ((exists what, apply_constraint_polygon this poly = Throw (invalid_argument what))
       <-> length poly < 3) /\
      ((exists t, apply_constraint_polygon this poly = Ok t) <-> ~ length poly < 3)).
  { intros this poly. unfold apply_constraint_polygon.
    destruct (Nat.ltb_spec (length poly) 3) as [Hlt|Hge].
    - split; split.
      + auto.
      + eauto.
      + intros [? ?]; discriminate.
      + lia.
    - split; split.
      + intros [? ?]; discriminate.
      + lia.
      + lia.
      + eauto. }
  assert (Hiota : forall n, length (iota 0 n) = Z.to_nat n).
  { intros n. unfold iota. rewrite length_map, length_seq. f_equal. lia. }
  split; [|split; [|split]].
  - intros xs ys. unfold Triangulation_new, construct_triangulation, construct_points.
    destruct (Nat.ltb_spec (length xs) 3) as [Hlt|Hge].
    + split; eauto.
    + destruct (Nat.eqb_spec (length xs) (length ys)) as [He|Hne]; simpl.
      * split; [intros [? ?]; discriminate|lia].
      * split; eauto.
  - intros xs ys. unfold Triangulation_new, construct_triangulation, construct_points.
    destruct (Nat.ltb_spec (length xs) 3) as [Hlt|Hge].
    + split; [intros [? ?]; discriminate|intros Hn; exfalso; apply Hn; auto].
    + destruct (Nat.eqb_spec (length xs) (length ys)) as [He|Hne]; simpl.
      * split; eauto. intros _; lia.
      * split; [intros [? ?]; discriminate|intros Hn; exfalso; apply Hn; auto].
  - exact Hpoly.
  - intros this rx ry. unfold apply_constraint_polygon_xy, apply_constraint_polygon_points.
    destruct (Nat.eqb_spec (length rx) (length ry)) as [He|Hne]; simpl.
    + match goal with |- context [apply_constraint_polygon this ?r] =>
        destruct (Hpoly this r) as [Ht Ho]; set (region := r) in * end.
      assert (Hlen : length region = Z.to_nat (static_cast_unsigned (length rx))).
      { subst region. rewrite length_map, Hiota. reflexivity. }
      assert (Hnn : (0 <= static_cast_unsigned (length rx))%Z).
      { unfold static_cast_unsigned. apply Z.mod_pos_bound. reflexivity. }
      rewrite Ht, Ho, Hlen. split; split; intros; lia.
    + split; split.
      * auto.
      * eauto.
      * intros [? ?]; discriminate.
      * intros Hn; exfalso; apply Hn; auto.
Qed.

End Claims_generic.

Lemma vec_at_in_range {A} (v : list A) (i : Z) :
  (0 <= i < Z.of_nat (length v))%Z -> exists a, vec_at v i = Some a.
Proof.
  intros [Hlo Hhi]. unfold vec_at.
  destruct (Z.ltb_spec i 0) as [Hneg|_]; [lia|].
  destruct (nth_error v (Z.to_nat i)) as [a|] eqn:E; [eauto|].
  apply nth_error_None in E. lia.
Qed.

(** ** binary64: the program as it runs *)
Section Claims_double.
Context {cgal : CGAL float}.
Local Open Scope float_scope.

(** C7.  A query point that [locate] reports OUTSIDE_CONVEX_HULL or
    OUTSIDE_AFFINE_HULL gets, as an ordinary return value, the weight with
    [valid = false], vertices [0,0,0] and weights [0,0,0], and the hint is
    left as it was.  Bulk interpolation returns one value per weight: NaN
    at the position of every invalid weight, and
    [w0*values[v0] + w1*values[v1] + w2*values[v2]] at the position of
    every valid one (whose three indices lie inside [values]). *)
Theorem get_interpolation_weight_miss
    (this : Triangulation float) (p : t_Point float) (hint : t_LookupHint float)
    (lt : Locate_type) (fh : t_Face float) :
  located_by this p hint = (lt, fh) ->
  lt = OUTSIDE_CONVEX_HULL \/ lt = OUTSIDE_AFFINE_HULL ->
  let weight := fst (get_interpolation_weight_hint this p hint) in
  get_interpolation_weight_hint this p hint = (weight, hint) /\
  valid weight = false /\
  vertices weight = (0, 0, 0)%Z /\
  weights weight = (0, 0, 0) /\
  (forall values, interpolate [weight] values = Some [nan]) /\
  (forall (ws : list (InterpolationWeight float)) (values : list float),
      (forall w i, In w ws -> valid w = true -> (i < 3)%nat ->
                   (0 <= at3 (vertices w) i < Z.of_nat (length values))%Z) ->
      exists rs,
        interpolate ws values = Some rs /\
        length rs = length ws /\
        forall k w, nth_error ws k = Some w ->
          exists r, nth_error rs k = Some r /\
            (valid w = false -> r = nan) /\
            (valid w = true ->
             exists x0 x1 x2,
               vec_at values (at3 (vertices w) 0) = Some x0 /\
               vec_at values (at3 (vertices w) 1) = Some x1 /\
               vec_at values (at3 (vertices w) 2) = Some x2 /\
               r = at3 (weights w) 0 * x0 + at3 (weights w) 1 * x1
                   + at3 (weights w) 2 * x2)).
Proof.
  intros Hloc Hmiss weight.
  assert (E : get_interpolation_weight_hint this p hint = (InterpolationWeight_default, hint)).
  { rewrite get_interpolation_weight_hint_unfold, Hloc.
    apply is_miss_iff in Hmiss. rewrite Hmiss. reflexivity. }
  subst weight. rewrite E. simpl.
  repeat split.
  intros ws values Hrange.
  destruct (interpolate_total ws values) as [rs Hrs].
  { intros w Hin. destruct (valid w) eqn:Hv.
    - destruct (@vec_at_in_range _ values (at3 (vertices w) 0)) as [x0 E0]; [auto|].
      destruct (@vec_at_in_range _ values (at3 (vertices w) 1)) as [x1 E1]; [auto|].
      destruct (@vec_at_in_range _ values (at3 (vertices w) 2)) as [x2 E2]; [auto|].
      unfold interpolate_one. rewrite Hv, E0, E1, E2. discriminate.
    - rewrite interpolate_one_invalid by assumption. discriminate. }
  exists rs. split; [exact Hrs|]. split; [eapply interpolate_length; eauto|].
  intros k w Hk.
  destruct (interpolate_nth _ _ _ Hrs Hk) as [r [Hr Hone]].
  exists r. split; [exact Hr|]. split.
  - intros Hv. rewrite interpolate_one_invalid in Hone by assumption.
    now inversion Hone.
  - intros Hv. apply (interpolate_one_valid values w r Hv) in Hone. exact Hone.
Qed.

End Claims_double.

Lemma get_interpolation_weight_hit_witness :
  get_interpolation_weight_hint (cgal := Instances.located (FACE, unit_face))
    unit_triangulation {| x := 0.25; y := 0.25 |}%float t_LookupHint_default
  = ({| vertices := (0, 1, 2)%Z; weights := (0.5, 0.25, 0.25)%float; valid := true |},
     {| face := Some unit_face; has_hint := true |}).
Proof.
  exact (proj1 (get_interpolation_weight_hit
                  (cgal := Instances.located (FACE, unit_face))
                  unit_triangulation {| x := 0.25; y := 0.25 |}%float
                  t_LookupHint_default eq_refl (or_introl eq_refl))).
Defined.

Lemma get_interpolation_weight_miss_witness :
  get_interpolation_weight_hint (cgal := Instances.located (OUTSIDE_CONVEX_HULL, unit_face))
    unit_triangulation {| x := 10; y := 10 |}%float t_LookupHint_default
  = ({| vertices := (0, 0, 0)%Z; weights := (0, 0, 0)%float; valid := false |},
     t_LookupHint_default).
Proof.
  exact (proj1 (get_interpolation_weight_miss
                  (cgal := Instances.located (OUTSIDE_CONVEX_HULL, unit_face))
                  unit_triangulation {| x := 10; y := 10 |}%float
                  t_LookupHint_default eq_refl (or_introl eq_refl))).
Defined.

Lemma skipn_cons_nth {A} (l : list A) (k : nat) (d : A) a l' :
  skipn k l = a :: l' -> skipn (S k) l = l' /\ nth k l d = a.
Proof.
  revert k; induction l as [|b l IH]; intros k E.
  - destruct k; discriminate.
  - destruct k as [|k]; simpl in E.
    + inversion E; subst. split; reflexivity.
    + apply IH in E. exact E.
Qed.

(** ** The spatial index *)
Section Claims_kdtree.
Import MetBuild.
Context {T : Type} {scalar : Scalar T} {nanoflann : Nanoflann T}.

Lemma modify_app (done rest : list (CloudPoint T)) p f :
  modify (done ++ p :: rest) (length done) f = done ++ f p :: rest.
Proof. induction done as [|d done IH]; simpl; [reflexivity|now rewrite IH]. Qed.

Lemma cloud_resize_length (pts : list (CloudPoint T)) n : length (cloud_resize pts n) = n.
Proof.
  unfold cloud_resize. rewrite length_app, length_firstn, repeat_length. lia.
Qed.

Lemma fill_loop (xs ys : list T) :
  length xs = length ys ->
  forall m k (done rest : list (CloudPoint T)),
    length done = k -> length rest = m -> k + m = length xs ->
    fold_left
      (fun pts i =>
         let pts1 := modify pts i (fun p => {| cx := nth i xs (of_Z 0); cy := cy p |}) in
         modify pts1 i (fun p => {| cx := cx p; cy := nth i ys (of_Z 0) |}))
      (seq k m) (done ++ rest)
    = done ++ packed (skipn k xs) (skipn k ys).
Proof.
  intros Hlen. induction m as [|m IH]; intros k done rest Hd Hr Hk.
  - destruct rest; [|discriminate]. simpl.
    rewrite !skipn_all2 by lia. reflexivity.
  - destruct rest as [|r rest]; [discriminate|]. simpl in Hr.
    cbn [seq fold_left]. subst k.
    rewrite modify_app. cbn [cx cy]. rewrite modify_app. cbn [cx cy].
    change (done ++ ?c :: rest) with (done ++ [c] ++ rest).
    rewrite app_assoc.
    rewrite (IH (S (length done))); [|rewrite length_app; simpl; lia|lia|lia].
    rewrite <- app_assoc. f_equal.
    assert (Hx : length done < length xs) by lia.
    assert (Hy : length done < length ys) by lia.
    destruct (skipn (length done) xs) as [|a xs'] eqn:Ex.
    { apply (f_equal (@length T)) in Ex. rewrite length_skipn in Ex. simpl in Ex. lia. }
    destruct (skipn (length done) ys) as [|b ys'] eqn:Ey.
    { apply (f_equal (@length T)) in Ey. rewrite length_skipn in Ey. simpl in Ey. lia. }
    destruct (skipn_cons_nth _ _ (of_Z 0) Ex) as [Hsx Hnx].
    destruct (skipn_cons_nth _ _ (of_Z 0) Ey) as [Hsy Hny].
    rewrite Hsx, Hnx, Hsy, Hny. reflexivity.
Qed.

(** C8.  With [|x| <> |y|], [build] returns the code of [SizeMismatch] (1,
    not zero) and leaves the object as it was: same point cloud, same
    initialised flag, so an index constructed from such vectors has
    [initialized() = false] and no points.  With [|x| = |y|] it returns the
    code of [NoError], the cloud is the packed copy of all points, the tree
    is built over that cloud in dimension 2 with leaf capacity 10, and the
    index is marked initialised. *)
Theorem build_contract (this : KdtreePrivate) (xs ys : list T) :
  (length xs <> length ys ->
   build this xs ys = (_errors_value SizeMismatch, this) /\
   _errors_value SizeMismatch <> 0%Z /\
   m_cloud (snd (build this xs ys)) = m_cloud this /\
   initialized (snd (build this xs ys)) = initialized this /\
   initialized (KdtreePrivate_new xs ys) = false /\
   size (KdtreePrivate_new xs ys) = 0) /\
  (length xs = length ys ->
   build this xs ys =
     (_errors_value NoError,
      {| m_initialized := true;
         m_cloud := packed xs ys;
         m_tree := Some {| kd_dim := 2;
                           kd_dataset := packed xs ys;
                           kd_leaf_max_size := 10;
                           kd_root := Some (buildIndex 2 (packed xs ys) 10) |} |}) /\
   length (packed xs ys) = length xs /\
   initialized (KdtreePrivate_new xs ys) = true /\
   size (KdtreePrivate_new xs ys) = length xs).
Proof.
  split.
  - intros Hne. unfold KdtreePrivate_new, build.
    destruct (Nat.eqb_spec (length xs) (length ys)) as [He|_]; [contradiction|].
    simpl. repeat split; discriminate.
  - intros He.
    assert (Hfill : forall pts0 : list (CloudPoint T),
               fold_left
                 (fun pts i =>
                    let pts1 := modify pts i
                                  (fun p => {| cx := nth i xs (of_Z 0); cy := cy p |}) in
                    modify pts1 i (fun p => {| cx := cx p; cy := nth i ys (of_Z 0) |}))
                 (seq 0 (length xs)) (cloud_resize pts0 (length xs))
               = packed xs ys).
    { intros pts0.
      exact (@fill_loop xs ys He (length xs) 0 [] (cloud_resize pts0 (length xs))
               eq_refl (cloud_resize_length _ _) eq_refl). }
    assert (Hlen : length (packed xs ys) = length xs).
    { unfold packed. rewrite length_map, length_combine. lia. }
    unfold KdtreePrivate_new, build.
    destruct (Nat.eqb_spec (length xs) (length ys)) as [_|Hne]; [|contradiction].
    cbn [negb]. rewrite !Hfill. cbn -[packed].
    unfold size. cbn -[packed]. repeat split; assumption.
Qed.

End Claims_kdtree.

(** ** Domain flags *)
Section Claims_domain.
Context {T : Type} {scalar : Scalar T} {cgal : CGAL T}.

Lemma get_triangles_no_domain (this : Triangulation T) :
  Forall (fun f => is_in_domain (finfo f) = false) (finite_faces (m_triangulation this)) ->
  get_triangles this = [].
Proof.
  unfold get_triangles. induction 1 as [|f fs Hf _ IH]; simpl; [reflexivity|].
  now rewrite Hf.
Qed.

Lemma insert_range_fresh_faces (t : t_CDT T) pts_vec :
  Forall (fun f => is_in_domain (finfo f) = false) (finite_faces (insert_range t pts_vec)).
Proof.
  unfold insert_range; simpl. apply Forall_forall. intros f Hin.
  apply in_map_iff in Hin. destruct Hin as [tr [<- _]]. reflexivity.
Qed.

Lemma get_triangles_marked (c : t_CDT T) :
  get_triangles {| m_triangulation := mark_domain_status c |}
  = map triple_of (marked_faces c).
Proof.
  unfold get_triangles, mark_domain_status, marked_faces; simpl.
  generalize (in_domain_map c) as m. intros m.
  change (seq 0 (length (finite_faces c))) with (seq (0 + 0) (length (finite_faces c))).
  generalize (0 + 0) as k.
  induction (finite_faces c) as [|f fs IH]; intros k; simpl; [reflexivity|].
  destruct (m k) as [[|]|]; simpl; rewrite IH; reflexivity.
Qed.

(** C9.  In a triangulation as the constructor leaves it, every finite face
    carries the default [FaceInfo2], whose flag is false, and
    [get_triangles] is empty; queries are functions of the triangulation
    and return only a weight and a hint.  After
    [apply_constraint_polygon], [get_triangles] lists exactly the faces
    that domain marking flagged. *)
Theorem fresh_triangulation_has_no_triangles
    (points_x points_y : list T) (this : Triangulation T) :
  Triangulation_new points_x points_y = Ok this ->
  Forall (fun f => finfo f = FaceInfo2_default /\ is_in_domain (finfo f) = false)
         (finite_faces (m_triangulation this)) /\
  get_triangles this = [] /\
  (forall poly this',
      apply_constraint_polygon this poly = Ok this' ->
      get_triangles this'
      = map triple_of (marked_faces (insert_constraint (m_triangulation this) poly))).
Proof.
  unfold Triangulation_new, construct_triangulation. intros Hnew.
  destruct (length points_x <? 3)%nat; [discriminate|].
  destruct (construct_points points_x points_y) as [pts|e]; [|discriminate].
  inversion Hnew; subst this; clear Hnew.
  assert (Hall : Forall (fun f : t_Face T =>
                           finfo f = FaceInfo2_default /\ is_in_domain (finfo f) = false)
                   (finite_faces (add_mesh_points t_CDT_empty pts))).
  { unfold add_mesh_points, insert_range; simpl. apply Forall_forall. intros f Hin.
    apply in_map_iff in Hin. destruct Hin as [tr [<- _]]. split; reflexivity. }
  split; [exact Hall|]. split.
  - apply get_triangles_no_domain. simpl.
    eapply Forall_impl; [|exact Hall]. intros f [_ Hf]; exact Hf.
  - intros poly this'. unfold apply_constraint_polygon.
    destruct (length poly <? 3)%nat; [discriminate|].
    intros E; inversion E; subst this'; clear E.
    apply get_triangles_marked.
Qed.

End Claims_domain.

(** ** Weights in exact arithmetic *)
Section Claims_exact.
Context {cgal : CGAL Q}.
Local Open Scope Q_scope.

(** The denominator of the formula is the square of [cross]. *)
Lemma gram_determinant (V0 V1 V2 : t_Point Q) :
  let a := Spec.vsub V2 V0 in
  let b := Spec.vsub V1 V0 in
  Spec.dot a a * Spec.dot b b - Spec.dot a b * Spec.dot a b
  == cross V0 V1 V2 * cross V0 V1 V2.
Proof.
  unfold Spec.dot, Spec.vsub, cross; destruct V0, V1, V2; simpl. ring.
Qed.

Lemma gram_determinant_nonzero (V0 V1 V2 : t_Point Q) :
  ~ cross V0 V1 V2 == 0 ->
  let a := Spec.vsub V2 V0 in
  let b := Spec.vsub V1 V0 in
  ~ Spec.dot a a * Spec.dot b b - Spec.dot a b * Spec.dot a b == 0.
Proof.
  intros Hnd a b Hz. subst a b. rewrite gram_determinant in Hz.
  apply Qmult_integral in Hz. tauto.
Qed.

(** C2, in exact arithmetic.  Let the values at the three vertices of the
    hit face be those of an affine function [f(x, y) = a*x + b*y + c].  If
    the face is not degenerate, interpolating with the returned weight gives
    exactly [f(p)]. *)
Theorem linear_exactness_exact
    (this : Triangulation Q) (p : t_Point Q) (hint : t_LookupHint Q)
    (lt : Locate_type) (fh : t_Face Q) (a b c : Q)
    (values : list Q) (f0 f1 f2 : Q) :
  located_by this p hint = (lt, fh) ->
  lt = FACE \/ lt = EDGE \/ lt = VERTEX ->
  let V0 := vertex fh 0 in
  let V1 := vertex fh 1 in
  let V2 := vertex fh 2 in
  ~ cross (point V0) (point V1) (point V2) == 0 ->
  vec_at values (info V0) = Some f0 -> f0 == Spec.affine a b c (point V0) ->
  vec_at values (info V1) = Some f1 -> f1 == Spec.affine a b c (point V1) ->
  vec_at values (info V2) = Some f2 -> f2 == Spec.affine a b c (point V2) ->
  exists r,
    interpolate [fst (get_interpolation_weight_hint this p hint)] values = Some [r] /\
    r == Spec.affine a b c p.
Proof.
  intros Hloc Hhit V0 V1 V2 Hnd E0 A0 E1 A1 E2 A2.
  rewrite (get_interpolation_weight_hint_hit this p hint Hloc Hhit). cbn [fst].
  eexists. split; [apply interpolate_single; [reflexivity|exact E0|exact E1|exact E2]|].
  cbn [weights]. fold V0 V1 V2.
  rewrite A0, A1, A2.
  apply gram_determinant_nonzero in Hnd.
  unfold Spec.affine, Spec.barycentric, Spec.dot, Spec.vsub in *.
  destruct (point V0) as [x0 y0], (point V1) as [x1 y1], (point V2) as [x2 y2],
           p as [qx qy].
  cbn [at3 fst snd x y add sub mul div of_Z Scalar_Q] in *.
  change (inject_Z 1) with 1.
  field. exact Hnd.
Qed.

End Claims_exact.


(** ** Weights in binary64: where the tolerances fail *)

Section Counterexamples_double.
Local Open Scope float_scope.

(** C3: the code does not keep the weight sum.  [InterpolationWeight.h]
    asks of the two-argument constructor weights that sum to 1.0, and
    [get_interpolation_weight] calls it without a check of the denominator.
    The triangle (0,0), (1,0), (0.5, 2^-30) has positive area; for the
    interior point (0.5, 2^-31) the Gram determinant rounds to zero, the
    weights are NaN, the weight is returned valid, and its sum is not
    within 1e-10 of 1. *)
Lemma weight_sum_counterexample :
  exists this : Triangulation float,
    Triangulation_new (cgal := Instances.input_order FACE)
      [0; 1; 0.5] [0; 0; 0x1p-30] = Ok this /\
    let w := get_interpolation_weight_xy (cgal := Instances.input_order FACE)
               this 0.5 0x1p-31 in
    (0 <? orient2d {| x := 0; y := 0 |} {| x := 1; y := 0 |} {| x := 0.5; y := 0x1p-30 |})
      = true /\
    valid w = true /\
    weights w = (nan, nan, nan) /\
    weights_sum_within 1e-10 w = false.
Proof.
  eexists. split; [reflexivity|]. vm_compute. repeat split.
Qed.

(** The same face under its three vertex orders. *)
Lemma weight_sum_sliver_rotations :
  let A := {| x := 0; y := 0 |} in
  let B := {| x := 1; y := 0 |} in
  let C := {| x := 0.5; y := 0x1p-30 |} in
  let p := {| x := 0.5; y := 0x1p-31 |} in
  weights_sum_within 1e-10 (weight_in_face A B C p) = false /\
  weights_sum_within 1e-10 (weight_in_face B C A p) = false /\
  weights_sum_within 1e-10 (weight_in_face C A B p) = false.
Proof. vm_compute. repeat split. Qed.

(** C2 as stated fails in binary64.  On the thin but non-degenerate
    triangle (0,0), (1,0), (0.5, 1e-6), with the values of [f(x, y) = x] at
    the vertices, interpolation at the interior point (0.3, 1e-7) is off by
    more than 1e-6. *)
Lemma linear_exactness_counterexample :
  exists (this : Triangulation float) (vs : list (t_Point float)) (r : float),
    Triangulation_new (cgal := Instances.input_order FACE)
      [0; 1; 0.5] [0; 0; 1e-6] = Ok this /\
    get_vertices this = Some vs /\
    let f := Spec.affine 1 0 0 in
    let p := {| x := 0.3; y := 1e-7 |} in
    let w := get_interpolation_weight (cgal := Instances.input_order FACE) this p in
    (0 <? orient2d {| x := 0; y := 0 |} {| x := 1; y := 0 |} {| x := 0.5; y := 1e-6 |})
      = true /\
    valid w = true /\
    interpolate [w] (map f vs) = Some [r] /\
    within 1e-10 r (f p) = false /\
    within 1e-6 r (f p) = false.
Proof.
  do 3 eexists. split; [reflexivity|]. split; [reflexivity|].
  vm_compute. repeat split.
Qed.

(** The same face under its three vertex orders. *)
Lemma linear_exactness_sliver_rotations :
  let A := {| x := 0; y := 0 |} in
  let B := {| x := 1; y := 0 |} in
  let C := {| x := 0.5; y := 1e-6 |} in
  let p := {| x := 0.3; y := 1e-7 |} in
  let f := Spec.affine 1 0 0 in
  (exists r, interpolate [weight_in_face A B C p] [f A; f B; f C] = Some [r]
             /\ within 1e-10 r (f p) = false) /\
  (exists r, interpolate [weight_in_face B C A p] [f B; f C; f A] = Some [r]
             /\ within 1e-10 r (f p) = false) /\
  (exists r, interpolate [weight_in_face C A B p] [f C; f A; f B] = Some [r]
             /\ within 1e-10 r (f p) = false).
Proof. vm_compute. repeat split; eexists; split; reflexivity. Qed.

(** Two checks of the repository's test suite, run on the embedding for
    each vertex order of the face: at the centroid of (0,0), (1,0), (0.5,1)
    every weight is within 1e-10 of 1/3, and the weights sum to 1 within
    1e-10. *)
Lemma centroid_test :
  let A := {| x := 0; y := 0 |} in
  let B := {| x := 1; y := 0 |} in
  let C := {| x := 0.5; y := 1 |} in
  let p := {| x := (0 + 1 + 0.5) / 3; y := (0 + 0 + 1) / 3 |} in
  let third w := within 1e-10 (at3 (weights w) 0) (1 / 3)
                 && within 1e-10 (at3 (weights w) 1) (1 / 3)
                 && within 1e-10 (at3 (weights w) 2) (1 / 3) in
  forallb (fun w => valid w && third w && weights_sum_within 1e-10 w)
    [weight_in_face A B C p; weight_in_face B C A p; weight_in_face C A B p] = true.
Proof. vm_compute. reflexivity. Qed.

End Counterexamples_double.

(** ** Vertices by input index *)

Lemma map_nth_seq_id {A} (l : list A) (d : A) :
  map (fun k => nth k l d) (seq 0 (length l)) = l.
Proof.
  induction l as [|a l IH]; simpl; [reflexivity|].
  f_equal. rewrite <- seq_shift, map_map. exact IH.
Qed.

Lemma list_set_spec {A} (v : list A) (n : nat) (a : A) :
  (n < length v ->
   exists v', list_set v n a = Some v' /\ length v' = length v /\
              forall j, nth_error v' j = if (j =? n)%nat then Some a else nth_error v j) /\
  (length v <= n -> list_set v n a = None).
Proof.
  revert n; induction v as [|b v IH]; intros n; simpl.
  - split; [lia|reflexivity].
  - destruct n as [|n].
    + split; [intros _|simpl; lia].
      eexists; split; [reflexivity|]. split; [reflexivity|].
      intros [|j]; reflexivity.
    + destruct (IH n) as [Hin Hout]. split.
      * intros Hn. destruct Hin as [v' [E [Hl Hnth]]]; [simpl in Hn; lia|].
        rewrite E. eexists; split; [reflexivity|]. split; [simpl; lia|].
        intros [|j]; simpl; [reflexivity|apply Hnth].
      * intros Hn. rewrite Hout by (simpl in Hn; lia). reflexivity.
Qed.

Section Claims_vertices.
Context {T : Type} {scalar : Scalar T} {cgal : CGAL T}.

Lemma iota_small (n : nat) :
  (Z.of_nat n < 2 ^ UINT_WIDTH)%Z ->
  iota 0 (static_cast_unsigned n) = map Z.of_nat (seq 0 n).
Proof.
  intros Hn. unfold iota, static_cast_unsigned.
  rewrite Z.mod_small by lia.
  rewrite Z.sub_0_r, Nat2Z.id. apply map_ext. intros k. lia.
Qed.

Lemma construct_points_ok (xs ys : list T) :
  length xs = length ys ->
  (Z.of_nat (length xs) < 2 ^ UINT_WIDTH)%Z ->
  construct_points xs ys = Ok (input_points xs ys).
Proof.
  intros Hlen Hn. unfold construct_points, input_points.
  rewrite Hlen, Nat.eqb_refl. cbn [negb]. f_equal.
  rewrite <- Hlen, iota_small by assumption. rewrite map_map.
  erewrite map_ext; [|intros k; rewrite Nat2Z.id; reflexivity].
  clear Hn. revert ys Hlen. induction xs as [|a xs IH]; intros [|b ys] Hlen;
    try discriminate; [reflexivity|].
  cbn [length seq map combine nth fst snd]. f_equal.
  rewrite <- seq_shift, map_map. cbn [nth]. apply IH. simpl in Hlen; lia.
Qed.

Lemma input_points_length (xs ys : list T) :
  length xs = length ys -> length (input_points xs ys) = length xs.
Proof. intros E. unfold input_points. rewrite length_map, length_combine. lia. Qed.

Lemma add_mesh_points_vertices (pts : list (t_Point T)) :
  (Z.of_nat (length pts) < 2 ^ UINT_WIDTH)%Z ->
  finite_vertices (add_mesh_points t_CDT_empty pts)
  = inserted pts (spatial_sort pts) [].
Proof.
  intros Hn. unfold add_mesh_points, insert_range. cbn [finite_vertices t_CDT_empty].
  rewrite iota_small by assumption. rewrite !map_map. cbn [fst].
  erewrite (map_ext (fun k => nth (Z.to_nat (Z.of_nat k)) pts origin));
    [|intros k; rewrite Nat2Z.id; reflexivity].
  rewrite map_nth_seq_id.
  unfold inserted.
  assert (Hin : forall k, In k (spatial_sort pts) -> k < length pts).
  { intros k Hk. apply (Permutation_in _ (spatial_sort_perm pts)) in Hk.
    apply in_seq in Hk. lia. }
  revert Hin. generalize (spatial_sort pts) as order. generalize (@nil (t_Vertex T)) as vs.
  intros vs order; revert vs. induction order as [|k order IH]; intros vs Hin; [reflexivity|].
  cbn [fold_left]. rewrite nth_error_map, nth_error_seq.
  assert (Hk : k < length pts) by (apply Hin; left; reflexivity).
  apply Nat.ltb_lt in Hk. rewrite Hk. cbn [option_map Nat.add].
  rewrite Nat2Z.id. apply IH. intros j Hj. apply Hin. right. exact Hj.
Qed.



Lemma point_eta (p : t_Point T) : {| x := x p; y := y p |} = p.
Proof. destruct p; reflexivity. Qed.

Lemma write_all_None (vsx : list (t_Vertex T)) : write_all vsx None = None.
Proof. induction vsx as [|v vsx IH]; [reflexivity|exact IH]. Qed.

Lemma vec_set_spec (acc : list (t_Point T)) (v : t_Vertex T) :
  (in_bounds (length acc) v ->
   exists acc', vec_set acc (info v) (point v) = Some acc' /\
                length acc' = length acc /\
                forall j, nth_error acc' j
                          = if (j =? Z.to_nat (info v))%nat then Some (point v)
                            else nth_error acc j) /\
  (~ in_bounds (length acc) v -> vec_set acc (info v) (point v) = None).
Proof.
  unfold in_bounds, vec_set.
  destruct (list_set_spec acc (Z.to_nat (info v)) (point v)) as [Hin Hout].
  destruct (Z.ltb_spec (info v) 0) as [Hneg|Hpos].
  - split; [lia|reflexivity].
  - split.
    + intros Hb. apply Hin. lia.
    + intros Hb. apply Hout. lia.
Qed.

Lemma write_all_bounds (vsx : list (t_Vertex T)) :
  forall acc : list (t_Point T),
    (write_all vsx (Some acc) = None <-> exists v, In v vsx /\ ~ in_bounds (length acc) v) /\
    (forall acc', write_all vsx (Some acc) = Some acc' -> length acc' = length acc).
Proof.
  induction vsx as [|v vsx IH]; intros acc.
  - split.
    + split; [discriminate|intros [v [[] _]]].
    + intros acc' E. inversion E. reflexivity.
  - unfold write_all; cbn [fold_left obind]. rewrite point_eta.
    destruct (vec_set_spec acc v) as [Hin Hout].
    assert (Hdec : in_bounds (length acc) v \/ ~ in_bounds (length acc) v)
      by (unfold in_bounds; lia).
    destruct Hdec as [Hb|Hb].
    + destruct (Hin Hb) as [acc1 [E [Hl _]]]. rewrite E.
      destruct (IH acc1) as [Hnone Hsome]. fold (write_all vsx (Some acc1)).
      rewrite Hl in Hnone. split.
      * rewrite Hnone. split.
        -- intros [w [Hw Hbw]]. exists w. split; [right; exact Hw|exact Hbw].
        -- intros [w [[<-|Hw] Hbw]]; [contradiction|]. exists w. split; assumption.
      * intros acc' E'. rewrite (Hsome acc' E'). exact Hl.
    + rewrite (Hout Hb). fold (write_all vsx None). rewrite write_all_None. split.
      * split; [intros _|reflexivity]. exists v. split; [left; reflexivity|exact Hb].
      * discriminate.
Qed.


Lemma insert_point_length_le vs p i : length (insert_point vs p i) <= S (length vs).
Proof.
  induction vs as [|v vs IH]; simpl; [lia|].
  destruct (point_eqb (point v) p); simpl; lia.
Qed.

Lemma insert_point_present_length vs p i :
  present vs p -> length (insert_point vs p i) = length vs.
Proof.
  induction vs as [|v vs IH]; intros [w [Hw Hp]]; simpl.
  - destruct Hw.
  - destruct (point_eqb (point v) p) eqn:E; simpl; [reflexivity|].
    f_equal. apply IH. destruct Hw as [<-|Hw]; [congruence|]. exists w. split; assumption.
Qed.

Lemma present_insert_self vs p i :
  point_eqb p p = true -> present (insert_point vs p i) p.
Proof.
  intros Hpp. induction vs as [|v vs IH]; simpl.
  - eexists. split; [left; reflexivity|exact Hpp].
  - destruct (point_eqb (point v) p) eqn:E.
    + eexists. split; [left; reflexivity|exact E].
    + destruct IH as [w [Hw Hp]]. exists w. split; [right; exact Hw|exact Hp].
Qed.

Lemma present_insert_other vs p i q :
  present vs q -> present (insert_point vs p i) q.
Proof.
  induction vs as [|v vs IH]; intros [w [Hw Hq]]; simpl.
  - destruct Hw.
  - destruct (point_eqb (point v) p) eqn:E.
    + destruct Hw as [<-|Hw].
      * eexists. split; [left; reflexivity|exact Hq].
      * exists w. split; [right; exact Hw|exact Hq].
    + destruct Hw as [<-|Hw].
      * exists v. split; [left; reflexivity|exact Hq].
      * destruct IH as [u [Hu Hq']]; [exists w; split; assumption|].
        exists u. split; [right; exact Hu|exact Hq'].
Qed.

Lemma insert_point_stores vs p i : exists v, In v (insert_point vs p i) /\ info v = i.
Proof.
  induction vs as [|v vs IH]; simpl.
  - eexists. split; [left; reflexivity|reflexivity].
  - destruct (point_eqb (point v) p).
    + eexists. split; [left; reflexivity|reflexivity].
    + destruct IH as [w [Hw Hi]]. exists w. split; [right; exact Hw|exact Hi].
Qed.

Lemma inserted_app pts l1 l2 vs :
  inserted pts (l1 ++ l2) vs = inserted pts l2 (inserted pts l1 vs).
Proof. unfold inserted. apply fold_left_app. Qed.

Lemma inserted_length_le pts ks :
  forall vs, length (inserted pts ks vs) <= length vs + length ks.
Proof.
  induction ks as [|k ks IH]; intros vs; cbn [inserted fold_left length]; [lia|].
  etransitivity; [apply IH|].
  pose proof (insert_point_length_le vs (nth k pts origin) (Z.of_nat k)). lia.
Qed.

Lemma present_inserted pts ks q :
  forall vs, present vs q -> present (inserted pts ks vs) q.
Proof.
  induction ks as [|k ks IH]; intros vs Hq; [exact Hq|].
  cbn [inserted fold_left]. apply IH. apply present_insert_other. exact Hq.
Qed.

(** A point visited twice adds one vertex only. *)
Lemma inserted_twice pts l1 a l2 b l3 p :
  nth a pts origin = p -> nth b pts origin = p -> point_eqb p p = true ->
  length (inserted pts (l1 ++ a :: l2 ++ b :: l3) [])
  <= length l1 + 1 + length l2 + length l3.
Proof.
  intros Ha Hb Hpp.
  rewrite inserted_app.
  change (a :: l2 ++ b :: l3) with ([a] ++ l2 ++ [b] ++ l3).
  rewrite !inserted_app.
  set (vs1 := inserted pts l1 []).
  set (vs2 := inserted pts [a] vs1).
  set (vs3 := inserted pts l2 vs2).
  set (vs4 := inserted pts [b] vs3).
  assert (H1 : length vs1 <= length l1) by (apply (inserted_length_le pts l1 [])).
  assert (H2 : length vs2 <= length vs1 + 1) by (apply (inserted_length_le pts [a] vs1)).
  assert (P2 : present vs2 p).
  { subst vs2. cbn [inserted fold_left]. rewrite Ha. apply present_insert_self. exact Hpp. }
  assert (H3 : length vs3 <= length vs2 + length l2) by (apply inserted_length_le).
  assert (P3 : present vs3 p) by (apply present_inserted; exact P2).
  assert (H4 : length vs4 = length vs3).
  { subst vs4. cbn [inserted fold_left]. rewrite Hb.
    apply insert_point_present_length. exact P3. }
  pose proof (inserted_length_le pts l3 vs4). lia.
Qed.

Lemma inserted_duplicate (pts : list (t_Point T)) (order : list nat) :
  Permutation order (seq 0 (length pts)) ->
  has_duplicate pts ->
  length (inserted pts order []) < length pts.
Proof.
  intros Hperm (i & j & p & Hij & Hi & Hj & Hpp).
  assert (Hlen : length order = length pts).
  { rewrite (Permutation_length Hperm). apply length_seq. }
  assert (Hil : i < length pts) by (apply nth_error_Some; congruence).
  assert (Hjl : j < length pts) by (apply nth_error_Some; congruence).
  assert (Hni : nth i pts origin = p) by (apply nth_error_nth; exact Hi).
  assert (Hnj : nth j pts origin = p) by (apply nth_error_nth; exact Hj).
  assert (Ini : In i order).
  { apply (Permutation_in _ (Permutation_sym Hperm)). apply in_seq. lia. }
  assert (Inj : In j order).
  { apply (Permutation_in _ (Permutation_sym Hperm)). apply in_seq. lia. }
  destruct (in_split _ _ Ini) as [l1 [l2 E]].
  assert (Hj' : In j l1 \/ In j l2).
  { rewrite E in Inj. apply in_app_or in Inj. destruct Inj as [H|[H|H]]; auto.
    exfalso. apply Hij. exact H. }
  destruct Hj' as [Hj1|Hj2].
  - destruct (in_split _ _ Hj1) as [m1 [m2 E1]].
    assert (Eo : order = m1 ++ j :: m2 ++ i :: l2).
    { rewrite E, E1. rewrite <- app_assoc. reflexivity. }
    pose proof (@inserted_twice pts m1 j m2 i l2 p Hnj Hni Hpp) as Hle.
    rewrite <- Eo in Hle.
    assert (length order = length m1 + 1 + length m2 + 1 + length l2).
    { rewrite Eo. rewrite !length_app. cbn [length]. rewrite !length_app. cbn [length]. lia. }
    lia.
  - destruct (in_split _ _ Hj2) as [m1 [m2 E2]].
    assert (Eo : order = l1 ++ i :: m1 ++ j :: m2).
    { rewrite E, E2. reflexivity. }
    pose proof (@inserted_twice pts l1 i m1 j m2 p Hni Hnj Hpp) as Hle.
    rewrite <- Eo in Hle.
    assert (length order = length l1 + 1 + length m1 + 1 + length m2).
    { rewrite Eo. rewrite !length_app. cbn [length]. rewrite !length_app. cbn [length]. lia. }
    lia.
Qed.

Lemma Triangulation_new_vertices (xs ys : list T) (this : Triangulation T) :
  Triangulation_new xs ys = Ok this ->
  (Z.of_nat (length xs) < 2 ^ UINT_WIDTH)%Z ->
  length xs = length ys /\
  finite_vertices (m_triangulation this)
  = inserted (input_points xs ys) (spatial_sort (input_points xs ys)) [].
Proof.
  unfold Triangulation_new, construct_triangulation. intros Hnew Hn.
  destruct (length xs <? 3)%nat; [discriminate|].
  destruct (Nat.eq_dec (length xs) (length ys)) as [Hlen|Hne].
  - rewrite construct_points_ok in Hnew by assumption.
    inversion Hnew; subst this; clear Hnew. split; [exact Hlen|].
    cbn [m_triangulation]. apply add_mesh_points_vertices.
    rewrite input_points_length by assumption. exact Hn.
  - unfold construct_points in Hnew.
    destruct (Nat.eqb_spec (length xs) (length ys)); [contradiction|discriminate].
Qed.


End Claims_vertices.

Section Counterexamples_vertices.
Local Open Scope float_scope.

(** Duplicates and the visiting order.  The third and fourth input points
    coincide; under a range insertion that visits the fourth before the
    third, the shared vertex keeps index 2: three vertices hold the indices
    2, 1, 0, every write is inside the vector of three, and [get_vertices]
    returns normally. *)
Lemma get_vertices_duplicate_counterexample :
  exists this : Triangulation float,
    Triangulation_new (cgal := Instances.reverse_order FACE)
      [0; 1; 0; 0] [0; 0; 1; 1] = Ok this /\
    has_duplicate (input_points [0; 1; 0; 0] [0; 0; 1; 1]) /\
    map info (finite_vertices (m_triangulation this)) = [2; 1; 0]%Z /\
    length (finite_vertices (m_triangulation this)) = 3%nat /\
    get_vertices this
    = Some [ {| x := 0; y := 0 |}; {| x := 1; y := 0 |}; {| x := 0; y := 1 |} ] /\
    get_vertices this <> None.
Proof.
  eexists. split; [reflexivity|]. split.
  - exists 2%nat, 3%nat, {| x := 0; y := 1 |}.
    split; [discriminate|]. split; [reflexivity|]. split; reflexivity.
  - vm_compute. repeat split. discriminate.
Qed.

(** With the same input visited in input order the shared vertex keeps
    index 3 and the write falls outside the vector. *)
Lemma get_vertices_duplicate_out_of_bounds :
  exists this : Triangulation float,
    Triangulation_new (cgal := Instances.input_order FACE)
      [0; 1; 0; 0] [0; 0; 1; 1] = Ok this /\
    map info (finite_vertices (m_triangulation this)) = [0; 1; 3]%Z /\
    get_vertices this = None.
Proof. eexists. split; [reflexivity|]. vm_compute. split; reflexivity. Qed.


End Counterexamples_vertices.

(** ** Longitude normalisation *)
Section Claims_longitude.
Import MetBuild.
Local Open Scope Q_scope.

Lemma trunc_nonneg (q : Q) :
  0 <= q -> inject_Z (Exact.trunc q) <= q /\ q < inject_Z (Exact.trunc q) + 1.
Proof.
  intros Hq. unfold Exact.trunc.
  assert (Hn : (0 <= Qnum q)%Z) by (destruct q as [n d]; unfold Qle in Hq; simpl in *; lia).
  rewrite Z.quot_div_nonneg by lia.
  assert (E : (Qnum q / Z.pos (Qden q))%Z = Qfloor q) by (destruct q; reflexivity).
  rewrite E.
  split; [apply Qfloor_le|].
  pose proof (Qlt_floor q) as H. rewrite inject_Z_plus in H. exact H.
Qed.

Lemma trunc_opp (q : Q) : Exact.trunc (- q) = (- Exact.trunc q)%Z.
Proof. unfold Exact.trunc. destruct q as [n d]; simpl. apply Z.quot_opp_l. lia. Qed.

Lemma trunc_nonpos (q : Q) :
  q <= 0 -> q <= inject_Z (Exact.trunc q) /\ inject_Z (Exact.trunc q) - 1 < q.
Proof.
  intros Hq.
  destruct (@trunc_nonneg (- q)) as [H1 H2]; [lra|].
  rewrite trunc_opp, inject_Z_opp in H1, H2.
  split; lra.
Qed.

Lemma fmod_360_nonneg (t : Q) :
  0 <= t -> 0 <= Exact.fmod t 360 /\ Exact.fmod t 360 < 360.
Proof.
  intros Ht. unfold Exact.fmod.
  assert (Hs : t == 360 * (t / 360)) by (field; discriminate).
  destruct (@trunc_nonneg (t / 360)) as [H1 H2].
  { apply Qle_shift_div_l; lra. }
  set (k := inject_Z (Exact.trunc (t / 360))) in *.
  split; lra.
Qed.

Lemma fmod_360_neg (t : Q) :
  t < 0 -> -360 < Exact.fmod t 360 /\ Exact.fmod t 360 <= 0.
Proof.
  intros Ht. unfold Exact.fmod.
  assert (Hs : t == 360 * (t / 360)) by (field; discriminate).
  destruct (@trunc_nonpos (t / 360)) as [H1 H2].
  { apply Qle_shift_div_r; lra. }
  set (k := inject_Z (Exact.trunc (t / 360))) in *.
  split; lra.
Qed.

(** In exact arithmetic: a longitude of at least -180 is wrapped into
    [-180, 180); a longitude below -180 stays at or below -180. *)
Lemma wrap_longitude_exact (v : Q) :
  (-180 <= v -> -180 <= wrap_longitude v /\ wrap_longitude v < 180) /\
  (v < -180 -> -540 < wrap_longitude v /\ wrap_longitude v <= -180).
Proof.
  unfold wrap_longitude.
  cbn [add sub fmod of_Z Scalar_Q].
  change (inject_Z 180) with 180. change (inject_Z 360) with 360.
  split; intros Hv.
  - destruct (@fmod_360_nonneg (v + 180)) as [H1 H2]; [lra|]. split; lra.
  - destruct (@fmod_360_neg (v + 180)) as [H1 H2]; [lra|]. split; lra.
Qed.

End Claims_longitude.

Section Counterexamples_longitude.
Import MetBuild.
Local Open Scope float_scope.

(** C5 at a longitude below -180.  A one-point message at longitude -190 is
    loaded with the stored longitude -190: [fmod] keeps the sign of
    [-190 + 180], so nothing is wrapped. *)
Lemma readCoordinates_below_minus_180 :
  let handle := {| h_Ni := 1; h_Nj := 1; h_size := 1;
                   h_latitudes := [0]; h_longitudes := [-190] |} in
  wrap_longitude (-190) = -190 /\
  (exists g, Grib_new handle = Some g /\ m_longitude g = [-190]) /\
  ((-180 <=? -190) && (-190 <? 180)) = false.
Proof.
  cbv zeta. split; [reflexivity|]. split; [|reflexivity].
  eexists. split; [reflexivity|]. reflexivity.
Qed.

(** Longitudes of the usual conventions are wrapped as intended. *)
Lemma readCoordinates_usual_longitudes :
  map wrap_longitude [0; 90; 179.5; 180; 270; 359.75; -180; -0.25]
  = [0; 90; 179.5; -180; -90; -0.25; -180; -0.25].
Proof. reflexivity. Qed.

End Counterexamples_longitude.

(** ** Corners of the source grid *)
Section Claims_corners.
Import MetBuild.
Context {T : Type} {scalar : Scalar T}.
Local Open Scope scalar_scope.

(** [operator<] is a strict order on the coordinates (as it is on doubles,
    and on rationals). *)
Hypothesis ltb_irrefl : forall a : T, (a <? a) = false.
Hypothesis ltb_trans :
  forall a b c : T, (a <? b) = true -> (b <? c) = true -> (a <? c) = true.

Lemma min_element_loop_spec (l : list T) :
  forall (pre : list T) (si : nat) (sv : T),
    nth_error pre si = Some sv ->
    (forall a, In a pre -> (a <? sv) = false) ->
    exists m,
      nth_error (pre ++ l) (min_element_loop (si, sv) (length pre) l) = Some m /\
      forall a, In a (pre ++ l) -> (a <? m) = false.
Proof.
  induction l as [|a l IH]; intros pre si sv Hsi Hmin.
  - cbn [min_element_loop fst]. rewrite app_nil_r. eauto.
  - cbn [min_element_loop snd].
    replace (S (length pre)) with (length (pre ++ [a])) by (rewrite length_app; simpl; lia).
    replace (pre ++ a :: l) with ((pre ++ [a]) ++ l) by (rewrite <- app_assoc; reflexivity).
    destruct (a <? sv) eqn:Ea; apply IH.
    + rewrite nth_error_app2 by lia. rewrite Nat.sub_diag. reflexivity.
    + intros b Hb. apply in_app_or in Hb. destruct Hb as [Hb|[<-|[]]].
      * destruct (b <? a) eqn:Eb; [|reflexivity].
        rewrite <- (Hmin b Hb). symmetry. eapply ltb_trans; eassumption.
      * apply ltb_irrefl.
    + rewrite nth_error_app1; [exact Hsi|]. apply nth_error_Some. congruence.
    + intros b Hb. apply in_app_or in Hb. destruct Hb as [Hb|[<-|[]]]; auto.
Qed.

Lemma max_element_loop_spec (l : list T) :
  forall (pre : list T) (si : nat) (sv : T),
    nth_error pre si = Some sv ->
    (forall a, In a pre -> (sv <? a) = false) ->
    exists m,
      nth_error (pre ++ l) (max_element_loop (si, sv) (length pre) l) = Some m /\
      forall a, In a (pre ++ l) -> (m <? a) = false.
Proof.
  induction l as [|a l IH]; intros pre si sv Hsi Hmax.
  - cbn [max_element_loop fst]. rewrite app_nil_r. eauto.
  - cbn [max_element_loop snd].
    replace (S (length pre)) with (length (pre ++ [a])) by (rewrite length_app; simpl; lia).
    replace (pre ++ a :: l) with ((pre ++ [a]) ++ l) by (rewrite <- app_assoc; reflexivity).
    destruct (sv <? a) eqn:Ea; apply IH.
    + rewrite nth_error_app2 by lia. rewrite Nat.sub_diag. reflexivity.
    + intros b Hb. apply in_app_or in Hb. destruct Hb as [Hb|[<-|[]]].
      * destruct (a <? b) eqn:Eb; [|reflexivity].
        rewrite <- (Hmax b Hb). symmetry. eapply ltb_trans; eassumption.
      * apply ltb_irrefl.
    + rewrite nth_error_app1; [exact Hsi|]. apply nth_error_Some. congruence.
    + intros b Hb. apply in_app_or in Hb. destruct Hb as [Hb|[<-|[]]]; auto.
Qed.

Lemma minimum_spec (l : list T) :
  l <> [] -> exists m, minimum l = Some m /\ is_minimum m l.
Proof.
  destruct l as [|a l]; [congruence|intros _].
  destruct (@min_element_loop_spec l [a] 0 a eq_refl) as [m [Hm Hall]].
  { intros b [<-|[]]. apply ltb_irrefl. }
  exists m. unfold minimum, min_element, is_minimum.
  change ([a] ++ l) with (a :: l) in *. cbn [length] in Hm.
  split; [exact Hm|]. split; [eapply nth_error_In; exact Hm|exact Hall].
Qed.

Lemma maximum_spec (l : list T) :
  l <> [] -> exists m, maximum l = Some m /\ is_maximum m l.
Proof.
  destruct l as [|a l]; [congruence|intros _].
  destruct (@max_element_loop_spec l [a] 0 a eq_refl) as [m [Hm Hall]].
  { intros b [<-|[]]. apply ltb_irrefl. }
  exists m. unfold maximum, max_element, is_maximum.
  change ([a] ++ l) with (a :: l) in *. cbn [length] in Hm.
  split; [exact Hm|]. split; [eapply nth_error_In; exact Hm|exact Hall].
Qed.

(** The two iterator ranges of [findCorners], as lists. *)
Lemma range_last (v : list T) (ni : Z) :
  (1 <= ni <= Z.of_nat (length v))%Z ->
  range v (Z.of_nat (length v) - ni) (Z.of_nat (length v))
  = Some (skipn (length v - Z.to_nat ni)%nat v).
Proof.
  intros Hni. unfold range.
  replace ((0 <=? Z.of_nat (length v) - ni)%Z) with true by (symmetry; apply Z.leb_le; lia).
  replace ((Z.of_nat (length v) - ni <=? Z.of_nat (length v))%Z) with true
    by (symmetry; apply Z.leb_le; lia).
  rewrite Z.leb_refl. cbn [andb]. f_equal.
  replace (Z.to_nat (Z.of_nat (length v) - ni)) with (length v - Z.to_nat ni)%nat by lia.
  apply firstn_all2. rewrite length_skipn. lia.
Qed.

Lemma range_first (v : list T) (ni : Z) :
  (1 <= ni <= Z.of_nat (length v))%Z ->
  range v 0 (0 + ni - 1) = Some (firstn (Z.to_nat ni - 1)%nat v).
Proof.
  intros Hni. unfold range.
  replace ((0 <=? 0 + ni - 1)%Z) with true by (symmetry; apply Z.leb_le; lia).
  replace ((0 + ni - 1 <=? Z.of_nat (length v))%Z) with true
    by (symmetry; apply Z.leb_le; lia).
  cbn [Z.leb Z.compare andb Z.to_nat skipn]. f_equal. f_equal. lia.
Qed.

Lemma deref_min_last (v : list T) (ni : Z) :
  (1 <= ni <= Z.of_nat (length v))%Z ->
  deref_min v (Z.of_nat (length v) - ni) (Z.of_nat (length v))
  = minimum (skipn (length v - Z.to_nat ni)%nat v).
Proof.
  intros Hni. unfold deref_min. rewrite range_last by assumption. cbn [obind].
  unfold minimum. rewrite nth_error_skipn. f_equal. lia.
Qed.

Lemma deref_max_last (v : list T) (ni : Z) :
  (1 <= ni <= Z.of_nat (length v))%Z ->
  deref_max v (Z.of_nat (length v) - ni) (Z.of_nat (length v))
  = maximum (skipn (length v - Z.to_nat ni)%nat v).
Proof.
  intros Hni. unfold deref_max. rewrite range_last by assumption. cbn [obind].
  unfold maximum. rewrite nth_error_skipn. f_equal. lia.
Qed.

Lemma skipn_last_nonempty (v : list T) (ni : Z) :
  (1 <= ni <= Z.of_nat (length v))%Z -> skipn (length v - Z.to_nat ni)%nat v <> [].
Proof.
  intros Hni E. apply (f_equal (@length T)) in E. rewrite length_skipn in E.
  simpl in E. lia.
Qed.

(** An index selected in the first [n - 1] elements (or 0 when there are
    none) designates one of the first [n]. *)
Lemma nth_error_first (v : list T) (n i : nat) :
  1 <= n <= length v -> i < n ->
  exists m, nth_error v i = Some m /\ In m (firstn n v).
Proof.
  intros Hn Hi.
  destruct (nth_error v i) as [m|] eqn:E.
  - exists m. split; [reflexivity|].
    apply (@nth_error_In _ _ i). rewrite nth_error_firstn.
    apply Nat.ltb_lt in Hi. rewrite Hi. exact E.
  - apply nth_error_None in E. lia.
Qed.

Lemma min_element_lt (r : list T) : min_element r < Nat.max 1 (length r).
Proof.
  destruct r as [|a r]; [simpl; lia|].
  destruct (@minimum_spec (a :: r)) as [m [Hm _]]; [discriminate|].
  unfold minimum in Hm.
  assert (min_element (a :: r) < length (a :: r)) by (apply nth_error_Some; congruence).
  lia.
Qed.

Lemma max_element_lt (r : list T) : max_element r < Nat.max 1 (length r).
Proof.
  destruct r as [|a r]; [simpl; lia|].
  destruct (@maximum_spec (a :: r)) as [m [Hm _]]; [discriminate|].
  unfold maximum in Hm.
  assert (max_element (a :: r) < length (a :: r)) by (apply nth_error_Some; congruence).
  lia.
Qed.

Lemma deref_min_first (v : list T) (ni : Z) :
  (1 <= ni <= Z.of_nat (length v))%Z ->
  exists m, deref_min v 0 (0 + ni - 1) = Some m /\ In m (firstn (Z.to_nat ni) v).
Proof.
  intros Hni. unfold deref_min. rewrite range_first by assumption. cbn [obind Z.to_nat Nat.add].
  apply nth_error_first; [lia|].
  pose proof (min_element_lt (firstn (Z.to_nat ni - 1)%nat v)) as H.
  rewrite length_firstn in H. lia.
Qed.

Lemma deref_max_first (v : list T) (ni : Z) :
  (1 <= ni <= Z.of_nat (length v))%Z ->
  exists m, deref_max v 0 (0 + ni - 1) = Some m /\ In m (firstn (Z.to_nat ni) v).
Proof.
  intros Hni. unfold deref_max. rewrite range_first by assumption. cbn [obind Z.to_nat Nat.add].
  apply nth_error_first; [lia|].
  pose proof (max_element_lt (firstn (Z.to_nat ni - 1)%nat v)) as H.
  rewrite length_firstn in H. lia.
Qed.

(** [findCorners] on any record with [1 <= Ni] and at least [Ni] points. *)
Lemma findCorners_corners (this : Grib T) :
  (1 <= m_ni this <= Z.of_nat (length (m_longitude this)))%Z ->
  length (m_latitude this) = length (m_longitude this) ->
  exists xll yll xlr ylr xtr ytr xtl ytl,
    findCorners this
    = Some [ {| px := xll; py := yll |}; {| px := xlr; py := ylr |};
             {| px := xtr; py := ytr |}; {| px := xtl; py := ytl |} ] /\
    is_minimum xll (last_row this (m_longitude this)) /\
    is_minimum yll (last_row this (m_latitude this)) /\
    is_maximum xlr (last_row this (m_longitude this)) /\
    is_maximum ylr (last_row this (m_latitude this)) /\
    In xtr (first_row this (m_longitude this)) /\
    In ytr (first_row this (m_latitude this)) /\
    In xtl (first_row this (m_longitude this)) /\
    In ytl (first_row this (m_latitude this)).
Proof.
  intros Hni Hlen. unfold findCorners, last_row, first_row.
  set (lon := m_longitude this) in *. set (lat := m_latitude this) in *.
  assert (Hni' : (1 <= m_ni this <= Z.of_nat (length lat))%Z) by lia.
  destruct (deref_min_first lon Hni) as [xtl [E1 I1]].
  destruct (deref_max_first lon Hni) as [xtr [E2 I2]].
  destruct (deref_min_first lat Hni') as [ytl [E5 I5]].
  destruct (deref_max_first lat Hni') as [ytr [E6 I6]].
  destruct (minimum_spec (skipn_last_nonempty lon Hni)) as [xll [E3 M3]].
  destruct (maximum_spec (skipn_last_nonempty lon Hni)) as [xlr [E4 M4]].
  destruct (minimum_spec (skipn_last_nonempty lat Hni')) as [yll [E7 M7]].
  destruct (maximum_spec (skipn_last_nonempty lat Hni')) as [ylr [E8 M8]].
  exists xll, yll, xlr, ylr, xtr, ytr, xtl, ytl.
  rewrite E1, E2, E5, E6.
  rewrite (deref_min_last lon Hni), (deref_max_last lon Hni),
          (deref_min_last lat Hni'), (deref_max_last lat Hni').
  rewrite E3, E4, E7, E8. cbn [obind].
  split; [reflexivity|]. repeat (split; [assumption|]). assumption.
Qed.

End Claims_corners.

(** [operator<] on doubles is a strict order: irreflexive and transitive
    (comparisons with NaN are false). *)
Lemma SFltb_irrefl (f : spec_float) : SFltb f f = false.
Proof.
  unfold SFltb, SFcompare. destruct f as [s|s| |s m e]; try destruct s; try reflexivity;
    rewrite Z.compare_refl;
    change (Pos.compare_cont Eq m m) with (Pos.compare m m);
    rewrite Pos.compare_refl; reflexivity.
Qed.

Ltac order_cases :=
  repeat match goal with
         | s : bool |- _ => destruct s
         end;
  cbn; try reflexivity; try discriminate;
  repeat match goal with
         | |- context [Pos.compare_cont Eq ?a ?b] =>
             change (Pos.compare_cont Eq a b) with (Pos.compare a b)
         | H : context [Pos.compare_cont Eq ?a ?b] |- _ =>
             change (Pos.compare_cont Eq a b) with (Pos.compare a b) in H
         end;
  repeat match goal with
         | |- context [Z.compare ?a ?b] => destruct (Z.compare_spec a b)
         | H : context [Z.compare ?a ?b] |- _ => destruct (Z.compare_spec a b)
         | |- context [Pos.compare ?a ?b] => destruct (Pos.compare_spec a b)
         | H : context [Pos.compare ?a ?b] |- _ => destruct (Pos.compare_spec a b)
         end;
  cbn in *; try reflexivity; try discriminate; try lia.

Lemma SFltb_trans (f g h : spec_float) :
  SFltb f g = true -> SFltb g h = true -> SFltb f h = true.
Proof.
  unfold SFltb, SFcompare.
  destruct f as [s1|s1| |s1 m1 e1], g as [s2|s2| |s2 m2 e2], h as [s3|s3| |s3 m3 e3];
    intros H1 H2; order_cases.
Qed.

Lemma Double_ltb_irrefl (a : float) : (a <? a)%float = false.
Proof. rewrite ltb_spec. apply SFltb_irrefl. Qed.

Lemma Double_ltb_trans (a b c : float) :
  (a <? b)%float = true -> (b <? c)%float = true -> (a <? c)%float = true.
Proof. rewrite !ltb_spec. apply SFltb_trans. Qed.

Lemma Exact_ltb_irrefl (a : Q) : Exact.ltb a a = false.
Proof.
  unfold Exact.ltb. apply negb_false_iff. apply Qle_bool_iff. apply Qle_refl.
Qed.

Lemma Exact_ltb_lt (a b : Q) : Exact.ltb a b = true <-> (a < b)%Q.
Proof.
  unfold Exact.ltb. rewrite negb_true_iff. split.
  - intros H. apply Qnot_le_lt. intros Hle. apply Qle_bool_iff in Hle. congruence.
  - intros H. destruct (Qle_bool b a) eqn:E; [|reflexivity].
    apply Qle_bool_iff in E. exfalso. apply (Qlt_not_le _ _ H E).
Qed.

Lemma Exact_ltb_trans (a b c : Q) :
  Exact.ltb a b = true -> Exact.ltb b c = true -> Exact.ltb a c = true.
Proof. rewrite !Exact_ltb_lt. apply Qlt_trans. Qed.

Section Claims_loaded_grid.
Import MetBuild.

Lemma codes_get_double_array_length {T : Type} {scalar : Scalar T}
    (decoded : list T) (n : nat) :
  length (codes_get_double_array decoded (resize [] n)) = n.
Proof.
  unfold codes_get_double_array, resize.
  rewrite firstn_nil. cbn [app length]. rewrite Nat.sub_0_r.
  rewrite length_app, length_firstn, length_skipn, repeat_length. lia.
Qed.

(** After [readCoordinates] on a freshly constructed object, both arrays
    hold [m_size] values. *)
Lemma readCoordinates_lengths {T : Type} {scalar : Scalar T}
    (this : Grib T) (handle : codes_handle T) :
  m_latitude this = [] -> m_longitude this = [] -> (0 < m_size this)%nat ->
  let g := readCoordinates this handle in
  length (m_latitude g) = m_size this /\
  length (m_longitude g) = m_size this /\
  m_ni g = m_ni this.
Proof.
  intros Hlat Hlon Hsize. unfold readCoordinates. rewrite Hlat. cbn [m_longitude].
  rewrite Hlon. cbn [m_latitude m_longitude m_ni m_size m_convention].
  split; [apply codes_get_double_array_length|]. split; [|reflexivity].
  destruct (m_convention this =? 0)%Z; [rewrite length_map|];
    apply codes_get_double_array_length.
Qed.

(** C4, as the code has it by design.  For a message with [1 <= Ni] and at
    least [Ni] points, the grid loads, and its corner list has four corners in
    the order lower-left, lower-right, top-right, top-left: the lower-left
    corner holds the minimum of the last [Ni] longitudes and of the last [Ni]
    latitudes, the lower-right corner their maxima, and the two top corners
    hold longitudes and latitudes of the first row. *)
Theorem Grib_corners (handle : codes_handle float) :
  (1 <= h_Ni handle <= Z.of_nat (h_size handle))%Z ->
  exists (g : Grib float) xll yll xlr ylr xtr ytr xtl ytl,
    Grib_new handle = Some g /\
    m_corners g
    = [ {| px := xll; py := yll |}; {| px := xlr; py := ylr |};
        {| px := xtr; py := ytr |}; {| px := xtl; py := ytl |} ] /\
    is_minimum xll (last_row g (m_longitude g)) /\
    is_minimum yll (last_row g (m_latitude g)) /\
    is_maximum xlr (last_row g (m_longitude g)) /\
    is_maximum ylr (last_row g (m_latitude g)) /\
    In xtr (first_row g (m_longitude g)) /\
    In ytr (first_row g (m_latitude g)) /\
    In xtl (first_row g (m_longitude g)) /\
    In ytl (first_row g (m_latitude g)).
Proof.
  intros Hni. unfold Grib_new, initialize.
  set (this1 := {| m_ni := h_Ni handle; m_nj := h_Nj handle; m_size := h_size handle;
                   m_convention := m_convention Grib_members;
                   m_latitude := m_latitude Grib_members;
                   m_longitude := m_longitude Grib_members;
                   m_corners := m_corners Grib_members |}).
  destruct (@readCoordinates_lengths float _ this1 handle eq_refl eq_refl)
    as [Hlat [Hlon Hn]]; [cbn; lia|].
  set (g := readCoordinates this1 handle) in *.
  cbn [m_size m_ni this1] in Hlat, Hlon, Hn.
  destruct (@findCorners_corners float Scalar_double Double_ltb_irrefl Double_ltb_trans g)
    as (xll & yll & xlr & ylr & xtr & ytr & xtl & ytl & E & Hrest).
  { rewrite Hn, Hlon. exact Hni. }
  { rewrite Hlat, Hlon. reflexivity. }
  rewrite E. cbn [obind].
  eexists. exists xll, yll, xlr, ylr, xtr, ytr, xtl, ytl.
  split; [reflexivity|]. split; [reflexivity|]. exact Hrest.
Qed.

Lemma Grib_corners_witness :
  exists (g : Grib float) xll yll xlr ylr xtr ytr xtl ytl,
    Grib_new north_first = Some g /\
    m_corners g
    = [ {| px := xll; py := yll |}; {| px := xlr; py := ylr |};
        {| px := xtr; py := ytr |}; {| px := xtl; py := ytl |} ] /\
    is_minimum xll (last_row g (m_longitude g)) /\
    is_minimum yll (last_row g (m_latitude g)) /\
    is_maximum xlr (last_row g (m_longitude g)) /\
    is_maximum ylr (last_row g (m_latitude g)) /\
    In xtr (first_row g (m_longitude g)) /\
    In ytr (first_row g (m_latitude g)) /\
    In xtl (first_row g (m_longitude g)) /\
    In ytl (first_row g (m_latitude g)).
Proof.
  apply (Grib_corners north_first). cbn. lia.
Defined.

End Claims_loaded_grid.

Section Counterexamples_corners.
Import MetBuild.
Local Open Scope float_scope.

(** C4 as stated fails.  On the grid whose first row is the southern one,
    the corner list runs clockwise (its signed area is negative), and so does
    the list made of the minima and maxima over the full first and last
    rows. *)
Lemma findCorners_clockwise_counterexample :
  exists (g : Grib float) (c c' : list (Point float)),
    Grib_new south_first = Some g /\
    m_corners g = c /\
    findCorners g = Some c /\
    c = [ {| px := 0; py := 1 |}; {| px := 2; py := 1 |};
          {| px := 1; py := 0 |}; {| px := 0; py := 0 |} ] /\
    signed_area2 c = -3 /\
    counter_clockwise c = false /\
    spec_corners g = Some c' /\
    counter_clockwise c' = false.
Proof.
  do 3 eexists. split; [reflexivity|]. repeat split; reflexivity.
Qed.

(** The first row is scanned over [Ni - 1] elements only: on the grid whose
    first row is the northern one, the top-right corner has longitude 1, the
    maximum of the first two longitudes, where the maximum of the first three
    is 2.  The last row is scanned over all [Ni] elements. *)
Lemma findCorners_first_row_off_by_one :
  exists g : Grib float,
    Grib_new north_first = Some g /\
    m_corners g = [ {| px := 0; py := 0 |}; {| px := 2; py := 0 |};
                    {| px := 1; py := 1 |}; {| px := 0; py := 1 |} ] /\
    spec_corners g = Some [ {| px := 0; py := 0 |}; {| px := 2; py := 0 |};
                            {| px := 2; py := 1 |}; {| px := 0; py := 1 |} ] /\
    maximum (first_row g (m_longitude g)) = Some 2 /\
    counter_clockwise (m_corners g) = true.
Proof. eexists. split; [reflexivity|]. repeat split; reflexivity. Qed.

End Counterexamples_corners.

(** ** The theorems at concrete inputs *)
Section Witnesses.
Import MetBuild Instances.

Lemma linear_exactness_exact_witness :
  exists r,
    interpolate
      [fst (get_interpolation_weight_hint (cgal := Instances.located (FACE, unit_face_Q))
              unit_triangulation_Q {| x := (1 # 4)%Q; y := (1 # 4)%Q |} t_LookupHint_default)]
      [1; 3; 4]%Q
    = Some [r] /\
    (r == Spec.affine 2 3 1 {| x := (1 # 4)%Q; y := (1 # 4)%Q |})%Q.
Proof.
  apply (@linear_exactness_exact (Instances.located (FACE, unit_face_Q))
           unit_triangulation_Q {| x := (1 # 4)%Q; y := (1 # 4)%Q |} t_LookupHint_default
           FACE unit_face_Q 2 3 1 [1; 3; 4]%Q 1 3 4)%Q.
  - reflexivity.
  - left; reflexivity.
  - vm_compute. discriminate.
  - reflexivity.
  - reflexivity.
  - reflexivity.
  - reflexivity.
  - reflexivity.
  - reflexivity.
Defined.


Lemma build_contract_witness :
  (build KdtreePrivate_default [1; 2]%float [1]%float
   = (1%Z, KdtreePrivate_default)) /\
  (build KdtreePrivate_default [1; 2]%float [3; 4]%float
   = (0%Z,
      {| m_initialized := true;
         m_cloud := [ {| cx := 1; cy := 3 |}; {| cx := 2; cy := 4 |} ]%float;
         m_tree :=
           Some {| kd_dim := 2;
                   kd_dataset := [ {| cx := 1; cy := 3 |}; {| cx := 2; cy := 4 |} ]%float;
                   kd_leaf_max_size := 10;
                   kd_root :=
                     Some (buildIndex 2
                             [ {| cx := 1; cy := 3 |}; {| cx := 2; cy := 4 |} ]%float
                             10) |} |})).
Proof.
  split.
  - exact (proj1 (proj1 (build_contract KdtreePrivate_default [1; 2]%float [1]%float)
                    (fun E : 2 = 1 => O_S 0 (eq_sym (eq_add_S _ _ E))))).
  - exact (proj1 (proj2 (build_contract KdtreePrivate_default [1; 2]%float [3; 4]%float)
                    eq_refl)).
Defined.

Lemma fresh_triangulation_has_no_triangles_witness :
  let this := {| m_triangulation :=
                   add_mesh_points (cgal := Instances.input_order FACE) t_CDT_empty
                     (input_points [0; 1; 0] [0; 0; 1])%float |} in
  Forall (fun f => finfo f = FaceInfo2_default /\ is_in_domain (finfo f) = false)
         (finite_faces (m_triangulation this)) /\
  get_triangles this = [] /\
  (forall poly this',
      apply_constraint_polygon (cgal := Instances.input_order FACE) this poly = Ok this' ->
      get_triangles this'
      = map triple_of
          (marked_faces (cgal := Instances.input_order FACE)
             (insert_constraint (CGAL := Instances.input_order FACE)
                (m_triangulation this) poly))).
Proof.
  exact (@fresh_triangulation_has_no_triangles float Scalar_double
           (Instances.input_order FACE) [0; 1; 0]%float [0; 0; 1]%float _ eq_refl).
Defined.

(** After a constraint polygon, the faces that domain marking flags are
    listed. *)
Lemma triangles_after_constraint :
  exists this this' : Triangulation float,
    Triangulation_new (cgal := Instances.input_order FACE)
      [0; 1; 0]%float [0; 0; 1]%float = Ok this /\
    get_triangles this = [] /\
    apply_constraint_polygon_xy (cgal := Instances.input_order FACE) this
      [0; 1; 0]%float [0; 0; 1]%float = Ok this' /\
    get_triangles this' = [(0, 1, 2)%Z].
Proof. do 2 eexists. repeat split; reflexivity. Qed.


End Witnesses.

(** * Further properties of the code *)

(** ** Two-dimensional views of a value array *)
Section More_grib.
Import MetBuild.
Context {T : Type} {scalar : Scalar T}.

Lemma repeat_shape {A} (a : A) (rows cols : nat) :
  has_shape (repeat (repeat a cols) rows) rows cols /\
  forall r c, r < rows -> c < cols ->
    cell (repeat (repeat a cols) rows) r c = Some a.
Proof.
  split.
  - split; [apply repeat_length|]. apply Forall_forall. intros x Hx.
    apply repeat_spec in Hx. subst x. apply repeat_length.
  - intros r c Hr Hc. unfold cell. rewrite nth_error_repeat by assumption.
    cbn [obind]. apply nth_error_repeat. assumption.
Qed.

Lemma set2d_spec (arr2d : list (list T)) rows cols r c (a : T) :
  has_shape arr2d rows cols ->
  (r < rows -> c < cols ->
   exists arr, set2d arr2d r c a = Some arr /\ has_shape arr rows cols /\
     forall r' c', cell arr r' c'
                   = if ((r' =? r) && (c' =? c))%nat
                     then Some a else cell arr2d r' c') /\
  (rows <= r -> set2d arr2d r c a = None).
Proof.
  intros [Hl Hf]. split.
  - intros Hr Hc. unfold set2d.
    destruct (nth_error arr2d r) as [row|] eqn:E;
      [|apply nth_error_None in E; lia].
    cbn [obind].
    assert (Hrow : length row = cols).
    { rewrite Forall_forall in Hf. apply Hf. eapply nth_error_In; exact E. }
    destruct (list_set_spec row c a) as [[row' [E1 [L1 N1]]] _]; [lia|].
    rewrite E1. cbn [obind].
    destruct (list_set_spec arr2d r row') as [[arr [E2 [L2 N2]]] _]; [lia|].
    rewrite E2. exists arr. split; [reflexivity|]. split.
    + split; [lia|]. apply Forall_forall. intros x Hx.
      apply In_nth_error in Hx. destruct Hx as [k Hk]. rewrite N2 in Hk.
      destruct (k =? r)%nat.
      * injection Hk as <-. lia.
      * rewrite Forall_forall in Hf. apply Hf. eapply nth_error_In; exact Hk.
    + intros r' c'. unfold cell. rewrite N2.
      destruct (r' =? r)%nat eqn:Er; cbn [andb obind].
      * rewrite N1. apply Nat.eqb_eq in Er. subst r'. rewrite E. cbn [obind].
        reflexivity.
      * reflexivity.
  - intros Hr. unfold set2d.
    destruct (nth_error arr2d r) eqn:E; [|reflexivity].
    assert (r < length arr2d) by (apply nth_error_Some; congruence). lia.
Qed.

Lemma divmod_cell (nj r c k : nat) :
  0 < nj -> c < nj ->
  ((r =? k / nj) && (c =? k mod nj))%nat = (r * nj + c =? k)%nat.
Proof.
  intros Hnj Hc.
  destruct (r * nj + c =? k)%nat eqn:E.
  - apply Nat.eqb_eq in E. subst k.
    rewrite Nat.div_add_l, Nat.div_small, Nat.add_0_r by lia.
    rewrite Nat.add_comm, Nat.Div0.mod_add, Nat.mod_small by lia.
    rewrite !Nat.eqb_refl. reflexivity.
  - apply Nat.eqb_neq in E. apply andb_false_iff.
    destruct (Nat.eq_dec r (k / nj)) as [Hr|Hr];
      [|left; apply Nat.eqb_neq; exact Hr].
    right. apply Nat.eqb_neq. intros Hc'. apply E.
    rewrite Hr, Hc', Nat.mul_comm. symmetry. apply Nat.div_mod_eq.
Qed.

(** The loop of [mapTo2d], after its first [m] iterations. *)
Lemma mapTo2d_loop (v : list T) (ni nj m : nat) :
  0 < nj -> m <= length v -> m <= ni * nj ->
  exists arr,
    fold_left
      (fun acc i =>
         arr2d <- acc ;;
         if (nj =? 0)%nat then None
         else a <- nth_error v i ;; set2d arr2d (i / nj) (i mod nj) a)
      (seq 0 m) (Some (repeat (repeat (of_Z 0) nj) ni)) = Some arr /\
    has_shape arr ni nj /\
    forall r c, r < ni -> c < nj ->
      cell arr r c
      = Some (if (r * nj + c <? m)%nat then nth (r * nj + c) v (of_Z 0) else of_Z 0).
Proof.
  intros Hnj. induction m as [|m IH]; intros Hm Hm'.
  - cbn [seq fold_left]. eexists; split; [reflexivity|].
    destruct (repeat_shape (of_Z 0 : T) ni nj) as [Hs Hc]. split; [exact Hs|].
    intros r c Hr Hc'. rewrite Hc by assumption. reflexivity.
  - destruct IH as [arr [E [Hs Hcells]]]; [lia|lia|].
    rewrite seq_S, fold_left_app, E. cbn [fold_left Nat.add obind].
    destruct (nj =? 0)%nat eqn:E0; [apply Nat.eqb_eq in E0; lia|].
    destruct (nth_error v m) as [a|] eqn:Ea; [|apply nth_error_None in Ea; lia].
    cbn [obind].
    assert (Hdiv : m / nj < ni) by (apply Nat.Div0.div_lt_upper_bound; lia).
    assert (Hmod : m mod nj < nj) by (apply Nat.mod_upper_bound; lia).
    destruct (set2d_spec (m / nj) (m mod nj) a Hs) as [[arr' [E' [Hs' Hc']]] _];
      [assumption|assumption|].
    rewrite E'. exists arr'. split; [reflexivity|]. split; [exact Hs'|].
    intros r c Hr Hc. rewrite Hc', divmod_cell by assumption.
    destruct (r * nj + c =? m)%nat eqn:Ek.
    + apply Nat.eqb_eq in Ek. rewrite Ek.
      replace (m <? S m)%nat with true by (symmetry; apply Nat.ltb_lt; lia).
      rewrite (nth_error_nth _ _ _ Ea). reflexivity.
    + apply Nat.eqb_neq in Ek. rewrite Hcells by assumption.
      destruct (r * nj + c <? m)%nat eqn:E1;
        destruct (r * nj + c <? S m)%nat eqn:E2; try reflexivity.
      * apply Nat.ltb_lt in E1. apply Nat.ltb_ge in E2. lia.
      * apply Nat.ltb_ge in E1. apply Nat.ltb_lt in E2. lia.
Qed.

Lemma fold_left_None {A B} (f : option A -> B -> option A) (l : list B) :
  (forall b, f None b = None) -> fold_left f l None = None.
Proof.
  intros Hf. induction l as [|b l IH]; simpl; [reflexivity|]. rewrite Hf. exact IH.
Qed.

Lemma seq_shift_by (n s m : nat) :
  map (fun k => n + k) (seq s m) = seq (n + s) m.
Proof.
  revert s; induction m as [|m IH]; intros s; simpl; [reflexivity|].
  f_equal. rewrite IH. f_equal. lia.
Qed.

(** The rows of a matrix, one after the other. *)
Lemma concat_cells {A} (f : nat -> A) (nj : nat) (arr : list (list A)) (ni : nat) :
  has_shape arr ni nj ->
  (forall r c, r < ni -> c < nj -> cell arr r c = Some (f (r * nj + c))) ->
  concat arr = map f (seq 0 (ni * nj)).
Proof.
  revert f ni. induction arr as [|row arr IH]; intros f ni [Hl Hf] Hc.
  - simpl in Hl. subst ni. reflexivity.
  - simpl in Hl. destruct ni as [|ni]; [discriminate|]. injection Hl as Hl.
    inversion Hf as [|? ? Hrow Hrest]; subst.
    cbn [concat]. rewrite Nat.mul_succ_l, Nat.add_comm, seq_app, map_app.
    f_equal.
    + apply nth_error_ext. intros c.
      destruct (Nat.lt_ge_cases c (length row)) as [Hlt|Hge].
      * specialize (Hc 0 c (Nat.lt_0_succ _) Hlt). unfold cell in Hc.
        cbn [nth_error obind] in Hc. rewrite Hc.
        rewrite nth_error_map, nth_error_seq.
        replace (c <? length row)%nat with true by (symmetry; apply Nat.ltb_lt; lia).
        reflexivity.
      * rewrite (proj2 (nth_error_None _ _)) by assumption. symmetry.
        apply nth_error_None. rewrite length_map, length_seq. assumption.
    + rewrite (IH (fun k => f (length row + k)) (length arr)).
      * rewrite <- (map_map (fun k => length row + k) f). f_equal.
        rewrite seq_shift_by, Nat.add_0_r. reflexivity.
      * split; [reflexivity|assumption].
      * intros r c Hr Hc'.
        specialize (Hc (S r) c (proj1 (Nat.succ_lt_mono _ _) Hr) Hc').
        unfold cell in *. cbn [nth_error] in Hc. rewrite Hc. f_equal. f_equal. lia.
Qed.

(** [mapTo2d] on an array that fits.  With [nj > 0] and at most [ni * nj]
    values the call returns a matrix of [ni] rows of [nj] elements; value [k]
    sits in cell [(k / nj, k mod nj)]; the cells past the last value hold 0;
    and when the array has exactly [ni * nj] values, row [r] is the block
    of [nj] values that starts at [r * nj], so that the rows laid end to
    end are the array again. *)
Theorem mapTo2d_spec (v : list T) (ni nj : nat) :
  0 < nj -> length v <= ni * nj ->
  exists arr2d,
    mapTo2d v ni nj = Some arr2d /\
    has_shape arr2d ni nj /\
    (forall k a, nth_error v k = Some a ->
                 cell arr2d (k / nj) (k mod nj) = Some a) /\
    (forall r c, r < ni -> c < nj -> length v <= r * nj + c ->
                 cell arr2d r c = Some (of_Z 0)) /\
    (length v = ni * nj -> concat arr2d = v) /\
    (length v = ni * nj ->
     forall r, r < ni -> nth_error arr2d r = Some (firstn nj (skipn (r * nj) v))).
Proof.
  intros Hnj Hlen.
  destruct (@mapTo2d_loop v ni nj (length v) Hnj (le_n _) Hlen) as [arr [E [Hs Hc]]].
  exists arr. split; [exact E|]. split; [exact Hs|]. split; [|split; [|split]].
  - intros k a Hk.
    assert (Hk' : k < length v) by (apply nth_error_Some; congruence).
    assert (Hdiv : k / nj < ni) by (apply Nat.Div0.div_lt_upper_bound; lia).
    assert (Hmod : k mod nj < nj) by (apply Nat.mod_upper_bound; lia).
    rewrite Hc by assumption.
    replace (k / nj * nj + k mod nj) with k
      by (rewrite (Nat.div_mod_eq k nj) at 1; lia).
    replace (k <? length v)%nat with true by (symmetry; apply Nat.ltb_lt; lia).
    rewrite (nth_error_nth _ _ _ Hk). reflexivity.
  - intros r c Hr Hc' Hk. rewrite Hc by assumption.
    replace (r * nj + c <? length v)%nat with false
      by (symmetry; apply Nat.ltb_ge; lia).
    reflexivity.
  - intros Hfull.
    rewrite (@concat_cells T (fun k => nth k v (of_Z 0)) nj arr ni Hs).
    + rewrite <- Hfull. apply map_nth_seq_id.
    + intros r c Hr Hc'. rewrite Hc by assumption.
      replace (r * nj + c <? length v)%nat with true; [reflexivity|].
      symmetry. apply Nat.ltb_lt. nia.
  - intros Hfull r Hr. destruct Hs as [Hl Hf].
    destruct (nth_error arr r) as [row|] eqn:Er;
      [|apply nth_error_None in Er; lia].
    f_equal. apply nth_error_ext. intros c.
    assert (Hrow : length row = nj).
    { rewrite Forall_forall in Hf. apply Hf. eapply nth_error_In; exact Er. }
    rewrite nth_error_firstn.
    destruct (Nat.ltb_spec c nj) as [Hlt|Hge].
    + specialize (Hc r c Hr Hlt). unfold cell in Hc. rewrite Er in Hc.
      cbn [obind] in Hc. rewrite Hc, nth_error_skipn.
      replace (r * nj + c <? length v)%nat with true
        by (symmetry; apply Nat.ltb_lt; nia).
      symmetry. apply nth_error_nth'. nia.
    + apply nth_error_None. lia.
Qed.

(** [mapTo2d] leaves defined behaviour exactly when the array holds more
    than [ni * nj] values: a write beyond the last row, or, with [nj = 0]
    and a value to place, a division by zero. *)
Theorem mapTo2d_None_iff (v : list T) (ni nj : nat) :
  mapTo2d v ni nj = None <-> ni * nj < length v.
Proof.
  split.
  - intros E. destruct (Nat.lt_ge_cases (ni * nj) (length v)) as [H|H]; [exact H|].
    destruct nj as [|nj].
    + rewrite Nat.mul_0_r in H. destruct v; [|simpl in H; lia].
      discriminate E.
    + destruct (@mapTo2d_loop v ni (S nj) (length v)) as [arr [E' _]]; [lia|lia|lia|].
      unfold mapTo2d in E. congruence.
  - intros H. unfold mapTo2d.
    replace (length v) with (ni * nj + S (length v - ni * nj - 1)) by lia.
    rewrite seq_app, fold_left_app. cbn [seq fold_left Nat.add].
    destruct nj as [|nj].
    + rewrite Nat.mul_0_r. cbn [seq fold_left Nat.eqb].
      match goal with |- context [obind ?o _] => destruct o end;
        cbn [obind]; apply fold_left_None; reflexivity.
    + destruct (@mapTo2d_loop v ni (S nj) (ni * S nj)) as [arr [E [Hs _]]]; [lia|lia|lia|].
      rewrite E. cbn [obind Nat.eqb].
      destruct (nth_error v (ni * S nj)) as [a|] eqn:Ea;
        [|apply nth_error_None in Ea; lia].
      cbn [obind]. rewrite Nat.div_mul by lia.
      rewrite (proj2 (set2d_spec ni (ni * S nj mod S nj) a Hs)) by lia.
      apply fold_left_None. reflexivity.
Qed.

(** [indexToPair] and the flat index are inverse to each other: for
    [0 < Nj] the pair [(i, j)] of an index satisfies [index = i * Nj + j]
    with [j < Nj], and the index [i * Nj + j] of a pair with [j < Nj] is
    mapped back to [(i, j)]. *)
Theorem indexToPair_roundtrip (this : Grib T) (index : nat) :
  (0 < m_nj this < 2 ^ 64)%Z ->
  let nj := Z.to_nat (m_nj this) in
  (exists i j, indexToPair this index = Some (i, j) /\
               index = i * nj + j /\ j < nj) /\
  (forall i j, j < nj -> indexToPair this (i * nj + j) = Some (i, j)).
Proof.
  intros Hnj nj. unfold indexToPair, size_t_of_long.
  rewrite Z.mod_small by lia. fold nj.
  assert (Hpos : 0 < nj) by (unfold nj; lia).
  destruct (nj =? 0)%nat eqn:E0; [apply Nat.eqb_eq in E0; lia|].
  split.
  - exists (index / nj), (index mod nj). split; [reflexivity|]. split.
    + rewrite (Nat.div_mod_eq index nj) at 1. lia.
    + apply Nat.mod_upper_bound. lia.
  - intros i j Hj.
    rewrite Nat.div_add_l, Nat.div_small, Nat.add_0_r by lia.
    rewrite Nat.add_comm, Nat.Div0.mod_add, Nat.mod_small by lia.
    reflexivity.
Qed.

(** [longitude2d] and [indexToPair] agree: on a grid whose longitudes fit
    in [Ni * Nj], the matrix has [Ni] rows of [Nj] elements and the
    longitude at flat index [index] is found at the pair that
    [indexToPair] gives for it. *)
Theorem longitude2d_indexToPair (this : Grib T) :
  (0 < m_nj this < 2 ^ 64)%Z -> (0 <= m_ni this < 2 ^ 64)%Z ->
  (Z.of_nat (length (m_longitude this)) <= m_ni this * m_nj this)%Z ->
  exists arr2d,
    longitude2d this = Some arr2d /\
    has_shape arr2d (Z.to_nat (m_ni this)) (Z.to_nat (m_nj this)) /\
    forall index a, nth_error (m_longitude this) index = Some a ->
      exists i j, indexToPair this index = Some (i, j) /\ cell arr2d i j = Some a.
Proof.
  intros Hnj Hni Hlen. unfold longitude2d, indexToPair, size_t_of_long, mapTo2d.
  rewrite !Z.mod_small by lia.
  set (ni := Z.to_nat (m_ni this)). set (nj := Z.to_nat (m_nj this)).
  destruct (@mapTo2d_loop (m_longitude this) ni nj (length (m_longitude this)))
    as [arr [E [Hs Hc]]]; [unfold nj; lia|lia|unfold ni, nj; nia|].
  exists arr. split; [exact E|]. split; [exact Hs|].
  intros index a Ha.
  destruct (nj =? 0)%nat eqn:E0; [apply Nat.eqb_eq in E0; unfold nj in E0; lia|].
  eexists _, _. split; [reflexivity|].
  assert (Hk : index < length (m_longitude this)) by (apply nth_error_Some; congruence).
  assert (Hdiv : index / nj < ni)
    by (apply Nat.Div0.div_lt_upper_bound; unfold ni, nj; nia).
  assert (Hmod : index mod nj < nj) by (apply Nat.mod_upper_bound; unfold nj; lia).
  rewrite Hc by assumption.
  replace (index / nj * nj + index mod nj) with index
    by (rewrite (Nat.div_mod_eq index nj) at 1; lia).
  replace (index <? length (m_longitude this))%nat with true
    by (symmetry; apply Nat.ltb_lt; lia).
  rewrite (nth_error_nth _ _ _ Ha). reflexivity.
Qed.

End More_grib.

(** ** Messages of a file *)
Section More_messages.
Import MetBuild.
Context {T : Type} {scalar : Scalar T}.

(** The first conjunct of [isnotalpha] is implied by the second. *)
Lemma isnotalpha_isalnum (c : ascii) : isnotalpha c = negb (isalnum c).
Proof.
  unfold isnotalpha, isalnum. destruct (isalpha c); reflexivity.
Qed.

Lemma trim_left_if_padding (IsSpace : ascii -> bool) (pad rest : list ascii) :
  Forall (fun c => IsSpace c = true) pad ->
  trim_left_if IsSpace (pad ++ rest) = trim_left_if IsSpace rest.
Proof.
  induction 1 as [|c pad Hc _ IH]; [reflexivity|].
  cbn [app trim_left_if]. rewrite Hc. exact IH.
Qed.

Lemma trim_left_if_kept (IsSpace : ascii -> bool) (c : ascii) (rest : list ascii) :
  IsSpace c = false -> trim_left_if IsSpace (c :: rest) = c :: rest.
Proof. intros Hc. cbn [trim_left_if]. rewrite Hc. reflexivity. Qed.

Lemma trim_left_if_head (IsSpace : ascii -> bool) (s : list ascii) :
  match trim_left_if IsSpace s with
  | [] => True
  | c :: _ => IsSpace c = false
  end.
Proof.
  induction s as [|c s IH]; [exact I|]. cbn [trim_left_if].
  destruct (IsSpace c) eqn:E; [exact IH|exact E].
Qed.

Lemma trim_left_if_suffix (IsSpace : ascii -> bool) (s : list ascii) :
  exists pad, s = pad ++ trim_left_if IsSpace s.
Proof.
  induction s as [|c s [pad IH]]; [exists []; reflexivity|]. cbn [trim_left_if].
  destruct (IsSpace c); [|exists []; reflexivity].
  exists (c :: pad). cbn [app]. f_equal. exact IH.
Qed.

Lemma padding_trimmed (pad : list ascii) :
  padding pad -> Forall (fun c => isnotalpha c = true) pad.
Proof.
  unfold padding. apply Forall_impl. intros c Hc.
  rewrite isnotalpha_isalnum, Hc. reflexivity.
Qed.

Lemma trim_left_if_all (IsSpace : ascii -> bool) (pad : list ascii) :
  Forall (fun c => IsSpace c = true) pad -> trim_left_if IsSpace pad = [].
Proof.
  intros H. rewrite <- (app_nil_r pad). rewrite trim_left_if_padding by assumption.
  reflexivity.
Qed.

Lemma last_rev_hd {A} (l : list A) (d : A) : last (rev l) d = hd d l.
Proof.
  destruct l as [|a l]; [reflexivity|]. cbn [rev hd]. apply last_last.
Qed.

Lemma hd_rev_last {A} (l : list A) (d : A) : hd d (rev l) = last l d.
Proof. rewrite <- (rev_involutive l) at 2. rewrite last_rev_hd. reflexivity. Qed.

Lemma last_app_nonempty {A} (l1 l2 : list A) (d : A) :
  l2 <> [] -> last (l1 ++ l2) d = last l2 d.
Proof.
  intros H. induction l1 as [|a l1 IH]; [reflexivity|].
  cbn [app]. destruct (l1 ++ l2) eqn:E.
  - apply app_eq_nil in E. destruct E; contradiction.
  - rewrite <- E in *. rewrite <- IH. cbn [last]. rewrite E. reflexivity.
Qed.

(** What [make_handle] compares.  [trim_if] with [isnotalpha] strips
    exactly the characters that are neither letters nor digits around a
    string with alphanumeric ends: the terminating zero and the blanks of
    the buffer go, the inner characters stay. *)
Theorem trim_if_isnotalpha (pad1 core pad2 : list ascii) :
  padding pad1 -> padding pad2 -> alnum_ends core ->
  trim_if isnotalpha (string_of_list_ascii (pad1 ++ core ++ pad2))
  = string_of_list_ascii core.
Proof.
  intros H1 H2 Hcore. unfold trim_if, trim_right_if.
  rewrite list_ascii_of_string_of_list_ascii. f_equal.
  apply padding_trimmed in H1, H2.
  rewrite !rev_app_distr, <- app_assoc.
  rewrite trim_left_if_padding by (apply Forall_rev; exact H2).
  destruct core as [|c core].
  - cbn [rev app].
    rewrite (@trim_left_if_all isnotalpha (rev pad1)) by (apply Forall_rev; exact H1).
    reflexivity.
  - destruct Hcore as [Hc Hl].
    assert (E : trim_left_if isnotalpha (rev (c :: core) ++ rev pad1)
                = rev (c :: core) ++ rev pad1).
    { pose proof (hd_rev_last (c :: core) c) as Hh.
      destruct (rev (c :: core)) as [|l r] eqn:Er.
      - apply (f_equal (@length _)) in Er. rewrite length_rev in Er. discriminate.
      - cbn [hd] in Hh. cbn [app]. apply trim_left_if_kept.
        rewrite isnotalpha_isalnum, Hh, Hl. reflexivity. }
    rewrite E, rev_app_distr, !rev_involutive.
    rewrite trim_left_if_padding by exact H1.
    apply trim_left_if_kept. rewrite isnotalpha_isalnum, Hc. reflexivity.
Qed.

(** Whatever the buffer holds, the trimmed name is empty or has
    alphanumeric ends. *)
Lemma trim_if_alnum_ends (Input : string) :
  alnum_ends (list_ascii_of_string (trim_if isnotalpha Input)).
Proof.
  unfold trim_if, trim_right_if. rewrite list_ascii_of_string_of_list_ascii.
  set (s := list_ascii_of_string Input).
  pose proof (trim_left_if_head isnotalpha (rev s)) as H1.
  set (t := trim_left_if isnotalpha (rev s)) in *.
  pose proof (trim_left_if_head isnotalpha (rev t)) as H2.
  destruct (trim_left_if_suffix isnotalpha (rev t)) as [pad Hpad].
  set (r := trim_left_if isnotalpha (rev t)) in *.
  destruct r as [|c r]; [exact I|]. cbn [alnum_ends].
  rewrite isnotalpha_isalnum in H2. apply negb_false_iff in H2.
  split; [exact H2|].
  destruct t as [|a t].
  - destruct pad; discriminate Hpad.
  - rewrite isnotalpha_isalnum in H1. apply negb_false_iff in H1.
    rewrite <- (last_app_nonempty pad (l2 := c :: r) c) by discriminate.
    rewrite <- Hpad. rewrite last_rev_hd. cbn [hd]. exact H1.
Qed.

Lemma make_handle_Returns (file : list (grib_message T)) (name : string) h :
  make_handle file name = Returns h <->
  exists before after,
    file = before ++ h :: after /\
    trimmed_name h = name /\
    Forall (fun m => trimmed_name m <> name) before.
Proof.
  induction file as [|m file IH]; cbn [make_handle].
  - split; [discriminate|]. intros (before & after & E & _). destruct before; discriminate.
  - fold (trimmed_name m). destruct (String.eqb_spec (trimmed_name m) name) as [Hm|Hm].
    + split.
      * intros E. injection E as <-. exists [], file. repeat split; [assumption|constructor].
      * intros (before & after & E & Hh & Hb). destruct before as [|b before].
        -- injection E as -> _. reflexivity.
        -- injection E as -> _. inversion Hb; contradiction.
    + rewrite IH. split.
      * intros (before & after & -> & Hh & Hb). exists (m :: before), after.
        repeat split; [assumption|constructor; assumption].
      * intros (before & after & E & Hh & Hb). destruct before as [|b before].
        -- injection E as -> _. contradiction.
        -- injection E as -> ->. inversion Hb; subst. exists before, after.
           repeat split; assumption.
Qed.

Lemma make_handle_Raises (file : list (grib_message T)) (name : string) what :
  make_handle file name = Raises what <->
  what = "Could not generate the eccodes handle"%string /\
  Forall (fun m => trimmed_name m <> name) file.
Proof.
  induction file as [|m file IH]; cbn [make_handle].
  - split; [intros E; injection E as <-; split; [reflexivity|constructor]|].
    intros [-> _]. reflexivity.
  - fold (trimmed_name m). destruct (String.eqb_spec (trimmed_name m) name) as [Hm|Hm].
    + split; [discriminate|]. intros [_ H]. inversion H; contradiction.
    + rewrite IH. split; intros [Hw H]; (split; [exact Hw|]).
      * constructor; assumption.
      * inversion H; assumption.
Qed.

(** [make_handle] returns the first message of the file, in file order,
    whose trimmed short name equals [name]; it throws exactly when no
    message has that name. *)
Theorem make_handle_selects (file : list (grib_message T)) (name : string) :
  (forall h, make_handle file name = Returns h <->
             exists before after,
               file = before ++ h :: after /\
               trimmed_name h = name /\
               Forall (fun m => trimmed_name m <> name) before) /\
  (forall what, make_handle file name = Raises what <->
                what = "Could not generate the eccodes handle"%string /\
                Forall (fun m => trimmed_name m <> name) file).
Proof.
  split; [intros h; apply make_handle_Returns|intros what; apply make_handle_Raises].
Qed.

(** A requested name that begins or ends with a character other than a
    letter or a digit matches no message of any file: the trimmed short
    names never have such an end. *)
Theorem make_handle_padded_name (file : list (grib_message T)) (name : string) :
  ~ alnum_ends (list_ascii_of_string name) ->
  make_handle file name = Raises "Could not generate the eccodes handle".
Proof.
  intros Hname. apply make_handle_Raises. split; [reflexivity|].
  apply Forall_forall. intros m _ E. apply Hname. rewrite <- E.
  apply trim_if_alnum_ends.
Qed.

(** Opening a file needs a message named [prmsl]: the constructor throws
    exactly when the file has none, whatever else it holds; otherwise the
    grid is initialised from the first such message. *)
Theorem Grib_open_requires_prmsl (file : list (grib_message T)) :
  (forall what, Grib_open file = Raises what <->
                what = "Could not generate the eccodes handle"%string /\
                Forall (fun m => trimmed_name m <> "prmsl"%string) file) /\
  (forall r, Grib_open file = Returns r <->
             exists h, make_handle file "prmsl" = Returns h /\
                       r = Grib_new (msg_handle h)).
Proof.
  unfold Grib_open, Grib_new. split.
  - intros what. rewrite <- make_handle_Raises.
    destruct (make_handle file "prmsl"); split; intros E;
      try discriminate E; exact E || (injection E as <-; reflexivity).
  - intros r. destruct (make_handle file "prmsl") as [h|what|]; split.
    + intros E. injection E as <-. exists h. split; reflexivity.
    + intros [h' [E ->]]. injection E as <-. reflexivity.
    + discriminate.
    + intros [h' [E _]]. discriminate E.
    + discriminate.
    + intros [h' [E _]]. discriminate E.
Qed.

End More_messages.

(** ** The cache of value arrays *)
Section More_cache.
Import MetBuild.
Context {T : Type} {scalar : Scalar T}.

Lemma map_find_assign (m : t_map) (name other : string) (second : nat) :
  map_find (map_assign m name second) other
  = if String.eqb name other then Some second else map_find m other.
Proof.
  induction m as [|[k old] m IH]; cbn [map_assign map_find].
  - reflexivity.
  - destruct (String.eqb_spec k name) as [->|Hk]; cbn [map_find].
    + destruct (String.eqb name other); reflexivity.
    + rewrite IH. destruct (String.eqb_spec k other) as [->|Ho]; [|reflexivity].
      destruct (String.eqb_spec name other) as [->|]; [contradiction|reflexivity].
Qed.

Lemma codes_get_double_array_zeros (decoded : list T) (n : nat) :
  length (codes_get_double_array decoded (repeat (of_Z 0) n)) = n /\
  (length decoded = n ->
   codes_get_double_array decoded (repeat (of_Z 0) n) = decoded).
Proof.
  unfold codes_get_double_array. rewrite repeat_length. split.
  - rewrite length_app, length_firstn, length_skipn, repeat_length. lia.
  - intros <-. rewrite firstn_all, skipn_all2 by (rewrite repeat_length; lia).
    apply app_nil_r.
Qed.

(** [getGribArray1d] caches.  From a state whose map designates stored
    arrays, a call that returns leaves such a state, does not touch the
    grid, and returns an array that is stored under the name from then on:
    every array stored before is still stored, and every later call for
    the name returns the same array and the same state, whatever the file
    holds by then. *)
Theorem getGribArray1d_caches (this : Grib_values T) (file : list (grib_message T))
    (name : string) r this' :
  cache_ok this ->
  getGribArray1d this file name = Returns (r, this') ->
  cache_ok this' /\
  grib this' = grib this /\
  exists arr,
    r = Some arr /\
    cached this' name arr /\
    (forall other arr', cached this other arr' -> cached this' other arr') /\
    (forall file', getGribArray1d this' file' name = Returns (Some arr, this')).
Proof.
  intros Hok. unfold getGribArray1d.
  destruct (map_find (m_preread_value_map this) name) as [second|] eqn:Ef.
  - intros E. injection E as <- <-. split; [exact Hok|]. split; [reflexivity|].
    pose proof (Hok _ _ Ef) as Hlt.
    destruct (nth_error (m_preread_values this) second) as [arr|] eqn:En;
      [|apply nth_error_None in En; lia].
    exists arr. split; [reflexivity|]. split; [exists second; split; assumption|].
    split; [auto|]. intros file'. rewrite Ef, En. reflexivity.
  - destruct (make_handle file name) as [handle|what|]; [|discriminate|discriminate].
    destruct (m_size (grib this) <? length (msg_values handle))%nat; [discriminate|].
    set (arr := codes_get_double_array (msg_values handle)
                  (repeat (of_Z 0) (m_size (grib this)))).
    intros E. injection E as <- <-.
    rewrite last_last, length_app. cbn [length].
    replace (length (m_preread_values this) + 1 - 1)
      with (length (m_preread_values this)) by lia.
    split; [|split; [reflexivity|]].
    + intros other second. cbn [m_preread_value_map m_preread_values].
      rewrite map_find_assign, length_app. cbn [length].
      destruct (String.eqb name other).
      * intros E. injection E as <-. lia.
      * intros E. apply Hok in E. lia.
    + exists arr. split; [reflexivity|].
      assert (Hc : cached
                     {| grib := grib this;
                        m_preread_values := m_preread_values this ++ [arr];
                        m_preread_value_map :=
                          map_assign (m_preread_value_map this) name
                            (length (m_preread_values this)) |} name arr).
      { exists (length (m_preread_values this)).
        cbn [m_preread_value_map m_preread_values].
        rewrite map_find_assign, String.eqb_refl. split; [reflexivity|].
        rewrite nth_error_app2, Nat.sub_diag by lia. reflexivity. }
      split; [exact Hc|]. split.
      * intros other arr' [second [E1 E2]]. exists second.
        cbn [m_preread_value_map m_preread_values]. rewrite map_find_assign.
        destruct (String.eqb_spec name other) as [<-|Hne]; [congruence|].
        split; [exact E1|]. rewrite nth_error_app1; [exact E2|].
        apply nth_error_Some. congruence.
      * intros file'. destruct Hc as [second [E1 E2]]. rewrite E1, E2. reflexivity.
Qed.

Lemma skipn_repeat_sub {A} (a : A) (k n : nat) :
  skipn k (repeat a n) = repeat a (n - k).
Proof.
  revert k. induction n as [|n IH]; intros [|k]; cbn [repeat skipn Nat.sub];
    try reflexivity. apply IH.
Qed.

(** A first read.  For a name that is not cached the call throws when
    the file has no message of that name.  When the selected message holds
    more values than [m_size], the decoder reports an array that is too
    small and the checked call ends the process.  Otherwise the call returns
    [m_size] values: the values of the message, followed by zeros when the
    message holds fewer. *)
Theorem getGribArray1d_first_read (this : Grib_values T) (file : list (grib_message T))
    (name : string) :
  map_find (m_preread_value_map this) name = None ->
  match make_handle file name with
  | Raises what => getGribArray1d this file name = Raises what
  | Exits => getGribArray1d this file name = Exits
  | Returns handle =>
      let values := msg_values handle in
      (m_size (grib this) < length values ->
       getGribArray1d this file name = Exits) /\
      (length values <= m_size (grib this) ->
       exists this',
         getGribArray1d this file name
         = Returns (Some (values ++ repeat (of_Z 0) (m_size (grib this) - length values)),
                    this') /\
         length (values ++ repeat (of_Z 0) (m_size (grib this) - length values))
         = m_size (grib this))
  end.
Proof.
  intros Ef. unfold getGribArray1d. rewrite Ef.
  destruct (make_handle file name) as [handle|what|]; [|reflexivity|reflexivity].
  cbn zeta. split.
  - intros Hlt. apply Nat.ltb_lt in Hlt. rewrite Hlt. reflexivity.
  - intros Hle.
    replace (m_size (grib this) <? length (msg_values handle))%nat with false
      by (symmetry; apply Nat.ltb_ge; exact Hle).
    eexists. rewrite last_last. split.
    + unfold codes_get_double_array. rewrite repeat_length.
      rewrite firstn_all2 by exact Hle. rewrite skipn_repeat_sub. reflexivity.
    + rewrite length_app, repeat_length. lia.
Qed.

End More_cache.

(** ** Wind fields *)
Section More_wind.
Import MetBuild.WindData.
Context {T : Type} {scalar : Scalar T}.
Variable background_pressure : T.

(** A new field has [nj] rows of [ni] cells in each component; every wind
    cell holds 0 and every pressure cell the background pressure. *)
Theorem WindData_new_filled (ni nj : nat) :
  let this := WindData_new background_pressure ni nj in
  well_formed this /\ m_ni this = ni /\ m_nj this = nj /\
  forall i j, i < ni -> j < nj ->
    cell (u this) j i = Some (of_Z 0) /\
    cell (v this) j i = Some (of_Z 0) /\
    cell (p this) j i = Some background_pressure.
Proof.
  cbn zeta. unfold well_formed, u, v, p. cbn [WindData_new m_u m_v m_p m_ni m_nj].
  destruct (repeat_shape (of_Z 0 : T) nj ni) as [Hs Hc].
  destruct (repeat_shape background_pressure nj ni) as [Hs' Hc'].
  repeat split; try assumption; try reflexivity;
    try (apply Hs); try (apply Hs'); auto.
Qed.

Lemma set2d_writes (m : list (list T)) (rows cols i j : nat) (value : T) :
  has_shape m rows cols -> i < cols -> j < rows ->
  exists m', MetBuild.set2d m j i value = Some m' /\ has_shape m' rows cols /\
    cell m' j i = Some value /\
    forall i' j', (i', j') <> (i, j) -> cell m' j' i' = cell m j' i'.
Proof.
  intros Hs Hi Hj.
  destruct (set2d_spec j i value Hs) as [[m' [E [Hs' Hc]]] _]; [assumption|assumption|].
  exists m'. split; [exact E|]. split; [exact Hs'|]. split.
  - rewrite Hc, !Nat.eqb_refl. reflexivity.
  - intros i' j' Hne. rewrite Hc.
    destruct (Nat.eqb_spec j' j) as [->|]; [|reflexivity].
    destruct (Nat.eqb_spec i' i) as [->|]; [congruence|reflexivity].
Qed.

Ltac setter_cases this i j :=
  destruct (Nat.ltb_spec i (m_ni this)) as [Hi|Hi]; cbn [negb];
  [|split; [left; exact Hi|discriminate]];
  destruct (Nat.ltb_spec j (m_nj this)) as [Hj|Hj]; cbn [negb];
  [|split; [right; exact Hj|discriminate]].

(** The setters.  On a well-formed field [setU(i, j, value)] fails exactly
    when [i >= m_ni] or [j >= m_nj]; otherwise the field stays well formed
    with the same dimensions, cell [u[j][i]] holds [value], every other cell
    of [u] is as before, and [v] and [p] are untouched.  Likewise [setV]
    and [setP]. *)
Theorem setters_write_one_cell (this : WindData T) (i j : nat) (value : T) :
  well_formed this ->
  (writes_cell u this i j value (setU this i j value) /\
   forall this', setU this i j value = Some this' ->
                 v this' = v this /\ p this' = p this) /\
  (writes_cell v this i j value (setV this i j value) /\
   forall this', setV this i j value = Some this' ->
                 u this' = u this /\ p this' = p this) /\
  (writes_cell p this i j value (setP this i j value) /\
   forall this', setP this i j value = Some this' ->
                 u this' = u this /\ v this' = v this).
Proof.
  intros (Hu & Hv & Hp). unfold setU, setV, setP, u, v, p.
  split; [|split].
  - setter_cases this i j.
    destruct (set2d_writes value Hu Hi Hj) as (m' & E & Hs & Hc & Hf).
    rewrite E. cbn [obind writes_cell m_ni m_nj m_u m_v m_p].
    split; [|intros this' E'; injection E' as <-; split; reflexivity].
    unfold well_formed. cbn [m_ni m_nj m_u m_v m_p].
    repeat split; try assumption; apply Hs || apply Hv || apply Hp.
  - setter_cases this i j.
    destruct (set2d_writes value Hv Hi Hj) as (m' & E & Hs & Hc & Hf).
    rewrite E. cbn [obind writes_cell m_ni m_nj m_u m_v m_p].
    split; [|intros this' E'; injection E' as <-; split; reflexivity].
    unfold well_formed. cbn [m_ni m_nj m_u m_v m_p].
    repeat split; try assumption; apply Hs || apply Hu || apply Hp.
  - setter_cases this i j.
    destruct (set2d_writes value Hp Hi Hj) as (m' & E & Hs & Hc & Hf).
    rewrite E. cbn [obind writes_cell m_ni m_nj m_u m_v m_p].
    split; [|intros this' E'; injection E' as <-; split; reflexivity].
    unfold well_formed. cbn [m_ni m_nj m_u m_v m_p].
    repeat split; try assumption; apply Hs || apply Hu || apply Hv.
Qed.

End More_wind.

(** ** Variables of a data type *)
Section More_meteorology.
Import MetBuild.GriddedDataTypes MetBuild.Meteorology.

(** The two tables of [Meteorology.h] agree: for every data type the
    variable list has as many entries as [typeLengthMap] announces, and no
    variable occurs twice in it. *)
Theorem variable_list_length (type : TYPE) :
  Z.of_nat (length (generate_variable_list type)) = typeLengthMap type /\
  NoDup (generate_variable_list type).
Proof.
  destruct type; (split; [reflexivity|]);
    repeat constructor; simpl; intuition discriminate.
Qed.

End More_meteorology.

(** ** Queries of the spatial index *)
Section More_kdtree.
Import MetBuild.
Context {T : Type} {scalar : Scalar T} {nanoflann : Nanoflann T}.
Context {cmath : Cmath T} {search : Nanoflann_search T}.

Lemma KdtreePrivate_new_built (xs ys : list T) :
  length xs = length ys ->
  KdtreePrivate_new xs ys
  = {| m_initialized := true;
       m_cloud := packed xs ys;
       m_tree := Some {| kd_dim := 2;
                         kd_dataset := packed xs ys;
                         kd_leaf_max_size := 10;
                         kd_root := Some (buildIndex 2 (packed xs ys) 10) |} |}.
Proof.
  intros He.
  assert (Hfill : forall pts0 : list (CloudPoint T),
             fold_left
               (fun pts i =>
                  let pts1 := modify pts i
                                (fun p => {| cx := nth i xs (of_Z 0); cy := cy p |}) in
                  modify pts1 i (fun p => {| cx := cx p; cy := nth i ys (of_Z 0) |}))
               (seq 0 (length xs)) (cloud_resize pts0 (length xs))
             = packed xs ys).
  { intros pts0.
    exact (@fill_loop T scalar xs ys He (length xs) 0 [] (cloud_resize pts0 (length xs))
             eq_refl (cloud_resize_length _ _) eq_refl). }
  unfold KdtreePrivate_new, build.
  destruct (Nat.eqb_spec (length xs) (length ys)) as [_|Hne]; [|contradiction].
  cbn [negb]. rewrite !Hfill. reflexivity.
Qed.

Lemma packed_length (xs ys : list T) :
  length xs = length ys -> length (packed xs ys) = length xs.
Proof. intros He. unfold packed. rewrite length_map, length_combine. lia. Qed.

(** An index without a tree cannot be queried.  The constructor drops the
    result of [build], so vectors of different lengths yield an object
    whose [m_tree] is null, as the default constructor does; [findNearest]
    and [findXNearest] dereference it. *)
Theorem queries_need_a_built_index (xs ys : list T) (qx qy : T) (n : nat) :
  length xs <> length ys ->
  findNearest (KdtreePrivate_new xs ys) qx qy = None /\
  findXNearest (KdtreePrivate_new xs ys) qx qy n = None /\
  findNearest KdtreePrivate_default qx qy = None /\
  findXNearest KdtreePrivate_default qx qy n = None.
Proof.
  intros Hne. unfold KdtreePrivate_new, build.
  destruct (Nat.eqb_spec (length xs) (length ys)) as [He|_]; [contradiction|].
  repeat split; reflexivity.
Qed.

(** [findXNearest] on an index built from vectors of equal length.  The
    request is clamped to the number of points; the search runs on two
    arrays of that many zeros; the call returns that many pairs, pair [i]
    made of slot [i] of the index array and the square root of slot [i] of
    the distance array, in the order of the arrays. *)
Theorem findXNearest_spec (xs ys : list T) (qx qy : T) (n : nat) :
  length xs = length ys ->
  let n' := Nat.min (length xs) n in
  let r := findNeighbors (buildIndex 2 (packed xs ys) 10) qx qy
             (repeat 0 n') (repeat (of_Z 0) n') in
  findXNearest (KdtreePrivate_new xs ys) qx qy n
  = Some (combine (fst (fst r)) (map sqrt (snd (fst r)))) /\
  length (combine (fst (fst r)) (map sqrt (snd (fst r)))) = n'.
Proof.
  intros He n' r. rewrite (KdtreePrivate_new_built xs ys He).
  unfold findXNearest, tree_findNeighbors, size.
  cbn [m_tree m_cloud kd_root obind]. rewrite (packed_length xs ys He).
  fold n'. fold r.
  destruct (findNeighbors_length (buildIndex 2 (packed xs ys) 10) qx qy
              (repeat 0 n') (repeat (of_Z 0) n')) as [Hi Hd].
  fold r in Hi, Hd. rewrite !repeat_length in Hi, Hd.
  destruct r as [[index dist] count]. cbn [fst snd] in *.
  assert (Hlen : length (combine index (map sqrt dist)) = n')
    by (rewrite length_combine, length_map; lia).
  split; [|exact Hlen]. f_equal.
  apply nth_error_ext. intros i.
  rewrite nth_error_map, nth_error_seq.
  destruct (Nat.ltb_spec i n') as [Hlt|Hge].
  - cbn [option_map Nat.add]. symmetry.
    rewrite (nth_error_nth' _ (0, sqrt (of_Z 0))) by lia. f_equal.
    rewrite combine_nth by (rewrite length_map; lia).
    f_equal. apply map_nth.
  - cbn [option_map]. symmetry. apply nth_error_None. lia.
Qed.

End More_kdtree.

(** ** The weights as areas, in exact arithmetic *)
Section More_exact.
Context {cgal : CGAL Q}.
Local Open Scope Q_scope.

Lemma barycentric_area_ratios (V0 V1 V2 p : t_Point Q) :
  ~ cross V0 V1 V2 == 0 ->
  let w := Spec.barycentric V0 V1 V2 p in
  at3 w 0 == cross p V1 V2 / cross V0 V1 V2 /\
  at3 w 1 == cross V0 p V2 / cross V0 V1 V2 /\
  at3 w 2 == cross V0 V1 p / cross V0 V1 V2.
Proof.
  intros Hnd w. subst w.
  pose proof (gram_determinant_nonzero Hnd) as Hg. cbn zeta in Hg.
  unfold Spec.barycentric, Spec.dot, Spec.vsub, cross in *.
  destruct V0 as [x0 y0], V1 as [x1 y1], V2 as [x2 y2], p as [qx qy].
  cbn [at3 fst snd x y add sub mul div of_Z Scalar_Q] in *.
  change (inject_Z 1) with 1.
  repeat split; field; split; assumption.
Qed.

Lemma ratio_sign (n D : Q) : ~ D == 0 -> (0 <= n / D <-> 0 <= n * D).
Proof.
  intros HD.
  assert (Hsq : 0 < D * D).
  { destruct (Q_dec D 0) as [[H|H]|H]; [| |contradiction].
    - setoid_replace (D * D) with ((- D) * (- D)) by ring.
      apply Qmult_lt_0_compat; lra.
    - apply Qmult_lt_0_compat; assumption. }
  split; intros H.
  - setoid_replace (n * D) with (n / D * (D * D)) by (field; exact HD).
    apply Qmult_le_0_compat; lra.
  - setoid_replace (n / D) with (n * D * / (D * D)) by (field; exact HD).
    apply Qmult_le_0_compat; [exact H|]. apply Qlt_le_weak, Qinv_lt_0_compat, Hsq.
Qed.

(** In exact arithmetic the weights of a hit in a face that is not
    degenerate are the classical barycentric coordinates: weight [k] is the
    signed area of the triangle with vertex [k] replaced by the query
    point, over the signed area of the face; the weighted vertices
    reproduce the query point. *)
Theorem weights_are_area_ratios
    (this : Triangulation Q) (p : t_Point Q) (hint : t_LookupHint Q)
    (lt : Locate_type) (fh : t_Face Q) :
  located_by this p hint = (lt, fh) ->
  lt = FACE \/ lt = EDGE \/ lt = VERTEX ->
  let V0 := point (vertex fh 0) in
  let V1 := point (vertex fh 1) in
  let V2 := point (vertex fh 2) in
  ~ cross V0 V1 V2 == 0 ->
  let w := weights (fst (get_interpolation_weight_hint this p hint)) in
  (at3 w 0 == cross p V1 V2 / cross V0 V1 V2 /\
   at3 w 1 == cross V0 p V2 / cross V0 V1 V2 /\
   at3 w 2 == cross V0 V1 p / cross V0 V1 V2) /\
  at3 w 0 * x V0 + at3 w 1 * x V1 + at3 w 2 * x V2 == x p /\
  at3 w 0 * y V0 + at3 w 1 * y V1 + at3 w 2 * y V2 == y p.
Proof.
  intros Hloc Hhit V0 V1 V2 Hnd w. subst w.
  rewrite (get_interpolation_weight_hint_hit this p hint Hloc Hhit). cbn [fst weights].
  fold V0 V1 V2.
  destruct (@barycentric_area_ratios V0 V1 V2 p Hnd) as (E0 & E1 & E2).
  split; [repeat split; assumption|].
  rewrite E0, E1, E2. clear E0 E1 E2.
  unfold cross in *. destruct V0 as [x0 y0], V1 as [x1 y1], V2 as [x2 y2], p as [qx qy].
  cbn [x y] in *. split; field; exact Hnd.
Qed.

(** In exact arithmetic the three weights are non-negative exactly when
    the query point lies in the closed face, and then none exceeds 1. *)
Theorem weights_nonnegative_iff_inside
    (this : Triangulation Q) (p : t_Point Q) (hint : t_LookupHint Q)
    (lt : Locate_type) (fh : t_Face Q) :
  located_by this p hint = (lt, fh) ->
  lt = FACE \/ lt = EDGE \/ lt = VERTEX ->
  let V0 := point (vertex fh 0) in
  let V1 := point (vertex fh 1) in
  let V2 := point (vertex fh 2) in
  ~ cross V0 V1 V2 == 0 ->
  let w := weights (fst (get_interpolation_weight_hint this p hint)) in
  (inside_or_on V0 V1 V2 p <-> 0 <= at3 w 0 /\ 0 <= at3 w 1 /\ 0 <= at3 w 2) /\
  (inside_or_on V0 V1 V2 p -> at3 w 0 <= 1 /\ at3 w 1 <= 1 /\ at3 w 2 <= 1).
Proof.
  intros Hloc Hhit V0 V1 V2 Hnd w. subst w.
  rewrite (get_interpolation_weight_hint_hit this p hint Hloc Hhit). cbn [fst weights].
  fold V0 V1 V2.
  destruct (@barycentric_area_ratios V0 V1 V2 p Hnd) as (E0 & E1 & E2).
  assert (Hsum : at3 (Spec.barycentric V0 V1 V2 p) 0 + at3 (Spec.barycentric V0 V1 V2 p) 1
                 + at3 (Spec.barycentric V0 V1 V2 p) 2 == 1).
  { unfold Spec.barycentric. cbn [at3 add sub mul div of_Z Scalar_Q].
    change (inject_Z 1) with 1. ring. }
  assert (Hiff : inside_or_on V0 V1 V2 p <->
                 0 <= at3 (Spec.barycentric V0 V1 V2 p) 0 /\
                 0 <= at3 (Spec.barycentric V0 V1 V2 p) 1 /\
                 0 <= at3 (Spec.barycentric V0 V1 V2 p) 2).
  { unfold inside_or_on. rewrite E0, E1, E2.
    rewrite !(ratio_sign _ Hnd). reflexivity. }
  split; [exact Hiff|].
  intros Hin. apply Hiff in Hin. destruct Hin as (H0 & H1 & H2).
  repeat split; lra.
Qed.

(** In exact arithmetic a query at a vertex of the hit face gets weight 1
    on that vertex and 0 on the two others. *)
Theorem weights_at_a_vertex
    (this : Triangulation Q) (p : t_Point Q) (hint : t_LookupHint Q)
    (lt : Locate_type) (fh : t_Face Q) :
  located_by this p hint = (lt, fh) ->
  lt = FACE \/ lt = EDGE \/ lt = VERTEX ->
  let V0 := point (vertex fh 0) in
  let V1 := point (vertex fh 1) in
  let V2 := point (vertex fh 2) in
  ~ cross V0 V1 V2 == 0 ->
  let w := weights (fst (get_interpolation_weight_hint this p hint)) in
  (same_point p V0 -> at3 w 0 == 1 /\ at3 w 1 == 0 /\ at3 w 2 == 0) /\
  (same_point p V1 -> at3 w 0 == 0 /\ at3 w 1 == 1 /\ at3 w 2 == 0) /\
  (same_point p V2 -> at3 w 0 == 0 /\ at3 w 1 == 0 /\ at3 w 2 == 1).
Proof.
  intros Hloc Hhit V0 V1 V2 Hnd w. subst w.
  rewrite (get_interpolation_weight_hint_hit this p hint Hloc Hhit). cbn [fst weights].
  fold V0 V1 V2.
  destruct (@barycentric_area_ratios V0 V1 V2 p Hnd) as (E0 & E1 & E2).
  rewrite E0, E1, E2. clear E0 E1 E2.
  unfold same_point, cross in *.
  destruct V0 as [x0 y0], V1 as [x1 y1], V2 as [x2 y2], p as [qx qy].
  cbn [x y] in *.
  repeat split; destruct H as [Hx Hy]; rewrite Hx, Hy; field; exact Hnd.
Qed.

End More_exact.

(** ** Batch queries *)
Section More_batch.
Context {T : Type} {scalar : Scalar T} {cgal : CGAL T}.
Local Open Scope scalar_scope.

Lemma get_interpolation_weights_from_length (this : Triangulation T)
    (pts : list (t_Point T)) (hint : t_LookupHint T) :
  length (get_interpolation_weights_from this pts hint) = length pts.
Proof.
  revert hint. induction pts as [|p pts IH]; intros hint; [reflexivity|].
  cbn [get_interpolation_weights_from].
  destruct (get_interpolation_weight_hint this p hint) as [w hint'].
  cbn [length]. rewrite IH. reflexivity.
Qed.

Lemma weight_without_hint (this : Triangulation T) (p : t_Point T) (hint : t_LookupHint T) :
  start_independent this p ->
  fst (get_interpolation_weight_hint this p hint) = get_interpolation_weight this p.
Proof.
  intros Hloc. unfold get_interpolation_weight.
  rewrite !get_interpolation_weight_hint_unfold. unfold located_by.
  cbn [has_hint t_LookupHint_default].
  destruct (Hloc (if has_hint hint then face hint else None)) as [Hhit Hface].
  destruct (locate (m_triangulation this) p (if has_hint hint then face hint else None))
    as [lt fh].
  destruct (locate (m_triangulation this) p None) as [lt0 fh0].
  cbn [fst snd] in Hhit, Hface. rewrite Hhit.
  destruct (is_hit lt0); [|reflexivity].
  rewrite (Hface eq_refl). reflexivity.
Qed.

(** The batch query threads one lookup hint through its points, so each
    point is located from the face of the hit before it.  At the points
    where point location has one answer wherever it starts, that changes
    nothing: when every point of the batch is such a point, the batch
    returns at each point the weight of the single-point query. *)
Theorem get_interpolation_weights_pointwise (this : Triangulation T)
    (pts : list (t_Point T)) :
  (forall q, In q pts -> start_independent this q) ->
  get_interpolation_weights this pts = map (get_interpolation_weight this) pts.
Proof.
  unfold get_interpolation_weights.
  generalize (@t_LookupHint_default T). induction pts as [|p pts IH]; intros hint Hloc;
    [reflexivity|].
  cbn [get_interpolation_weights_from map].
  pose proof (weight_without_hint hint (Hloc p (or_introl eq_refl))) as E.
  destruct (get_interpolation_weight_hint this p hint) as [w hint'].
  cbn [fst] in E. rewrite E, IH; [reflexivity|].
  intros q Hq. apply Hloc. right. exact Hq.
Qed.

(** The batch query on coordinate vectors throws [invalid_argument]
    when the vectors differ in length; on fewer than 2^32 points of equal
    length it is the batch query on the points [(x[i], y[i])], with one
    weight per point. *)
Theorem get_interpolation_weights_xy_spec (this : Triangulation T) (xs ys : list T) :
  (length xs <> length ys ->
   get_interpolation_weights_xy this xs ys
   = Throw (invalid_argument "The number of x and y coordinates must be the same.")) /\
  (length xs = length ys -> (Z.of_nat (length xs) < 2 ^ UINT_WIDTH)%Z ->
   get_interpolation_weights_xy this xs ys
   = Ok (get_interpolation_weights this (input_points xs ys)) /\
   length (get_interpolation_weights this (input_points xs ys)) = length xs).
Proof.
  unfold get_interpolation_weights_xy. split.
  - intros Hne. destruct (Nat.eqb_spec (length xs) (length ys)); [contradiction|].
    reflexivity.
  - intros He Hn. pose proof (construct_points_ok xs ys He Hn) as Hc.
    unfold construct_points in Hc. rewrite He, Nat.eqb_refl in *. cbn [negb] in *.
    injection Hc as Hc. rewrite <- He in Hc |- *. rewrite Hc. split; [reflexivity|].
    unfold get_interpolation_weights.
    rewrite get_interpolation_weights_from_length. apply input_points_length. exact He.
Qed.

Lemma interpolate_None_iff (ws : list (InterpolationWeight T)) (values : list T) :
  interpolate ws values = None <->
  exists w, In w ws /\ interpolate_one values w = None.
Proof.
  induction ws as [|w ws IH]; cbn [interpolate].
  - split; [discriminate|]. intros [w [[] _]].
  - destruct (interpolate_one values w) as [r|] eqn:E; cbn [obind].
    + destruct (interpolate ws values) as [rs|] eqn:E'; cbn [obind].
      * split; [discriminate|]. intros [w' [[<-|Hin] Hw']]; [congruence|].
        discriminate (proj2 IH (ex_intro _ w' (conj Hin Hw'))).
      * split; [intros _|reflexivity].
        destruct IH as [IH _]. destruct (IH eq_refl) as [w' [Hin Hw']].
        exists w'. split; [right; exact Hin|exact Hw'].
    + split; [intros _|reflexivity]. exists w. split; [left; reflexivity|exact E].
Qed.

Lemma interpolate_one_None_iff (values : list T) (w : InterpolationWeight T) :
  interpolate_one values w = None <->
  valid w = true /\
  exists i, (i < 3)%nat /\ vec_at values (at3 (vertices w) i) = None.
Proof.
  unfold interpolate_one. destruct (valid w); cbn [negb].
  - destruct (vec_at values (at3 (vertices w) 0)) as [x0|] eqn:E0; cbn [obind].
    2:{ split; [intros _; split; [reflexivity|]; exists 0%nat; split; [lia|exact E0]|reflexivity]. }
    destruct (vec_at values (at3 (vertices w) 1)) as [x1|] eqn:E1; cbn [obind].
    2:{ split; [intros _; split; [reflexivity|]; exists 1%nat; split; [lia|exact E1]|reflexivity]. }
    destruct (vec_at values (at3 (vertices w) 2)) as [x2|] eqn:E2; cbn [obind].
    2:{ split; [intros _; split; [reflexivity|]; exists 2%nat; split; [lia|exact E2]|reflexivity]. }
    split; [discriminate|]. intros [_ [i [Hi Hn]]].
    destruct i as [|[|[|i]]]; [congruence|congruence|congruence|lia].
  - split; [discriminate|]. intros [H _]. discriminate H.
Qed.

(** Interpolating a batch: one value per query point, NaN at every miss;
    the call reads outside [values] exactly when a valid weight names a
    vertex outside it. *)
Theorem interpolate_batch (this : Triangulation T) (pts : list (t_Point T))
    (values : list T) :
  let ws := get_interpolation_weights this pts in
  length ws = length pts /\
  (interpolate ws values = None <->
   exists w i, In w ws /\ valid w = true /\ (i < 3)%nat /\
               vec_at values (at3 (vertices w) i) = None) /\
  (forall rs, interpolate ws values = Some rs ->
     length rs = length pts /\
     forall k w, nth_error ws k = Some w -> valid w = false ->
                 nth_error rs k = Some quiet_NaN).
Proof.
  intros ws. assert (Hl : length ws = length pts)
    by apply get_interpolation_weights_from_length.
  split; [exact Hl|]. split.
  - rewrite interpolate_None_iff. split.
    + intros [w [Hin Hw]]. apply interpolate_one_None_iff in Hw.
      destruct Hw as [Hv [i [Hi Hn]]]. exists w, i. auto.
    + intros [w [i [Hin [Hv [Hi Hn]]]]]. exists w. split; [exact Hin|].
      apply interpolate_one_None_iff. split; [exact Hv|]. exists i. auto.
  - intros rs E. split; [rewrite (interpolate_length _ _ E); exact Hl|].
    intros k w Hk Hv. destruct (interpolate_nth _ _ _ E Hk) as [r [Hr Hw]].
    rewrite (interpolate_one_invalid values w Hv) in Hw. congruence.
Qed.

End More_batch.

(** ** What the vertices store *)
Section More_vertices.
Context {T : Type} {scalar : Scalar T} {cgal : CGAL T}.

Lemma insert_point_names (vs : list (t_Vertex T)) (p : t_Point T) (i : unsigned)
    (P : t_Vertex T -> Prop) :
  (forall v, In v vs -> P v) ->
  (forall q, q = p \/ point_eqb q p = true -> P {| point := q; info := i |}) ->
  forall v, In v (insert_point vs p i) -> P v.
Proof.
  intros Hvs Hnew. induction vs as [|w vs IH]; cbn [insert_point].
  - intros v [<-|[]]. apply Hnew. left. reflexivity.
  - destruct (point_eqb (point w) p) eqn:E.
    + intros v [<-|Hv]; [apply Hnew; right; exact E|apply Hvs; right; exact Hv].
    + intros v [<-|Hv]; [apply Hvs; left; reflexivity|].
      apply IH; [|exact Hv]. intros u Hu. apply Hvs. right. exact Hu.
Qed.

Lemma inserted_names (pts : list (t_Point T)) (order : list nat) :
  (forall k, In k order -> k < length pts) ->
  forall v, In v (inserted pts order []) ->
    exists k p, info v = Z.of_nat k /\ nth_error pts k = Some p /\
                (point v = p \/ point_eqb (point v) p = true).
Proof.
  intros Hlt.
  assert (H : forall vs0,
             (forall v, In v vs0 ->
                exists k p, info v = Z.of_nat k /\ nth_error pts k = Some p /\
                            (point v = p \/ point_eqb (point v) p = true)) ->
             forall v, In v (inserted pts order vs0) ->
               exists k p, info v = Z.of_nat k /\ nth_error pts k = Some p /\
                           (point v = p \/ point_eqb (point v) p = true)).
  { induction order as [|k order IH]; intros vs0 H0; [exact H0|].
    cbn [inserted fold_left]. apply IH.
    - intros j Hj. apply Hlt. right. exact Hj.
    - apply insert_point_names; [exact H0|].
      intros q Hq. exists k, (nth k pts origin). cbn [info point].
      split; [reflexivity|]. split; [|exact Hq].
      apply nth_error_nth'. apply Hlt. left. reflexivity. }
  apply H. intros v [].
Qed.

Lemma inserted_present (pts : list (t_Point T)) (order : list nat) (k : nat) :
  In k order -> point_eqb (nth k pts origin) (nth k pts origin) = true ->
  forall vs0, present (inserted pts order vs0) (nth k pts origin).
Proof.
  intros Hk Hpp. induction order as [|j order IH]; [destruct Hk|].
  intros vs0. cbn [inserted fold_left]. destruct Hk as [->|Hk].
  - apply present_inserted. apply present_insert_self. exact Hpp.
  - apply IH. exact Hk.
Qed.

(** Every vertex carries the index of an input point that sits at the
    vertex, and every input point that compares equal to itself has a
    vertex. *)
Theorem vertices_name_input_points (xs ys : list T) (this : Triangulation T) :
  Triangulation_new xs ys = Ok this ->
  (Z.of_nat (length xs) < 2 ^ UINT_WIDTH)%Z ->
  let pts := input_points xs ys in
  let vs := finite_vertices (m_triangulation this) in
  (forall v, In v vs ->
     exists k p, info v = Z.of_nat k /\ nth_error pts k = Some p /\
                 (point v = p \/ point_eqb (point v) p = true)) /\
  (forall k p, nth_error pts k = Some p -> point_eqb p p = true -> present vs p) /\
  length vs <= length xs.
Proof.
  intros Hnew Hn pts vs.
  destruct (Triangulation_new_vertices xs ys Hnew Hn) as [Hlen Hvs].
  fold pts in Hvs. fold vs in Hvs.
  assert (Hpl : length pts = length xs) by (apply input_points_length; exact Hlen).
  pose proof (spatial_sort_perm pts) as Hperm.
  assert (Hlt : forall k, In k (spatial_sort pts) -> k < length pts).
  { intros k Hk. apply (Permutation_in _ Hperm) in Hk. apply in_seq in Hk. lia. }
  split; [|split].
  - rewrite Hvs. apply inserted_names. exact Hlt.
  - intros k p Hk Hpp. rewrite Hvs.
    assert (Hkl : k < length pts) by (apply nth_error_Some; congruence).
    rewrite <- (nth_error_nth _ _ origin Hk) in *.
    apply inserted_present; [|exact Hpp].
    apply (Permutation_in _ (Permutation_sym Hperm)). apply in_seq. lia.
  - rewrite Hvs. pose proof (inserted_length_le pts (spatial_sort pts) []) as H.
    rewrite (Permutation_length Hperm), length_seq in H. cbn [length] in H. lia.
Qed.

(** Whatever the triangulation went through, [get_vertices] returns as
    many points as there are finite vertices. *)
Lemma get_vertices_length (this : Triangulation T) (vs : list (t_Point T)) :
  get_vertices this = Some vs ->
  length vs = length (finite_vertices (m_triangulation this)).
Proof.
  intros E.
  change (get_vertices this)
    with (write_all (finite_vertices (m_triangulation this))
            (Some (repeat origin (length (finite_vertices (m_triangulation this)))))) in E.
  destruct (write_all_bounds (finite_vertices (m_triangulation this))
              (repeat origin (length (finite_vertices (m_triangulation this))))) as [_ Hl].
  rewrite (Hl vs E). apply repeat_length.
Qed.

Lemma inserted_last_stored (pts : list (t_Point T)) (order : list nat) :
  order <> [] ->
  exists v, In v (inserted pts order []) /\ info v = Z.of_nat (last order 0).
Proof.
  intros Hne. destruct (exists_last Hne) as [order' [l ->]].
  rewrite last_last, inserted_app. cbn [inserted fold_left].
  apply insert_point_stores.
Qed.

(** The index visited last is never overwritten: with fewer vertices than
    that index, [get_vertices] writes outside its vector. *)
Theorem get_vertices_last_visited (xs ys : list T) (this : Triangulation T) :
  Triangulation_new xs ys = Ok this ->
  (Z.of_nat (length xs) < 2 ^ UINT_WIDTH)%Z ->
  let pts := input_points xs ys in
  let vs := finite_vertices (m_triangulation this) in
  let l := last (spatial_sort pts) 0 in
  (exists v, In v vs /\ info v = Z.of_nat l) /\
  (length vs <= l -> get_vertices this = None) /\
  (has_duplicate pts -> l = length xs - 1 -> get_vertices this = None).
Proof.
  intros Hnew Hn pts vs l.
  destruct (Triangulation_new_vertices xs ys Hnew Hn) as [Hlen Hvs].
  fold pts in Hvs. fold vs in Hvs.
  assert (Hpl : length pts = length xs) by (apply input_points_length; exact Hlen).
  pose proof (spatial_sort_perm pts) as Hperm.
  assert (H3 : 3 <= length xs).
  { unfold Triangulation_new, construct_triangulation in Hnew.
    destruct (Nat.ltb_spec (length xs) 3); [discriminate|assumption]. }
  assert (Hne : spatial_sort pts <> []).
  { intros E. apply Permutation_length in Hperm. rewrite E, length_seq in Hperm.
    cbn [length] in Hperm. lia. }
  destruct (inserted_last_stored pts Hne) as [v [Hv Hi]].
  rewrite <- Hvs in Hv. fold l in Hi.
  assert (Hnone : length vs <= l -> get_vertices this = None).
  { intros Hle.
    change (get_vertices this) with (write_all vs (Some (repeat origin (length vs)))).
    destruct (write_all_bounds vs (repeat origin (length vs))) as [Hb _].
    apply Hb. exists v. split; [exact Hv|]. rewrite repeat_length.
    unfold in_bounds. rewrite Hi. lia. }
  split; [exists v; split; assumption|]. split; [exact Hnone|].
  intros Hdup Hl. apply Hnone.
  assert (length vs < length pts) by (rewrite Hvs; apply inserted_duplicate; assumption).
  lia.
Qed.

End More_vertices.

(** ** Longitudes and coordinates *)
Section More_longitude.
Import MetBuild.
Local Open Scope Q_scope.

Lemma trunc_unit_interval (q : Q) : 0 <= q -> q < 1 -> Exact.trunc q = 0%Z.
Proof.
  intros H0 H1. destruct (trunc_nonneg H0) as [Hl Hu].
  assert (Hk1 : inject_Z (Exact.trunc q) < inject_Z 1) by (change (inject_Z 1) with 1; lra).
  assert (Hk0 : inject_Z (-1) < inject_Z (Exact.trunc q))
    by (change (inject_Z (-1)) with (-1); lra).
  rewrite <- Zlt_Qlt in Hk1, Hk0. lia.
Qed.

(** In exact arithmetic the normalisation changes a longitude by a
    multiple of 360 degrees, leaves every longitude of [-180, 180) as it
    is, and is idempotent from -180 upwards. *)
Theorem wrap_longitude_exact_normal_form (v : Q) :
  (exists k : Z, wrap_longitude v == v - 360 * inject_Z k) /\
  (-180 <= v -> v < 180 -> wrap_longitude v == v) /\
  (-180 <= v -> wrap_longitude (wrap_longitude v) == wrap_longitude v).
Proof.
  assert (Hfix : forall u : Q, -180 <= u -> u < 180 -> wrap_longitude u == u).
  { intros u Hl Hu. unfold wrap_longitude.
    cbn [add sub fmod of_Z Scalar_Q]. unfold Exact.fmod.
    change (inject_Z 180) with 180. change (inject_Z 360) with 360.
    rewrite trunc_unit_interval.
    - change (inject_Z 0) with 0. ring.
    - apply Qle_shift_div_l; lra.
    - apply Qlt_shift_div_r; lra. }
  split; [|split].
  - exists (Exact.trunc ((v + 180) / 360)). unfold wrap_longitude.
    cbn [add sub fmod of_Z Scalar_Q]. unfold Exact.fmod.
    change (inject_Z 180) with 180. change (inject_Z 360) with 360. ring.
  - apply Hfix.
  - intros Hv.
    assert (Hr : -180 <= wrap_longitude v /\ wrap_longitude v < 180).
    { unfold wrap_longitude. cbn [add sub fmod of_Z Scalar_Q].
      change (inject_Z 180) with 180. change (inject_Z 360) with 360.
      destruct (@fmod_360_nonneg (v + 180)) as [H1 H2]; [lra|]. split; lra. }
    destruct Hr as [Hl Hu]. apply Hfix; assumption.
Qed.

End More_longitude.

Section More_coordinates.
Import MetBuild.
Context {T : Type} {scalar : Scalar T}.

Lemma codes_get_double_array_resize (decoded : list T) (n : nat) :
  length decoded = n -> codes_get_double_array decoded (resize [] n) = decoded.
Proof.
  intros <-. unfold codes_get_double_array, resize.
  rewrite firstn_nil. cbn [app length]. rewrite Nat.sub_0_r, repeat_length.
  rewrite firstn_all, skipn_all2 by (rewrite repeat_length; lia).
  apply app_nil_r.
Qed.

Lemma readCoordinates_fresh (this : Grib T) (handle : codes_handle T) :
  m_latitude this = [] -> m_longitude this = [] ->
  readCoordinates this handle
  = {| m_ni := m_ni this; m_nj := m_nj this; m_size := m_size this;
       m_convention := m_convention this;
       m_latitude :=
         codes_get_double_array (h_latitudes handle) (resize [] (m_size this));
       m_longitude :=
         (if (m_convention this =? 0)%Z
          then map wrap_longitude
                 (codes_get_double_array (h_longitudes handle) (resize [] (m_size this)))
          else codes_get_double_array (h_longitudes handle) (resize [] (m_size this)));
       m_corners := m_corners this |}.
Proof.
  intros Hlat Hlon. unfold readCoordinates. rewrite Hlat. cbn [m_longitude].
  rewrite Hlon. reflexivity.
Qed.

Lemma readCoordinates_loaded (this : Grib T) (handle : codes_handle T) :
  m_latitude this <> [] -> m_longitude this <> [] ->
  readCoordinates this handle = this.
Proof.
  intros Hlat Hlon. unfold readCoordinates.
  destruct (m_latitude this) eqn:E1; [contradiction|].
  destruct (m_longitude this) eqn:E2; [contradiction|]. reflexivity.
Qed.

(** The coordinates are read once: the latitudes as decoded, the
    longitudes wrapped one by one under convention 0; a later call leaves
    a non-empty grid as it is. *)
Theorem readCoordinates_reads_once (this : Grib T) (handle : codes_handle T) :
  m_latitude this = [] -> m_longitude this = [] ->
  length (h_latitudes handle) = m_size this ->
  length (h_longitudes handle) = m_size this ->
  let g := readCoordinates this handle in
  m_latitude g = h_latitudes handle /\
  m_longitude g = (if (m_convention this =? 0)%Z
                   then map wrap_longitude (h_longitudes handle)
                   else h_longitudes handle) /\
  (m_ni g, m_nj g, m_size g, m_convention g, m_corners g)
  = (m_ni this, m_nj this, m_size this, m_convention this, m_corners this) /\
  (0 < m_size this -> forall handle', readCoordinates g handle' = g).
Proof.
  intros Hlat Hlon Hl1 Hl2 g. subst g.
  rewrite (readCoordinates_fresh this handle Hlat Hlon).
  rewrite !codes_get_double_array_resize by assumption.
  cbn [m_latitude m_longitude m_ni m_nj m_size m_convention m_corners].
  split; [reflexivity|]. split; [reflexivity|]. split; [reflexivity|].
  intros Hs handle'. apply readCoordinates_loaded; cbn [m_latitude m_longitude].
  - intros E. rewrite E in Hl1. cbn [length] in Hl1. lia.
  - intros E. destruct (m_convention this =? 0)%Z.
    + apply (f_equal (@length T)) in E. rewrite length_map in E.
      cbn [length] in E. lia.
    + rewrite E in Hl2. cbn [length] in Hl2. lia.
Qed.

End More_coordinates.

Section More_corners.
Import MetBuild.
Context {T : Type} {scalar : Scalar T}.
Local Open Scope scalar_scope.

Hypothesis ltb_irrefl : forall a : T, (a <? a) = false.
Hypothesis ltb_trans :
  forall a b c : T, (a <? b) = true -> (b <? c) = true -> (a <? c) = true.

Lemma deref_first_exact (v : list T) (ni : Z) :
  (2 <= ni <= Z.of_nat (length v))%Z ->
  deref_min v 0 (0 + ni - 1) = minimum (firstn (Z.to_nat ni - 1) v) /\
  deref_max v 0 (0 + ni - 1) = maximum (firstn (Z.to_nat ni - 1) v).
Proof.
  intros Hni. unfold deref_min, deref_max. rewrite range_first by lia.
  cbn [obind Z.to_nat Nat.add]. unfold minimum, maximum.
  pose proof (min_element_lt ltb_irrefl ltb_trans (firstn (Z.to_nat ni - 1)%nat v)) as H1.
  pose proof (max_element_lt ltb_irrefl ltb_trans (firstn (Z.to_nat ni - 1)%nat v)) as H2.
  rewrite length_firstn in H1, H2.
  rewrite !nth_error_firstn.
  replace (_ <? _)%nat with true by (symmetry; apply Nat.ltb_lt; lia).
  replace (_ <? _)%nat with true by (symmetry; apply Nat.ltb_lt; lia).
  split; reflexivity.
Qed.

Lemma deref_first_single (v : list T) :
  deref_min v 0 (0 + 1 - 1) = nth_error v 0 /\
  deref_max v 0 (0 + 1 - 1) = nth_error v 0.
Proof.
  unfold deref_min, deref_max, range. cbn [Z.add Z.sub Z.opp Z.pos_sub Z.leb Z.compare andb].
  replace (0 <=? Z.of_nat (length v))%Z with true by (symmetry; apply Z.leb_le; lia).
  destruct v; split; reflexivity.
Qed.

Lemma findCorners_top_row (this : Grib T) corners :
  findCorners this = Some corners ->
  exists ll lr tr tl,
    corners = [ll; lr; tr; tl] /\
    ((2 <= m_ni this <= Z.of_nat (length (m_longitude this)))%Z ->
     (2 <= m_ni this <= Z.of_nat (length (m_latitude this)))%Z ->
     let n := (Z.to_nat (m_ni this) - 1)%nat in
     is_minimum (px tl) (firstn n (m_longitude this)) /\
     is_maximum (px tr) (firstn n (m_longitude this)) /\
     is_minimum (py tl) (firstn n (m_latitude this)) /\
     is_maximum (py tr) (firstn n (m_latitude this))) /\
    (m_ni this = 1%Z ->
     nth_error (m_longitude this) 0 = Some (px tl) /\
     nth_error (m_longitude this) 0 = Some (px tr) /\
     nth_error (m_latitude this) 0 = Some (py tl) /\
     nth_error (m_latitude this) 0 = Some (py tr)).
Proof.
  unfold findCorners.
  set (lon := m_longitude this). set (lat := m_latitude this).
  destruct (deref_min lon 0 (0 + m_ni this - 1)) as [xtl|] eqn:E1; [|discriminate].
  destruct (deref_max lon 0 (0 + m_ni this - 1)) as [xtr|] eqn:E2; [|discriminate].
  cbn [obind].
  destruct (deref_min lon (Z.of_nat (length lon) - m_ni this) _) as [xll|]; [|discriminate].
  destruct (deref_max lon (Z.of_nat (length lon) - m_ni this) _) as [xlr|]; [|discriminate].
  cbn [obind].
  destruct (deref_min lat 0 (0 + m_ni this - 1)) as [ytl|] eqn:E5; [|discriminate].
  destruct (deref_max lat 0 (0 + m_ni this - 1)) as [ytr|] eqn:E6; [|discriminate].
  cbn [obind].
  destruct (deref_min lat (Z.of_nat (length lat) - m_ni this) _) as [yll|]; [|discriminate].
  destruct (deref_max lat (Z.of_nat (length lat) - m_ni this) _) as [ylr|]; [|discriminate].
  cbn [obind]. intros E. injection E as <-.
  eexists _, _, _, _. split; [reflexivity|]. cbn [px py]. split.
  - intros Hlon Hlat. set (n := (Z.to_nat (m_ni this) - 1)%nat).
    destruct (deref_first_exact lon Hlon) as [F1 F2].
    destruct (deref_first_exact lat Hlat) as [F5 F6].
    rewrite F1 in E1. rewrite F2 in E2. rewrite F5 in E5. rewrite F6 in E6.
    fold n in E1, E2, E5, E6.
    assert (Hne : forall v : list T, (2 <= m_ni this <= Z.of_nat (length v))%Z ->
                                     firstn n v <> []).
    { intros v Hv E. apply (f_equal (@length T)) in E. rewrite length_firstn in E.
      cbn [length] in E. unfold n in E. lia. }
    destruct (minimum_spec ltb_irrefl ltb_trans (Hne lon Hlon)) as [m1 [M1 S1]].
    destruct (maximum_spec ltb_irrefl ltb_trans (Hne lon Hlon)) as [m2 [M2 S2]].
    destruct (minimum_spec ltb_irrefl ltb_trans (Hne lat Hlat)) as [m5 [M5 S5]].
    destruct (maximum_spec ltb_irrefl ltb_trans (Hne lat Hlat)) as [m6 [M6 S6]].
    replace xtl with m1 by congruence. replace xtr with m2 by congruence.
    replace ytl with m5 by congruence. replace ytr with m6 by congruence.
    repeat split; assumption || apply S1 || apply S2 || apply S5 || apply S6.
  - intros Hni. rewrite Hni in E1, E2, E5, E6.
    destruct (deref_first_single lon) as [F1 F2].
    destruct (deref_first_single lat) as [F5 F6].
    rewrite F1 in E1. rewrite F2 in E2. rewrite F5 in E5. rewrite F6 in E6.
    repeat split; assumption.
Qed.

End More_corners.

Section More_loaded_grid.
Import MetBuild.

Lemma Grib_new_lengths {T : Type} {scalar : Scalar T} (handle : codes_handle T) :
  let g := readCoordinates
             {| m_ni := h_Ni handle; m_nj := h_Nj handle; m_size := h_size handle;
                m_convention := 0; m_latitude := []; m_longitude := [];
                m_corners := [] |} handle in
  length (m_latitude g) = h_size handle /\
  length (m_longitude g) = h_size handle /\
  m_ni g = h_Ni handle.
Proof.
  intros g. subst g. rewrite readCoordinates_fresh by reflexivity.
  cbn [m_latitude m_longitude m_ni m_size m_convention Z.eqb].
  rewrite length_map, !codes_get_double_array_length. repeat split; reflexivity.
Qed.

(** The top corners, as the code computes them.  On a loaded grid with
    [Ni >= 2] the top-left corner holds the minimum and the top-right corner
    the maximum of the first [Ni - 1] longitudes and latitudes: element
    [Ni - 1] of the first row is not looked at.  With [Ni = 1] both top
    corners hold the first longitude and latitude. *)
Theorem Grib_top_corners (handle : codes_handle float) :
  (1 <= h_Ni handle <= Z.of_nat (h_size handle))%Z ->
  exists (g : Grib float) ll lr tr tl,
    Grib_new handle = Some g /\
    m_corners g = [ll; lr; tr; tl] /\
    ((2 <= h_Ni handle)%Z ->
     let n := (Z.to_nat (h_Ni handle) - 1)%nat in
     is_minimum (px tl) (firstn n (m_longitude g)) /\
     is_maximum (px tr) (firstn n (m_longitude g)) /\
     is_minimum (py tl) (firstn n (m_latitude g)) /\
     is_maximum (py tr) (firstn n (m_latitude g))) /\
    (h_Ni handle = 1%Z ->
     nth_error (m_longitude g) 0 = Some (px tl) /\
     nth_error (m_longitude g) 0 = Some (px tr) /\
     nth_error (m_latitude g) 0 = Some (py tl) /\
     nth_error (m_latitude g) 0 = Some (py tr)).
Proof.
  intros Hni. unfold Grib_new, initialize.
  destruct (Grib_new_lengths handle) as (Hlat & Hlon & Hn).
  cbn [Grib_members m_convention m_latitude m_longitude m_corners].
  set (g := readCoordinates _ handle) in *.
  destruct (@findCorners_corners float Scalar_double Double_ltb_irrefl Double_ltb_trans g)
    as (xll & yll & xlr & ylr & xtr & ytr & xtl & ytl & E & _).
  { rewrite Hn, Hlon. exact Hni. }
  { rewrite Hlat, Hlon. reflexivity. }
  destruct (@findCorners_top_row float Scalar_double Double_ltb_irrefl Double_ltb_trans g _ E)
    as (ll & lr & tr & tl & Ec & Htop & Hone).
  rewrite E. cbn [obind].
  eexists. exists ll, lr, tr, tl. cbn [m_corners m_longitude m_latitude].
  split; [reflexivity|]. split; [exact Ec|]. split.
  - intros H2. apply Htop; rewrite Hn; [rewrite Hlon|rewrite Hlat]; lia.
  - intros H1. apply Hone. rewrite Hn. exact H1.
Qed.

(** Loading a grid leaves defined behaviour exactly when [Ni < 1] or
    [Ni] exceeds the number of values: [findCorners] then forms an iterator
    range outside the coordinate arrays. *)
Theorem Grib_new_None_iff (handle : codes_handle float) :
  Grib_new handle = None <->
  (h_Ni handle < 1 \/ Z.of_nat (h_size handle) < h_Ni handle)%Z.
Proof.
  unfold Grib_new, initialize.
  destruct (Grib_new_lengths handle) as (Hlat & Hlon & Hn).
  cbn [Grib_members m_convention m_latitude m_longitude m_corners].
  set (g := readCoordinates _ handle) in *.
  split.
  - intros E.
    destruct (Z_lt_ge_dec (h_Ni handle) 1) as [H|H1]; [left; exact H|].
    destruct (Z_lt_ge_dec (Z.of_nat (h_size handle)) (h_Ni handle)) as [H|H2];
      [right; exact H|].
    exfalso.
    destruct (@findCorners_corners float Scalar_double Double_ltb_irrefl Double_ltb_trans g)
      as (xll & yll & xlr & ylr & xtr & ytr & xtl & ytl & E' & _).
    { rewrite Hn, Hlon. lia. }
    { rewrite Hlat, Hlon. reflexivity. }
    rewrite E' in E. discriminate E.
  - intros Hbad.
    assert (E : findCorners g = None).
    { unfold findCorners. rewrite Hn. destruct Hbad as [H|H].
      - unfold deref_min at 1. unfold range.
        replace (0 <=? 0 + h_Ni handle - 1)%Z with false
          by (symmetry; apply Z.leb_gt; lia).
        reflexivity.
      - destruct (deref_min (m_longitude g) 0 _); [|reflexivity].
        destruct (deref_max (m_longitude g) 0 _); [|reflexivity].
        cbn [obind]. unfold deref_min at 1. unfold range. rewrite Hlon.
        replace (0 <=? Z.of_nat (h_size handle) - h_Ni handle)%Z with false
          by (symmetry; apply Z.leb_gt; lia).
        reflexivity. }
    rewrite E. reflexivity.
Qed.

End More_loaded_grid.

(** ** Instances of the further properties *)
Section More_witnesses.
Import MetBuild Instances.

Lemma mapTo2d_spec_witness :
  exists arr2d,
    mapTo2d [1; 2; 3; 4; 5; 6]%float 2 3 = Some arr2d /\
    has_shape arr2d 2 3 /\
    concat arr2d = [1; 2; 3; 4; 5; 6]%float.
Proof.
  destruct (@mapTo2d_spec float _ [1; 2; 3; 4; 5; 6]%float 2 3)
    as (arr2d & E & Hs & _ & _ & Hc & _).
  - lia.
  - cbn. lia.
  - exists arr2d. split; [exact E|]. split; [exact Hs|]. apply Hc. reflexivity.
Defined.

Lemma indexToPair_roundtrip_witness :
  (exists i j, indexToPair south_first_grid 5 = Some (i, j) /\
               5 = i * 2 + j /\ j < 2) /\
  (forall i j, j < 2 -> indexToPair south_first_grid (i * 2 + j) = Some (i, j)).
Proof.
  apply (@indexToPair_roundtrip float south_first_grid 5). cbn. lia.
Defined.

Lemma longitude2d_indexToPair_witness :
  exists arr2d,
    longitude2d south_first_grid = Some arr2d /\
    has_shape arr2d 3 2 /\
    forall index a, nth_error (m_longitude south_first_grid) index = Some a ->
      exists i j, indexToPair south_first_grid index = Some (i, j) /\
                  cell arr2d i j = Some a.
Proof.
  apply (@longitude2d_indexToPair float _ south_first_grid); cbn; lia.
Defined.

Lemma trim_if_isnotalpha_witness :
  trim_if isnotalpha
    (string_of_list_ascii ([] ++ list_ascii_of_string "prmsl" ++ [NUL; " "%char]))
  = string_of_list_ascii (list_ascii_of_string "prmsl").
Proof.
  apply trim_if_isnotalpha.
  - constructor.
  - repeat constructor.
  - split; reflexivity.
Defined.

Lemma make_handle_padded_name_witness :
  make_handle sample_file "prmsl "
  = Raises "Could not generate the eccodes handle".
Proof.
  apply make_handle_padded_name. intros [_ H]. discriminate H.
Defined.

Lemma getGribArray1d_caches_witness :
  exists arr this',
    getGribArray1d nothing_cached sample_file "10u" = Returns (Some arr, this') /\
    arr = [1; 2; 3; 4; 5; 6]%float /\
    cache_ok this' /\
    forall file', getGribArray1d this' file' "10u" = Returns (Some arr, this').
Proof.
  eexists _, _. split; [reflexivity|]. split; [reflexivity|].
  match goal with
  | |- cache_ok ?t /\ _ =>
      destruct (@getGribArray1d_caches float _ nothing_cached sample_file "10u"
                  (Some [1; 2; 3; 4; 5; 6]%float) t)
        as (Hok & _ & arr & Er & _ & _ & Hhit)
  end.
  - intros name second E. discriminate E.
  - reflexivity.
  - split; [exact Hok|]. injection Er as <-. exact Hhit.
Defined.

Lemma getGribArray1d_first_read_witness :
  (exists this',
     getGribArray1d nothing_cached sample_file "10u"
     = Returns (Some [1; 2; 3; 4; 5; 6]%float, this')) /\
  getGribArray1d nothing_cached sample_file "tp" = Exits.
Proof.
  split.
  - destruct (proj2 (@getGribArray1d_first_read float _ nothing_cached sample_file "10u"
                       eq_refl) (le_n 6)) as [this' [E _]].
    exists this'. exact E.
  - apply (proj1 (@getGribArray1d_first_read float _ nothing_cached sample_file "tp"
                    eq_refl)).
    apply le_n.
Defined.

Lemma setters_write_one_cell_witness :
  let this := WindData.WindData_new 1013%float 3 2 in
  exists this',
    WindData.setU this 2 1 7%float = Some this' /\
    cell (WindData.u this') 1 2 = Some 7%float /\
    WindData.v this' = WindData.v this /\ WindData.p this' = WindData.p this /\
    WindData.setU this 3 1 7%float = None.
Proof.
  intros this.
  assert (Hwf : well_formed this).
  { unfold well_formed, has_shape. cbn. repeat split; repeat constructor. }
  destruct (setters_write_one_cell 2 1 7%float Hwf) as [[Hw Hframe] _].
  destruct (WindData.setU this 2 1 7%float) as [this'|] eqn:E; [|discriminate E].
  exists this'. split; [reflexivity|].
  destruct Hw as (_ & _ & _ & _ & _ & Hc & _). split; [exact Hc|].
  destruct (Hframe this' eq_refl) as [Hv Hp]. split; [exact Hv|]. split; [exact Hp|].
  reflexivity.
Defined.

Lemma queries_need_a_built_index_witness :
  findNearest (KdtreePrivate_new [0; 1]%float [0]%float) 0%float 0%float = None /\
  findXNearest (KdtreePrivate_new [0; 1]%float [0]%float) 0%float 0%float 1 = None /\
  findNearest (T := float) KdtreePrivate_default 0%float 0%float = None /\
  findXNearest (T := float) KdtreePrivate_default 0%float 0%float 1 = None.
Proof.
  apply queries_need_a_built_index. discriminate.
Defined.

Lemma findXNearest_spec_witness :
  findXNearest (KdtreePrivate_new [0; 3; 0]%float [0; 4; 1]%float) 0%float 0%float 5
  = Some [(0, 0%float); (2, 1%float); (1, 5%float)].
Proof.
  exact (proj1 (@findXNearest_spec float _ _ _ _ [0; 3; 0]%float [0; 4; 1]%float
                  0%float 0%float 5 eq_refl)).
Defined.

Lemma weights_are_area_ratios_witness :
  let p := {| x := (1 # 4)%Q; y := (1 # 2)%Q |} in
  let w := weights (fst (get_interpolation_weight_hint
                           (cgal := located (FACE, unit_face_Q))
                           unit_triangulation_Q p t_LookupHint_default)) in
  (at3 w 0 * 0 + at3 w 1 * 1 + at3 w 2 * 0 == x p)%Q /\
  (at3 w 0 * 0 + at3 w 1 * 0 + at3 w 2 * 1 == y p)%Q.
Proof.
  intros p w.
  refine (proj2 (@weights_are_area_ratios (located (FACE, unit_face_Q))
                   unit_triangulation_Q p t_LookupHint_default FACE unit_face_Q
                   eq_refl (or_introl eq_refl) _)).
  vm_compute. discriminate.
Defined.

Lemma weights_nonnegative_iff_inside_witness :
  let p := {| x := (1 # 4)%Q; y := (1 # 2)%Q |} in
  let w := weights (fst (get_interpolation_weight_hint
                           (cgal := located (FACE, unit_face_Q))
                           unit_triangulation_Q p t_LookupHint_default)) in
  (0 <= at3 w 0 /\ 0 <= at3 w 1 /\ 0 <= at3 w 2)%Q /\
  (at3 w 0 <= 1 /\ at3 w 1 <= 1 /\ at3 w 2 <= 1)%Q.
Proof.
  intros p w.
  assert (Hin : inside_or_on (point (vertex unit_face_Q 0)) (point (vertex unit_face_Q 1))
                  (point (vertex unit_face_Q 2)) p).
  { unfold inside_or_on. repeat split; vm_compute; discriminate. }
  destruct (@weights_nonnegative_iff_inside (located (FACE, unit_face_Q))
              unit_triangulation_Q p t_LookupHint_default FACE unit_face_Q
              eq_refl (or_introl eq_refl)) as [Hiff Hle].
  - vm_compute. discriminate.
  - split; [exact (proj1 Hiff Hin)|exact (Hle Hin)].
Defined.

Lemma weights_at_a_vertex_witness :
  let p := {| x := 1%Q; y := 0%Q |} in
  let w := weights (fst (get_interpolation_weight_hint
                           (cgal := located (VERTEX, unit_face_Q))
                           unit_triangulation_Q p t_LookupHint_default)) in
  (at3 w 0 == 0 /\ at3 w 1 == 1 /\ at3 w 2 == 0)%Q.
Proof.
  intros p w.
  destruct (@weights_at_a_vertex (located (VERTEX, unit_face_Q))
              unit_triangulation_Q p t_LookupHint_default VERTEX unit_face_Q
              eq_refl (or_intror (or_intror eq_refl))) as (_ & H1 & _).
  - vm_compute. discriminate.
  - apply H1. split; reflexivity.
Defined.

Lemma get_interpolation_weights_pointwise_witness :
  let pts := [ {| x := 0.75; y := 0.25 |}; {| x := 0.25; y := 0.75 |};
               {| x := 2; y := 2 |}; {| x := 0.5; y := 0.25 |} ]%float in
  get_interpolation_weights (cgal := walk) unit_square pts
  = map (get_interpolation_weight (cgal := walk) unit_square) pts /\
  map valid (get_interpolation_weights (cgal := walk) unit_square pts)
  = [true; true; false; true] /\
  map vertices (get_interpolation_weights (cgal := walk) unit_square pts)
  = [(0, 1, 2); (0, 2, 3); (0, 0, 0); (0, 1, 2)]%Z.
Proof.
  intros pts. split; [|split; reflexivity].
  apply (@get_interpolation_weights_pointwise float _ walk).
  intros q Hq start.
  destruct Hq as [<-|[<-|[<-|[<-|[]]]]];
    (destruct start as [f|]; [|split; reflexivity]);
    unfold locate, walk, walk_locate;
    cbn [m_triangulation unit_square finite_faces filter];
    destruct (same_face f square_lower); destruct (same_face f square_upper);
    split; try reflexivity; vm_compute; intros E; discriminate E.
Defined.

(** On the diagonal the hint decides: after a hit in the upper face the
    batch answers with the upper face, where the single-point query
    answers with the lower one. *)
Lemma get_interpolation_weights_hint_decides :
  let pts := [ {| x := 0.25; y := 0.75 |}; {| x := 0.5; y := 0.5 |} ]%float in
  map vertices (get_interpolation_weights (cgal := walk) unit_square pts)
  = [(0, 2, 3); (0, 2, 3)]%Z /\
  map vertices (map (get_interpolation_weight (cgal := walk) unit_square) pts)
  = [(0, 2, 3); (0, 1, 2)]%Z.
Proof. split; reflexivity. Qed.

Lemma vertices_name_input_points_witness :
  let xs := [0; 1; 0; 0]%float in
  let ys := [0; 0; 1; 1]%float in
  let this := {| m_triangulation :=
                   add_mesh_points (cgal := input_order FACE) t_CDT_empty
                     (input_points xs ys) |} in
  let vs := finite_vertices (m_triangulation this) in
  (forall v, In v vs ->
     exists k p, info v = Z.of_nat k /\ nth_error (input_points xs ys) k = Some p /\
                 (point v = p \/ point_eqb (point v) p = true)) /\
  (forall k p, nth_error (input_points xs ys) k = Some p -> point_eqb p p = true ->
               present vs p) /\
  length vs <= 4.
Proof.
  exact (@vertices_name_input_points float _ (input_order FACE)
           [0; 1; 0; 0]%float [0; 0; 1; 1]%float _ eq_refl eq_refl).
Defined.

Lemma get_vertices_last_visited_witness :
  let xs := [0; 1; 0; 0]%float in
  let ys := [0; 0; 1; 1]%float in
  let this := {| m_triangulation :=
                   add_mesh_points (cgal := input_order FACE) t_CDT_empty
                     (input_points xs ys) |} in
  length (finite_vertices (m_triangulation this)) = 3 /\
  get_vertices this = None.
Proof.
  intros xs ys this. split; [reflexivity|].
  refine (proj1 (proj2 (@get_vertices_last_visited float _ (input_order FACE)
                          xs ys this eq_refl eq_refl)) _).
  vm_compute. apply le_n.
Defined.

Lemma readCoordinates_reads_once_witness :
  let g := readCoordinates south_first_unread south_first in
  m_latitude g = [0; 0; 0; 1; 1; 1]%float /\
  m_longitude g = map wrap_longitude [0; 1; 2; 0; 1; 2]%float /\
  forall handle', readCoordinates g handle' = g.
Proof.
  intros g.
  destruct (@readCoordinates_reads_once float _ south_first_unread south_first
              eq_refl eq_refl eq_refl eq_refl) as (Hlat & Hlon & _ & Honce).
  split; [exact Hlat|]. split; [exact Hlon|]. apply Honce. cbn. lia.
Defined.

Lemma Grib_top_corners_witness :
  exists (g : Grib float) ll lr tr tl,
    Grib_new south_first = Some g /\
    m_corners g = [ll; lr; tr; tl] /\
    is_minimum (px tl) (firstn 2 (m_longitude g)) /\
    is_maximum (px tr) (firstn 2 (m_longitude g)) /\
    is_minimum (py tl) (firstn 2 (m_latitude g)) /\
    is_maximum (py tr) (firstn 2 (m_latitude g)).
Proof.
  destruct (Grib_top_corners south_first) as (g & ll & lr & tr & tl & E & Ec & Htop & _).
  - cbn. lia.
  - exists g, ll, lr, tr, tl. split; [exact E|]. split; [exact Ec|].
    apply Htop. cbn. lia.
Defined.

End More_witnesses.
